(** * Satisfiability validation of a composed supergraph

    A shallow embedding of [composition-js/src/validate.ts]: the witness
    builder ([buildWitnessOperation], [buildWitnessNextStep],
    [buildWitnessField], [generateWitnessValue]), the validation state machine
    ([ValidationState], [ValidationTaversal]), the condition validator
    ([ConditionValidationState], [validateConditions]) and the two entry points
    ([validateGraphComposition], [computeSubgraphPaths]).

    Conventions.
    - A JavaScript computation that may throw has type [Res A]; one that
      additionally contains a [while] loop or calls into the query-graphs
      package has type [M A = option (Res A)], where [None] stands for
      "no completion": the iteration budget is used up, or a collaborator
      did not answer.
    - Assertion messages keep the constant part of the source's template
      strings; the interpolated renderings of edges, paths and states are
      dropped.
    - A JavaScript array used as a stack ([push]/[pop] at the end) is a list
      whose head is the top of the stack. *)

From Stdlib Require Import List String Bool Arith Lia QArith.
Import ListNotations.
Open Scope string_scope.
Open Scope nat_scope.
Open Scope list_scope.

Set Implicit Arguments.
Set Warnings "-register-all".

(** ** JavaScript values *)

(** The values the witness builder manipulates: argument values and the
    default values of input fields ([any] in the source). Objects created by
    [Object.create(null)] are property lists in insertion order. *)
Inductive JsValue : Type :=
| JNull
| JBool (b : bool)
| JNumber (q : Q)
| JString (s : string)
| JArray (items : list JsValue)
| JObject (props : list (string * JsValue)).

Definition JsObject := list (string * JsValue).

(** ToBoolean on a value that is present. *)
Definition truthy (v : JsValue) : bool :=
  match v with
  | JNull => false
  | JBool b => b
  | JNumber q => negb (Qeq_bool q 0)
  | JString s => negb (String.eqb s "")
  | JArray _ => true
  | JObject _ => true
  end.

(** ToBoolean on a possibly [undefined] value. *)
Definition truthyOpt (v : option JsValue) : bool :=
  match v with
  | Some v => truthy v
  | None => false
  end.

(** [obj[key] = value]: an existing property keeps its position. *)
Fixpoint setProp (key : string) (value : JsValue) (obj : JsObject) : JsObject :=
  match obj with
  | [] => [(key, value)]
  | (k, v) :: obj' =>
      if String.eqb key k then (key, value) :: obj' else (k, v) :: setProp key value obj'
  end.

Fixpoint getProp (key : string) (obj : JsObject) : option JsValue :=
  match obj with
  | [] => None
  | (k, v) :: obj' => if String.eqb key k then Some v else getProp key obj'
  end.

(** ** The schema model consumed from the core package *)

Inductive SchemaRootKind : Type := query | mutation | subscription.

Definition SchemaRootKind_eqb (a b : SchemaRootKind) : bool :=
  match a, b with
  | query, query | mutation, mutation | subscription, subscription => true
  | _, _ => false
  end.

Definition rootKindName (k : SchemaRootKind) : string :=
  match k with
  | query => "query"
  | mutation => "mutation"
  | subscription => "subscription"
  end.

Inductive TypeKind : Type :=
| ScalarKind | EnumKind | ObjectKind | InterfaceKind | UnionKind.

(** The named output types carried by graph vertices. *)
Record NamedType : Type := { t_kind : TypeKind; t_name : string }.

(** Modelled from the spec: [isLeafType] of the core package, "the final
    vertex's type is a leaf (scalar/enum)". *)
Definition isLeafType (t : NamedType) : bool :=
  match t_kind t with
  | ScalarKind | EnumKind => true
  | _ => false
  end.

Record EnumValue : Type := { ev_name : string }.

(** [InputType] of the core package, a union discriminated by [kind]. An
    input field records its name, its type and its default value
    ([undefined] when none is declared). *)
Inductive InputType : Type :=
| ScalarType (name : string)
| EnumType (name : string) (values : list EnumValue)
| InputObjectType (name : string) (fields : list InputFieldDefinition)
| ListType (ofType : InputType)
| NonNullType (ofType : InputType)
with InputFieldDefinition : Type :=
| MkInputField (name : string) (type : InputType) (defaultValue : option JsValue).

Definition if_name (f : InputFieldDefinition) : string :=
  let 'MkInputField n _ _ := f in n.
Definition if_type (f : InputFieldDefinition) : InputType :=
  let 'MkInputField _ t _ := f in t.
Definition if_defaultValue (f : InputFieldDefinition) : option JsValue :=
  let 'MkInputField _ _ d := f in d.

(** Modelled from the spec: [isNullableType] of the core package; a type is
    nullable unless it is a non-null wrapper. *)
Definition isNullableType (t : InputType) : bool :=
  match t with
  | NonNullType _ => false
  | _ => true
  end.

Record ArgumentDefinition : Type := { arg_name : string; arg_type : InputType }.

Record FieldDefinition : Type :=
  { fd_name : string; fd_arguments : list ArgumentDefinition }.

Definition VariableDefinitions := list (string * InputType).

(** ** Operations and selections *)

Record Field : Type :=
  { f_definition : FieldDefinition;
    f_args : JsObject;
    f_variableDefinitions : VariableDefinitions }.

Record FragmentElement : Type :=
  { fe_sourceType : NamedType; fe_typeCondition : string }.

Inductive OperationElement : Type :=
| FieldElement (f : Field)
| FragmentElt (f : FragmentElement).

(** [SelectionSet] with the selections added to it; [Selection] with its
    optional sub-selection ([undefined] is [None]). *)
Inductive SelectionSet : Type :=
| MkSelectionSet (parentType : NamedType) (sels : list Selection)
with Selection : Type :=
| FieldSelection (field : Field) (selectionSet : option SelectionSet)
| FragmentSelection (element : FragmentElement) (selectionSet : option SelectionSet).

(** [new SelectionSet(type)] *)
Definition newSelectionSet (type : NamedType) : SelectionSet :=
  MkSelectionSet type [].

(** [selectionSet.add(selection)] *)
Definition addSelection (ss : SelectionSet) (s : Selection) : SelectionSet :=
  let 'MkSelectionSet t l := ss in MkSelectionSet t (l ++ [s]).

(** [selectionSet.selections()] *)
Definition selections (ss : SelectionSet) : list Selection :=
  let 'MkSelectionSet _ l := ss in l.

Definition ss_parentType (ss : SelectionSet) : NamedType :=
  let 'MkSelectionSet t _ := ss in t.

(** [selection.selectionSet] *)
Definition sel_selectionSet (s : Selection) : option SelectionSet :=
  match s with
  | FieldSelection _ sub => sub
  | FragmentSelection _ sub => sub
  end.

(** [selection.element()] *)
Definition sel_element (s : Selection) : OperationElement :=
  match s with
  | FieldSelection f _ => FieldElement f
  | FragmentSelection e _ => FragmentElt e
  end.

Record Operation : Type :=
  { op_rootKind : option SchemaRootKind;
    op_selectionSet : option SelectionSet;
    op_variableDefinitions : VariableDefinitions }.

(** ** The traversal graph consumed from the query-graphs package *)

Inductive Transition : Type :=
| FieldCollection (definition : FieldDefinition)
| DownCast (sourceType castedType : NamedType)
| KeyResolution
| FreeTransition.

Definition freeTransition : Transition := FreeTransition.

(** A vertex; [v_rootKind] is present on root vertices only. *)
Record Vertex : Type :=
  { v_index : nat;
    v_type : NamedType;
    v_source : string;
    v_rootKind : option SchemaRootKind }.

Record Edge : Type :=
  { e_head : Vertex;
    e_tail : Vertex;
    e_transition : Transition;
    e_conditions : option SelectionSet }.

Record Schema : Type := { schema_name : string }.

(** Modelled from the spec: the traversal graph, "root vertex lookup by root
    kind, outgoing edges of a vertex"; the out-edges are stored per vertex
    index, the sources per source name. *)
Record Graph : Type :=
  { g_vertices : list Vertex;
    g_adjacencies : list (list Edge);
    g_rootVertices : list (SchemaRootKind * Vertex);
    g_sources : list (string * Schema) }.

(** [graph.root(kind)] *)
Fixpoint lookupRoot (kind : SchemaRootKind) (l : list (SchemaRootKind * Vertex))
  : option Vertex :=
  match l with
  | [] => None
  | (k, v) :: l' => if SchemaRootKind_eqb kind k then Some v else lookupRoot kind l'
  end.

Definition graph_root (g : Graph) (kind : SchemaRootKind) : option Vertex :=
  lookupRoot kind (g_rootVertices g).

(** [graph.rootKinds()] *)
Definition rootKinds (g : Graph) : list SchemaRootKind :=
  map fst (g_rootVertices g).

(** [graph.outEdges(vertex)] *)
Definition outEdges (g : Graph) (v : Vertex) : list Edge :=
  nth (v_index v) (g_adjacencies g) [].

(** [[...graph.sources.values()][0]], [undefined] when there is no source. *)
Definition firstSource (g : Graph) : option Schema :=
  hd_error (map snd (g_sources g)).

(** Modelled from the spec: the Path type of the query-graphs package, "an
    immutable, extendable sequence of (transition, edge) pairs anchored at a
    root vertex of one graph". [T] is the type of the triggers. *)
Record GraphPath (T : Type) : Type :=
  { p_graph : Graph;
    p_root : Vertex;
    p_steps : list (Edge * T) }.

Definition RootPath := GraphPath.
Definition OpGraphPath := GraphPath OperationElement.

(** Whether an edge is a no-op "free" transition. *)
Definition isFreeEdge (e : Edge) : bool :=
  match e_transition e with
  | FreeTransition => true
  | _ => false
  end.

Section PathOperations.
Context {T : Type}.

(** [GraphPath.create(graph, root)] *)
Definition pathCreate (g : Graph) (r : Vertex) : GraphPath T :=
  {| p_graph := g; p_root := r; p_steps := [] |}.

(** [GraphPath.fromGraphRoot(graph, kind)] *)
Definition fromGraphRoot (g : Graph) (kind : SchemaRootKind) : option (GraphPath T) :=
  option_map (pathCreate g) (graph_root g kind).

(** [path.size] *)
Definition pathSize (p : GraphPath T) : nat := List.length (p_steps p).

(** [path.add(transition, edge)] *)
Definition pathAdd (p : GraphPath T) (t : T) (e : Edge) : GraphPath T :=
  {| p_graph := p_graph p; p_root := p_root p; p_steps := p_steps p ++ [(e, t)] |}.

(** [path.elements()] *)
Definition elements (p : GraphPath T) : list (Edge * T) := p_steps p.

(** The vertices a path goes through, the root first. *)
Definition pathVertices (p : GraphPath T) : list Vertex :=
  p_root p :: map (fun s => e_tail (fst s)) (p_steps p).

(** [path.tail] *)
Definition pathTail (p : GraphPath T) : Vertex :=
  last (pathVertices p) (p_root p).

(** [path.nextEdges()] *)
Definition nextEdges (p : GraphPath T) : list Edge :=
  outEdges (p_graph p) (pathTail p).

(** Modelled from the spec: [path.isTerminal()], "whether its tail vertex
    is terminal (no outgoing edges / leaf type)". *)
Definition isTerminal (p : GraphPath T) : bool :=
  match nextEdges p with [] => true | _ => false end.

(** Modelled from the spec: the vertices a path has visited "since its last
    'free' reset". A path "tracks the vertices visited so it can detect
    revisits (cycles)"; taking an edge that is a no-op "free" transition
    forgets the vertices visited so far, and the vertex that edge leads to is
    the first one visited anew. [visited] holds the vertices visited before
    [steps] are taken. *)
Fixpoint visitedSince (visited : list Vertex) (steps : list (Edge * T)) : list Vertex :=
  match steps with
  | [] => visited
  | (e, _) :: steps' =>
      visitedSince (if isFreeEdge e then [e_tail e] else visited ++ [e_tail e]) steps'
  end.

Definition sinceReset (p : GraphPath T) : list Vertex :=
  visitedSince [p_root p] (p_steps p).

(** Modelled from the spec: [path.hasJustCycled()], "whether it has
    revisited an already-visited vertex since its last 'free' reset": the
    tail is one of the vertices visited since the last reset, before the
    last step was taken. *)
Definition hasJustCycled (p : GraphPath T) : bool :=
  existsb (fun v => v_index v =? v_index (pathTail p))
          (removelast (sinceReset p)).

(** Modelled from the spec: [path.hasAnyEdgeConditions()], the path
    "must carry no edge conditions". *)
Definition hasAnyEdgeConditions (p : GraphPath T) : bool :=
  existsb (fun s => match e_conditions (fst s) with Some _ => true | None => false end)
          (p_steps p).
End PathOperations.

(** ** Exceptions *)

Record ValidationError : Type :=
  { ve_message : string;
    supergraphUnsatisfiablePath : RootPath Transition;
    subgraphsPaths : list (RootPath Transition);
    witness : Operation }.

(** What a [throw] can carry in this module: a [ValidationError], a failed
    [assert], or the [TypeError] of reading a property of [undefined]. *)
Inductive Exn : Type :=
| ValidationErrorExn (e : ValidationError)
| AssertionError (message : string)
| TypeError (message : string).

Inductive Res (A : Type) : Type :=
| Ok (a : A)
| Throw (e : Exn).
Arguments Throw {A} e.

Definition bindRes {A B : Type} (c : Res A) (k : A -> Res B) : Res B :=
  match c with
  | Ok a => k a
  | Throw e => Throw e
  end.

Notation "x <- c ;; k" := (bindRes c (fun x => k))
  (at level 61, c at next level, right associativity).

(** [assert(condition, message)] *)
Definition assert (condition : bool) (message : string) : Res unit :=
  if condition then Ok tt else Throw (AssertionError message).

Definition isValidationError (e : Exn) : bool :=
  match e with
  | ValidationErrorExn _ => true
  | _ => false
  end.

Definition undefinedProperty : string :=
  "Cannot read properties of undefined".

(** The messages of the assertions. *)
Definition msgEdgeConditions : string :=
  "Supergraph edges should not have conditions".
Definition msgPathConditions : string :=
  "A supergraph path should not have edge condition paths (as supergraph edges should not have conditions)".
Definition msgNoRoot (kind : option SchemaRootKind) : string :=
  "The supergraph shouldn't have a "
  ++ match kind with Some k => rootKindName k | None => "undefined" end
  ++ " root if no subgraphs have one".
Definition msgRootType : string :=
  "Unexpected type for subgraphs root type".
Definition msgInvalidState : string :=
  "Invalid state: some subgraphs type don't match the supergraph.".
Definition msgEmptyPath : string :=
  "unsatisfiablePath should contain at least one edge/transition".

(** ** The witness builder *)

(** [generateWitnessValue(type)]. Reading [type.values[0].name] on an enum
    without values is the [TypeError] of [undefined.name]. The [default]
    branch of the outer [switch] needs a [kind] outside [InputType] and has
    no counterpart here. *)
Fixpoint generateWitnessValue (type : InputType) : Res JsValue :=
  match type with
  | ScalarType name =>
      if String.eqb name "Int" then Ok (JNumber 0)
      else if String.eqb name "Float" then Ok (JNumber (314 # 100))
      else if String.eqb name "Boolean" then Ok (JBool true)
      else if String.eqb name "String" then Ok (JString "A string value")
      else if String.eqb name "ID" then Ok (JString "<any id>")
      else Ok (JString "<some value>")
  | EnumType _ values =>
      match values with
      | v :: _ => Ok (JString (ev_name v))
      | [] => Throw (TypeError undefinedProperty)
      end
  | InputObjectType _ fields =>
      (fix loop (fs : list InputFieldDefinition) (obj : JsObject) : Res JsValue :=
         match fs with
         | [] => Ok (JObject obj)
         | MkInputField name ftype defaultValue :: fs' =>
             if truthyOpt defaultValue || isNullableType ftype then loop fs' obj
             else
               match generateWitnessValue ftype with
               | Ok v => loop fs' (setProp name v obj)
               | Throw e => Throw e
               end
         end) fields []
  | ListType _ => Ok (JArray [])
  | NonNullType ofType => generateWitnessValue ofType
  end.

(** The loop of the [InputObjectType] case, named so that it can be reasoned
    about on its own. *)
Fixpoint witnessFields (fs : list InputFieldDefinition) (obj : JsObject) : Res JsValue :=
  match fs with
  | [] => Ok (JObject obj)
  | MkInputField name ftype defaultValue :: fs' =>
      if truthyOpt defaultValue || isNullableType ftype then witnessFields fs' obj
      else v <- generateWitnessValue ftype ;; witnessFields fs' (setProp name v obj)
  end.

(** The loop of [buildWitnessField] over [definition.arguments()]. *)
Fixpoint witnessArguments (argDefs : list ArgumentDefinition) (args : JsObject)
  : Res JsObject :=
  match argDefs with
  | [] => Ok args
  | argDef :: argDefs' =>
      v <- generateWitnessValue (arg_type argDef) ;;
      witnessArguments argDefs' (setProp (arg_name argDef) v args)
  end.

(** [buildWitnessField(definition)] *)
Definition buildWitnessField (definition : FieldDefinition) : Res Field :=
  args <- witnessArguments (fd_arguments definition) [] ;;
  Ok {| f_definition := definition; f_args := args; f_variableDefinitions := [] |}.

(** [edges[edges.length - 1].tail.type] *)
Definition lastTailType (edges : list Edge) : Res NamedType :=
  match rev edges with
  | e :: _ => Ok (v_type (e_tail e))
  | [] => Throw (TypeError undefinedProperty)
  end.

(** The recursion of [buildWitnessNextStep], on the edges that remain from
    [index] on. *)
Fixpoint buildWitnessFrom (edges remaining : list Edge) : Res (option SelectionSet) :=
  match remaining with
  | [] =>
      lastType <- lastTailType edges ;;
      Ok (if isLeafType lastType then None else Some (newSelectionSet lastType))
  | edge :: remaining' =>
      subSelection <- buildWitnessFrom edges remaining' ;;
      match e_transition edge with
      | DownCast sourceType type =>
          let selection :=
            FragmentSelection
              {| fe_sourceType := sourceType; fe_typeCondition := t_name type |}
              subSelection in
          Ok (Some (addSelection (newSelectionSet (v_type (e_head edge))) selection))
      | FieldCollection field =>
          f <- buildWitnessField field ;;
          let selection := FieldSelection f subSelection in
          Ok (Some (addSelection (newSelectionSet (v_type (e_head edge))) selection))
      | FreeTransition | KeyResolution => Ok subSelection
      end
  end.

(** [buildWitnessNextStep(edges, index)] *)
Definition buildWitnessNextStep (edges : list Edge) (index : nat)
  : Res (option SelectionSet) :=
  buildWitnessFrom edges (skipn index edges).

(** [buildWitnessOperation(witness)] *)
Definition buildWitnessOperation (witness : RootPath Transition) : Res Operation :=
  _ <- assert (0 <? pathSize witness) msgEmptyPath ;;
  let root := p_root witness in
  selectionSet <- buildWitnessNextStep (map fst (elements witness)) 0 ;;
  Ok {| op_rootKind := v_rootKind root;
        op_selectionSet := selectionSet;
        op_variableDefinitions := [] |}.

(** [validationError(unsatisfiablePath, subgraphsPaths)] *)
Definition validationError (unsatisfiablePath : RootPath Transition)
           (subgraphsPaths : list (RootPath Transition)) : Res ValidationError :=
  let message := "TODO" in
  w <- buildWitnessOperation unsatisfiablePath ;;
  Ok {| ve_message := message;
        supergraphUnsatisfiablePath := unsatisfiablePath;
        subgraphsPaths := subgraphsPaths;
        witness := w |}.

(** ** Computations that may not complete *)

Definition M (A : Type) : Type := option (Res A).

Definition bindM {A B : Type} (c : M A) (k : A -> M B) : M B :=
  match c with
  | None => None
  | Some (Throw e) => Some (Throw e)
  | Some (Ok a) => k a
  end.

Definition lift {A : Type} (r : Res A) : M A := Some r.

Notation "x <~ c ;; k" := (bindM c (fun x => k))
  (at level 61, c at next level, right associativity).

(** [array.flatMap(f)] for a callback that may not answer. *)
Fixpoint flatMapOpt {A B : Type} (f : A -> option (list B)) (l : list A)
  : option (list B) :=
  match l with
  | [] => Some []
  | a :: l' =>
      match f a with
      | None => None
      | Some bs =>
          match flatMapOpt f l' with
          | None => None
          | Some rest => Some (bs ++ rest)
          end
      end
  end.

(** [xs.forEach(x => stack.push(x))] *)
Definition pushAll {A : Type} (xs : list A) (stack : list A) : list A :=
  fold_left (fun st x => x :: st) xs stack.

(** ** The condition validator *)

(** The two results of [validateConditions]: [null] is the failure marker,
    [undefined] the success value. *)
Inductive CondResult : Type := Null | Undefined.

Definition ExcludedEdges := list (nat * nat).

(** The condition resolver handed to the path-advancing functions. *)
Definition ConditionResolver : Type :=
  SelectionSet -> Vertex -> ExcludedEdges -> option CondResult.

Record ConditionValidationState : Type :=
  { cvs_selection : Selection;
    cvs_subgraphPaths : list (list OpGraphPath) }.

(** The result of [validateCurrentSelection]: [null] or the new states. *)
Inductive Selected : Type :=
| SelectedNull
| SelectedStates (states : list ConditionValidationState).

Record ValidationState : Type :=
  { supergraphPath : RootPath Transition;
    subgraphPaths : list (RootPath Transition) }.

(** A [ValidationState] object as the constructor can return it: over a
    supergraph path, or with [supergraphPath] left [undefined], which the
    constructor lets through when there is no subgraph path to compare it
    with. *)
Inductive StateObject : Type :=
| Built (state : ValidationState)
| Pathless.

(** The result objects of the two entry points. *)
Record CompositionResult : Type := { error : option ValidationError }.
Record SubgraphPathsResult : Type :=
  { sp_traversal : option StateObject; sp_error : option ValidationError }.

Section Validate.

(** The functions of the query-graphs package this module calls. They are
    not part of the embedded source: each is a parameter, answering [None]
    when it does not complete (for instance because the resolver it was
    handed did not). *)
Variable federatedGraphRootTypeName : SchemaRootKind -> string.
Variable advancePathWithTransition :
  RootPath Transition -> Transition -> NamedType -> ConditionResolver ->
  option (list (RootPath Transition)).
Variable advanceSimultaneousPathsWithOperation :
  option Schema -> list OpGraphPath -> OperationElement -> ConditionResolver ->
  ExcludedEdges -> option (list (list OpGraphPath)).

Section CurrentSelection.
(** [validateConditions], as called back from the body of
    [validateCurrentSelection]. *)
Variable validateConditionsRec :
  option Schema -> SelectionSet -> OpGraphPath -> ExcludedEdges ->
  option CondResult.

(** The paths [this.subgraphPaths.flatMap(...)] of
    [validateCurrentSelection]. A resolver over an empty simultaneous
    path has no [path[0].graph] to start from and does not answer. *)
Definition advanceCurrentSelection (this : ConditionValidationState)
           (supergraphSchema : option Schema) (excludedEdges : ExcludedEdges)
  : option (list (list OpGraphPath)) :=
  flatMapOpt
    (fun path =>
       advanceSimultaneousPathsWithOperation
         supergraphSchema path (sel_element (cvs_selection this))
         (fun conditions vertex excluded =>
            match hd_error path with
            | Some path0 =>
                validateConditionsRec supergraphSchema conditions
                  (pathCreate (p_graph path0) vertex) excluded
            | None => None
            end)
         excludedEdges)
    (cvs_subgraphPaths this).

(** [ConditionValidationState.validateCurrentSelection] *)
Definition validateCurrentSelection (this : ConditionValidationState)
           (supergraphSchema : option Schema) (excludedEdges : ExcludedEdges)
  : option Selected :=
  match advanceCurrentSelection this supergraphSchema excludedEdges with
  | None => None
  | Some newPaths =>
      if List.length newPaths =? 0 then Some SelectedNull
      else
        Some (SelectedStates
                match sel_selectionSet (cvs_selection this) with
                | Some ss =>
                    map (fun s => {| cvs_selection := s; cvs_subgraphPaths := newPaths |})
                        (selections ss)
                | None => []
                end)
  end.

(** The [while (stack.length > 0)] loop of [validateConditions], with
    at most [n] iterations. *)
Fixpoint conditionLoop (supergraphSchema : option Schema) (excludedEdges : ExcludedEdges)
         (n : nat) (stack : list ConditionValidationState) : option CondResult :=
  match stack with
  | [] => Some Undefined
  | state :: stack' =>
      match n with
      | 0 => None
      | S n' =>
          match validateCurrentSelection state supergraphSchema excludedEdges with
          | None => None
          | Some SelectedNull => Some Null
          | Some (SelectedStates newStates) =>
              conditionLoop supergraphSchema excludedEdges n' (pushAll newStates stack')
          end
      end
  end.
End CurrentSelection.

(** The stack [validateConditions] starts from. *)
Definition initialConditionStack (conditions : SelectionSet) (initialPath : OpGraphPath)
  : list ConditionValidationState :=
  pushAll (map (fun selection =>
                  {| cvs_selection := selection; cvs_subgraphPaths := [[initialPath]] |})
               (selections conditions)) [].

(** [validateConditions]; [fuel] bounds both the nesting of conditions
    within conditions and the iterations of each loop. *)
Fixpoint validateConditions (fuel : nat) (supergraphSchema : option Schema)
         (conditions : SelectionSet) (initialPath : OpGraphPath)
         (excludedEdges : ExcludedEdges) : option CondResult :=
  match fuel with
  | 0 => None
  | S fuel' =>
      conditionLoop (validateConditions fuel') supergraphSchema excludedEdges fuel'
                    (initialConditionStack conditions initialPath)
  end.

(** ** The validation state machine *)

(** [new ValidationState(supergraphPath, subgraphPaths)] *)
Definition newValidationState (supergraphPath : RootPath Transition)
           (subgraphPaths : list (RootPath Transition)) : Res ValidationState :=
  _ <- assert
         (forallb (fun p => String.eqb (t_name (v_type (pathTail p)))
                                       (t_name (v_type (pathTail supergraphPath))))
                  subgraphPaths)
         msgInvalidState ;;
  Ok {| supergraphPath := supergraphPath; subgraphPaths := subgraphPaths |}.

(** [initialSubgraphPaths(kind, subgraphs)] *)
Definition initialSubgraphPaths (kind : SchemaRootKind) (subgraphs : Graph)
  : Res (list (RootPath Transition)) :=
  match graph_root subgraphs kind with
  | None => Throw (AssertionError (msgNoRoot (Some kind)))
  | Some root =>
      _ <- assert (String.eqb (t_name (v_type root)) (federatedGraphRootTypeName kind))
             msgRootType ;;
      match fromGraphRoot subgraphs kind with
      | Some initialState =>
          Ok (map (fun e => pathAdd initialState freeTransition e) (outEdges subgraphs root))
      | None => Throw (TypeError undefinedProperty)
      end
  end.

(** [new ValidationState(supergraphPath, subgraphPaths)] with a first
    argument that may be [undefined], as [initial] passes it. The assertion
    reads [this.supergraphPath.tail] once per subgraph path: an [undefined]
    path fails on the first subgraph path, and goes unnoticed when there is
    none. *)
Definition constructState (supergraphPath : option (RootPath Transition))
           (subgraphPaths : list (RootPath Transition)) : Res StateObject :=
  match supergraphPath with
  | Some path =>
      state <- newValidationState path subgraphPaths ;;
      Ok (Built state)
  | None =>
      match subgraphPaths with
      | [] => Ok Pathless
      | _ :: _ => Throw (TypeError undefinedProperty)
      end
  end.

(** [ValidationState.initial(supergraph, kind, subgraphs)]. When the
    supergraph has no root of that kind the first argument of the
    constructor is [undefined]. *)
Definition initial (supergraph : Graph) (kind : SchemaRootKind) (subgraphs : Graph)
  : Res StateObject :=
  let supergraphRootPath := fromGraphRoot supergraph kind in
  paths <- initialSubgraphPaths kind subgraphs ;;
  constructState supergraphRootPath paths.

(** The paths [this.subgraphPaths.flatMap(...)] of [validateTransition]. *)
Definition advanceSubgraphPaths (fuel : nat) (this : ValidationState)
           (supergraphSchema : option Schema) (supergraphEdge : Edge)
  : option (list (RootPath Transition)) :=
  flatMapOpt
    (fun path =>
       advancePathWithTransition
         path (e_transition supergraphEdge) (v_type (e_tail supergraphEdge))
         (fun conditions vertex excluded =>
            validateConditions fuel supergraphSchema conditions
                               (pathCreate (p_graph path) vertex) excluded))
    (subgraphPaths this).

(** [ValidationState.validateTransition]; [fuel] is the budget of the
    condition validator. *)
Definition validateTransition (fuel : nat) (this : ValidationState)
           (supergraphSchema : option Schema) (supergraphEdge : Edge)
  : M ValidationState :=
  match e_conditions supergraphEdge with
  | Some _ => Some (Throw (AssertionError msgEdgeConditions))
  | None =>
      let transition := e_transition supergraphEdge in
      match advanceSubgraphPaths fuel this supergraphSchema supergraphEdge with
      | None => None
      | Some newSubgraphPaths =>
          let newPath := pathAdd (supergraphPath this) transition supergraphEdge in
          if List.length newSubgraphPaths =? 0 then
            match validationError newPath (subgraphPaths this) with
            | Ok e => Some (Throw (ValidationErrorExn e))
            | Throw x => Some (Throw x)
            end
          else lift (newValidationState newPath newSubgraphPaths)
      end
  end.

(** [validateTransition] called on an object. Without supergraph path
    there is no subgraph path to advance either, and the call fails on
    [this.supergraphPath.add], once the assertion on the edge has passed. *)
Definition transitionFrom (fuel : nat) (this : StateObject)
           (supergraphSchema : option Schema) (supergraphEdge : Edge)
  : M ValidationState :=
  match this with
  | Built state => validateTransition fuel state supergraphSchema supergraphEdge
  | Pathless =>
      match e_conditions supergraphEdge with
      | Some _ => Some (Throw (AssertionError msgEdgeConditions))
      | None => Some (Throw (TypeError undefinedProperty))
      end
  end.

(** [ValidationState.hasCycled] *)
Definition hasCycled (this : ValidationState) : bool :=
  existsb (fun p => hasJustCycled p) (subgraphPaths this).

(** ** The traversal *)

(** The [for] loop of [handleState] over the edges still to take. *)
Fixpoint handleEdges (fuel : nat) (supergraphSchema : option Schema)
         (state : ValidationState) (edges : list Edge) (stack : list StateObject)
  : M (list StateObject) :=
  match edges with
  | [] => Some (Ok stack)
  | edge :: edges' =>
      newState <~ validateTransition fuel state supergraphSchema edge ;;
      if negb (isTerminal (supergraphPath newState)) && negb (hasCycled newState)
      then handleEdges fuel supergraphSchema state edges' (Built newState :: stack)
      else handleEdges fuel supergraphSchema state edges' stack
  end.

(** [ValidationTaversal.handleState]; an object without supergraph path
    fails on reading [state.supergraphPath.nextEdges]. *)
Definition handleState (fuel : nat) (supergraphSchema : option Schema)
           (state : StateObject) (stack : list StateObject)
  : M (list StateObject) :=
  match state with
  | Built state =>
      handleEdges fuel supergraphSchema state (nextEdges (supergraphPath state)) stack
  | Pathless => Some (Throw (TypeError undefinedProperty))
  end.

(** [ValidationTaversal.validate], with at most [n] iterations of the
    [while] loop. *)
Fixpoint validate (fuel : nat) (supergraphSchema : option Schema)
         (n : nat) (stack : list StateObject) : M unit :=
  match stack with
  | [] => Some (Ok tt)
  | state :: stack' =>
      match n with
      | 0 => None
      | S n' =>
          stack'' <~ handleState fuel supergraphSchema state stack' ;;
          validate fuel supergraphSchema n' stack''
      end
  end.

(** The [forEach] of the constructor of [ValidationTaversal]. *)
Fixpoint seedStack (supergraph subgraphs : Graph) (kinds : list SchemaRootKind)
         (stack : list StateObject) : Res (list StateObject) :=
  match kinds with
  | [] => Ok stack
  | k :: kinds' =>
      state <- initial supergraph k subgraphs ;;
      seedStack supergraph subgraphs kinds' (state :: stack)
  end.

Record ValidationTaversal : Type :=
  { vt_supergraphSchema : option Schema;
    vt_stack : list StateObject }.

(** [new ValidationTaversal(supergraph, subgraphs)] *)
Definition newValidationTaversal (supergraph subgraphs : Graph) : Res ValidationTaversal :=
  let supergraphSchema := firstSource supergraph in
  stack <- seedStack supergraph subgraphs (rootKinds supergraph) [] ;;
  Ok {| vt_supergraphSchema := supergraphSchema; vt_stack := stack |}.

(** [new ValidationTaversal(supergraph, subgraphs).validate()] *)
Definition traverse (fuel n : nat) (supergraph subgraphs : Graph) : M unit :=
  t <~ lift (newValidationTaversal supergraph subgraphs) ;;
  validate fuel (vt_supergraphSchema t) n (vt_stack t).

(** [validateGraphComposition(supergraph, subgraphs)] *)
Definition validateGraphComposition (fuel n : nat) (supergraph subgraphs : Graph)
  : M CompositionResult :=
  match traverse fuel n supergraph subgraphs with
  | None => None
  | Some (Ok _) => Some (Ok {| error := None |})
  | Some (Throw (ValidationErrorExn e)) => Some (Ok {| error := Some e |})
  | Some (Throw e) => Some (Throw e)
  end.

(** [supergraphPath.reduceMainPath(...)] of [computeSubgraphPaths]: the
    reducer folded over the edges of the path, from the first on. *)
Fixpoint replayEdges (fuel : nat) (supergraphSchema : option Schema)
         (edges : list Edge) (state : StateObject) : M StateObject :=
  match edges with
  | [] => Some (Ok state)
  | edge :: edges' =>
      state' <~ transitionFrom fuel state supergraphSchema edge ;;
      replayEdges fuel supergraphSchema edges' (Built state')
  end.

(** The body of the [try] block of [computeSubgraphPaths]. A root vertex
    without a root kind makes [subgraphs.root(undefined)] fail the first
    assertion of [initialSubgraphPaths]. *)
Definition replay (fuel : nat) (supergraphPath : RootPath Transition) (subgraphs : Graph)
  : M StateObject :=
  _ <~ lift (assert (negb (hasAnyEdgeConditions supergraphPath)) msgPathConditions) ;;
  let supergraphSchema := firstSource (p_graph supergraphPath) in
  initialState <~ lift match v_rootKind (p_root supergraphPath) with
                       | Some kind => initial (p_graph supergraphPath) kind subgraphs
                       | None => Throw (AssertionError (msgNoRoot None))
                       end ;;
  replayEdges fuel supergraphSchema (map fst (p_steps supergraphPath)) initialState.

(** [computeSubgraphPaths(supergraphPath, subgraphs)] *)
Definition computeSubgraphPaths (fuel : nat) (supergraphPath : RootPath Transition)
           (subgraphs : Graph) : M SubgraphPathsResult :=
  match replay fuel supergraphPath subgraphs with
  | None => None
  | Some (Ok traversal) => Some (Ok {| sp_traversal := Some traversal; sp_error := None |})
  | Some (Throw (ValidationErrorExn e)) =>
      Some (Ok {| sp_traversal := None; sp_error := Some e |})
  | Some (Throw e) => Some (Throw e)
  end.

End Validate.

(** * Auxiliary definitions for the statements *)

(** The keys of an object, in property order. *)
Definition keys (obj : JsObject) : list string := map fst obj.

(** An argument definition and the entry the witness field holds for it. *)
Definition entryFor (a : ArgumentDefinition) (kv : string * JsValue) : Prop :=
  fst kv = arg_name a /\ generateWitnessValue (arg_type a) = Ok (snd kv).

(** Every enum type reached by the value generator declares a value. *)
Fixpoint enumsInhabited (type : InputType) : Prop :=
  match type with
  | ScalarType _ => True
  | EnumType _ values => values <> []
  | InputObjectType _ fields =>
      (fix all (fs : list InputFieldDefinition) : Prop :=
         match fs with
         | [] => True
         | MkInputField _ ftype _ :: fs' => enumsInhabited ftype /\ all fs'
         end) fields
  | ListType _ => True
  | NonNullType ofType => enumsInhabited ofType
  end.

(** The arguments of the fields collected along a path have inhabited enum
    types. *)
Definition argumentsInhabited (path : RootPath Transition) : Prop :=
  forall s definition a,
    In s (p_steps path) ->
    e_transition (fst s) = FieldCollection definition ->
    In a (fd_arguments definition) ->
    enumsInhabited (arg_type a).

(** The input object of the scenario of the witness builder: one required
    [String] field and one nullable [Int] field. *)
Definition scenarioInput : InputType :=
  InputObjectType "Filter"
    [ MkInputField "field" (NonNullType (ScalarType "String")) None;
      MkInputField "other" (ScalarType "Int") None ].

(** [input Paging { limit: Int! = 0 }]: a non-nullable field that declares
    the default value [0]. *)
Definition pagingInput : InputType :=
  InputObjectType "Paging"
    [ MkInputField "limit" (NonNullType (ScalarType "Int")) (Some (JNumber 0)) ].

(** ** A small federation, used to run the definitions

    The supergraph [type Query { me(id: ID!): User }],
    [type User { name: String  friend: User }] over one subgraph [S1]
    that declares the same types; [User.friend] makes both graphs cyclic.
    A second supergraph adds [User.email], which no subgraph provides. *)
Module Example.

Definition tQuery : NamedType := {| t_kind := ObjectKind; t_name := "Query" |}.
Definition tUser : NamedType := {| t_kind := ObjectKind; t_name := "User" |}.
Definition tString : NamedType := {| t_kind := ScalarKind; t_name := "String" |}.
Definition tFedQuery : NamedType := {| t_kind := ObjectKind; t_name := "[query]" |}.

Definition fMe : FieldDefinition :=
  {| fd_name := "me";
     fd_arguments := [ {| arg_name := "id"; arg_type := NonNullType (ScalarType "ID") |} ] |}.
Definition fName : FieldDefinition := {| fd_name := "name"; fd_arguments := [] |}.
Definition fFriend : FieldDefinition := {| fd_name := "friend"; fd_arguments := [] |}.
Definition fEmail : FieldDefinition := {| fd_name := "email"; fd_arguments := [] |}.

Definition vertex (i : nat) (t : NamedType) (src : string) (k : option SchemaRootKind)
  : Vertex :=
  {| v_index := i; v_type := t; v_source := src; v_rootKind := k |}.

Definition edge (h t : Vertex) (tr : Transition) : Edge :=
  {| e_head := h; e_tail := t; e_transition := tr; e_conditions := None |}.

(** The supergraph. *)
Definition sQuery : Vertex := vertex 0 tQuery "supergraph" (Some query).
Definition sUser : Vertex := vertex 1 tUser "supergraph" None.
Definition sString : Vertex := vertex 2 tString "supergraph" None.

Definition sMe : Edge := edge sQuery sUser (FieldCollection fMe).
Definition sName : Edge := edge sUser sString (FieldCollection fName).
Definition sFriend : Edge := edge sUser sUser (FieldCollection fFriend).
Definition sEmail : Edge := edge sUser sString (FieldCollection fEmail).

Definition schema : Schema := {| schema_name := "supergraph" |}.

Definition supergraph : Graph :=
  {| g_vertices := [sQuery; sUser; sString];
     g_adjacencies := [[sMe]; [sName; sFriend]; []];
     g_rootVertices := [(query, sQuery)];
     g_sources := [("supergraph", schema)] |}.

(** The supergraph with the field [User.email] added. *)
Definition supergraphWithEmail : Graph :=
  {| g_vertices := [sQuery; sUser; sString];
     g_adjacencies := [[sMe]; [sName; sEmail; sFriend]; []];
     g_rootVertices := [(query, sQuery)];
     g_sources := [("supergraph", schema)] |}.

(** The federated graph of the subgraphs. *)
Definition fRoot : Vertex := vertex 0 tFedQuery "federated" (Some query).
Definition aQuery : Vertex := vertex 1 tQuery "S1" None.
Definition aUser : Vertex := vertex 2 tUser "S1" None.
Definition aString : Vertex := vertex 3 tString "S1" None.

Definition aEnter : Edge := edge fRoot aQuery FreeTransition.
Definition aMe : Edge := edge aQuery aUser (FieldCollection fMe).
Definition aName : Edge := edge aUser aString (FieldCollection fName).
Definition aFriend : Edge := edge aUser aUser (FieldCollection fFriend).

Definition subgraphs : Graph :=
  {| g_vertices := [fRoot; aQuery; aUser; aString];
     g_adjacencies := [[aEnter]; [aMe]; [aName; aFriend]; []];
     g_rootVertices := [(query, fRoot)];
     g_sources := [("S1", {| schema_name := "S1" |})] |}.

(** A federated graph whose root leads to a type of another name. *)
Definition subgraphsRenamed : Graph :=
  {| g_vertices := [fRoot; aUser];
     g_adjacencies := [[edge fRoot aUser FreeTransition]; []];
     g_rootVertices := [(query, fRoot)];
     g_sources := [("S1", {| schema_name := "S1" |})] |}.

(** A federated graph without any root. *)
Definition subgraphsRootless : Graph :=
  {| g_vertices := [aQuery];
     g_adjacencies := [[]];
     g_rootVertices := [];
     g_sources := [] |}.

Definition federatedGraphRootTypeName (kind : SchemaRootKind) : string :=
  "[" ++ rootKindName kind ++ "]".

(** Two transitions of the same kind towards the same field or type. *)
Definition sameTransition (t t' : Transition) : bool :=
  match t, t' with
  | FieldCollection d, FieldCollection d' => String.eqb (fd_name d) (fd_name d')
  | DownCast _ c, DownCast _ c' => String.eqb (t_name c) (t_name c')
  | KeyResolution, KeyResolution => true
  | FreeTransition, FreeTransition => true
  | _, _ => false
  end.

(** Whether an edge may be taken: an edge with conditions asks the
    resolver. *)
Definition edgeAllowed (resolver : ConditionResolver) (e : Edge) : option bool :=
  match e_conditions e with
  | None => Some true
  | Some conditions =>
      match resolver conditions (e_head e) [] with
      | None => None
      | Some Undefined => Some true
      | Some Null => Some false
      end
  end.

Fixpoint keepAllowed (resolver : ConditionResolver) (edges : list Edge)
  : option (list Edge) :=
  match edges with
  | [] => Some []
  | e :: edges' =>
      match edgeAllowed resolver e, keepAllowed resolver edges' with
      | Some b, Some kept => Some (if b then e :: kept else kept)
      | _, _ => None
      end
  end.

Definition towards (t : Transition) (targetType : NamedType) (e : Edge) : bool :=
  sameTransition t (e_transition e)
  && String.eqb (t_name (v_type (e_tail e))) (t_name targetType).

(** A path-advancing function that takes one matching edge of the tail
    vertex. *)
Definition advancePathWithTransition (path : RootPath Transition) (t : Transition)
           (targetType : NamedType) (resolver : ConditionResolver)
  : option (list (RootPath Transition)) :=
  option_map (map (fun e => pathAdd path t e))
             (keepAllowed resolver (filter (towards t targetType) (nextEdges path))).

Definition elementMatches (element : OperationElement) (e : Edge) : bool :=
  match element, e_transition e with
  | FieldElement f, FieldCollection d => String.eqb (fd_name (f_definition f)) (fd_name d)
  | FragmentElt f, DownCast _ c => String.eqb (fe_typeCondition f) (t_name c)
  | _, _ => false
  end.

(** A simultaneous-path-advancing function: every path of the set takes
    the first allowed edge for the element, or the set is dropped. *)
Fixpoint advanceEach (element : OperationElement) (resolver : ConditionResolver)
         (paths : list OpGraphPath) : option (option (list OpGraphPath)) :=
  match paths with
  | [] => Some (Some [])
  | p :: paths' =>
      match keepAllowed resolver (filter (elementMatches element) (nextEdges p)),
            advanceEach element resolver paths' with
      | Some (e :: _), Some (Some rest) => Some (Some (pathAdd p element e :: rest))
      | Some _, Some _ => Some None
      | _, _ => None
      end
  end.

Definition advanceSimultaneousPathsWithOperation (supergraphSchema : option Schema)
           (paths : list OpGraphPath) (element : OperationElement)
           (resolver : ConditionResolver) (excludedEdges : ExcludedEdges)
  : option (list (list OpGraphPath)) :=
  match advanceEach element resolver paths with
  | None => None
  | Some None => Some []
  | Some (Some advanced) => Some [advanced]
  end.

(** The path [Query -me-> User -email-> String] of the second supergraph. *)
Definition emailPath : RootPath Transition :=
  pathAdd (pathAdd (pathCreate supergraphWithEmail sQuery) (FieldCollection fMe) sMe)
          (FieldCollection fEmail) sEmail.

(** The path [Query -me-> User] of the second supergraph. *)
Definition mePath : RootPath Transition :=
  pathAdd (pathCreate supergraphWithEmail sQuery) (FieldCollection fMe) sMe.

(** The subgraph path [[query] -> Query -me-> User]. *)
Definition userCandidate : RootPath Transition :=
  pathAdd (pathAdd (pathCreate subgraphs fRoot) FreeTransition aEnter)
          (FieldCollection fMe) aMe.

(** The subgraph path [[query] -> Query]. *)
Definition queryCandidate : RootPath Transition :=
  pathAdd (pathCreate subgraphs fRoot) FreeTransition aEnter.

(** The witness operation [{ me(id: "<any id>") { email } }]. *)
Definition emailWitness : Operation :=
  {| op_rootKind := Some query;
     op_selectionSet :=
       Some (MkSelectionSet tQuery
               [FieldSelection
                  {| f_definition := fMe;
                     f_args := [("id", JString "<any id>")];
                     f_variableDefinitions := [] |}
                  (Some (MkSelectionSet tUser
                           [FieldSelection
                              {| f_definition := fEmail;
                                 f_args := [];
                                 f_variableDefinitions := [] |}
                              None]))]);
     op_variableDefinitions := [] |}.

(** The error of validating the second supergraph. *)
Definition emailError : ValidationError :=
  {| ve_message := "TODO";
     supergraphUnsatisfiablePath := emailPath;
     subgraphsPaths := [userCandidate];
     witness := emailWitness |}.

(** The states of the traversal at [Query] and at [User]. *)
Definition queryState : ValidationState :=
  {| supergraphPath := pathCreate supergraphWithEmail sQuery;
     subgraphPaths := [queryCandidate] |}.

Definition userState : ValidationState :=
  {| supergraphPath := mePath; subgraphPaths := [userCandidate] |}.

(** A supergraph edge that carries conditions. *)
Definition conditionedEdge : Edge :=
  {| e_head := sUser; e_tail := sString; e_transition := FieldCollection fName;
     e_conditions := Some (MkSelectionSet tUser []) |}.

End Example.

(** ** Predicates of the statements *)

(** The standing invariant of a [ValidationState]: the type name of the
    tail of every subgraph path is that of the tail of the supergraph path. *)
Definition stateInvariant (state : ValidationState) : Prop :=
  Forall (fun p => t_name (v_type (pathTail p))
                   = t_name (v_type (pathTail (supergraphPath state))))
         (subgraphPaths state).

(** The paths advance towards the target type of a supergraph edge. *)
Definition towardsTarget (edge : Edge) (paths : list (RootPath Transition)) : Prop :=
  Forall (fun p => t_name (v_type (pathTail p)) = t_name (v_type (e_tail edge))) paths.

(** The [ValidationError] of [validationError], once the witness is built. *)
Definition unsatisfiable (path : RootPath Transition) (candidates : list (RootPath Transition))
           (w : Operation) : ValidationError :=
  {| ve_message := "TODO";
     supergraphUnsatisfiablePath := path;
     subgraphsPaths := candidates;
     witness := w |}.

(** No edge of the graph carries conditions. *)
Definition unconditioned (g : Graph) : Prop :=
  forall edges e, In edges (g_adjacencies g) -> In e edges -> e_conditions e = None.

(** The invariant, of an object: one without supergraph path has no
    subgraph path either. *)
Definition objectInvariant (o : StateObject) : Prop :=
  match o with
  | Built state => stateInvariant state
  | Pathless => True
  end.

(** The state [initial] builds once its assertions hold. *)
Definition initialState (supergraph subgraphs : Graph) (sroot root : Vertex)
  : ValidationState :=
  {| supergraphPath := pathCreate supergraph sroot;
     subgraphPaths :=
       map (fun e => pathAdd (pathCreate subgraphs root) freeTransition e)
           (outEdges subgraphs root) |}.

(** ** Runs of the two loops *)

Section Runs.
Variable advance :
  RootPath Transition -> Transition -> NamedType -> ConditionResolver ->
  option (list (RootPath Transition)).
Variable advanceSim :
  option Schema -> list OpGraphPath -> OperationElement -> ConditionResolver ->
  ExcludedEdges -> option (list (list OpGraphPath)).

(** [Reaches fuel schema stack stack']: the loop of [validate], started
    on [stack], has [stack'] as its stack after some iterations, none of
    which threw. *)
Inductive Reaches (fuel : nat) (schema : option Schema)
  : list StateObject -> list StateObject -> Prop :=
| Reaches_here : forall stack, Reaches fuel schema stack stack
| Reaches_step : forall state stack stack' stack'',
    handleState advance advanceSim fuel schema state stack = Some (Ok stack') ->
    Reaches fuel schema stack' stack'' ->
    Reaches fuel schema (state :: stack) stack''.

(** [FirstFailure fuel schema state edge x]: in [handleState] on [state],
    the transitions before [edge] return a state and the one on [edge]
    throws [x]. *)
Definition FirstFailure (fuel : nat) (schema : option Schema)
           (state : ValidationState) (edge : Edge) (x : Exn) : Prop :=
  exists before after,
    nextEdges (supergraphPath state) = before ++ edge :: after
    /\ (forall e, In e before ->
          exists s, validateTransition advance advanceSim fuel state schema e
                    = Some (Ok s))
    /\ validateTransition advance advanceSim fuel state schema edge = Some (Throw x).
End Runs.

(** ** Runs of the condition validator *)

(** The selections directly under a selection. *)
Definition subSelections (s : Selection) : list Selection :=
  match sel_selectionSet s with
  | Some ss => selections ss
  | None => []
  end.

(** The number of selections in a selection, itself included. *)
Fixpoint selectionSize (s : Selection) : nat :=
  match s with
  | FieldSelection _ sub | FragmentSelection _ sub =>
      S match sub with
        | Some ss => selectionSetSize ss
        | None => 0
        end
  end
with selectionSetSize (ss : SelectionSet) : nat :=
  match ss with
  | MkSelectionSet _ sels =>
      (fix sum (l : list Selection) : nat :=
         match l with
         | [] => 0
         | s :: l' => selectionSize s + sum l'
         end) sels
  end.

(** The number of selections that remain to be validated on a stack. *)
Definition stackWeight (stack : list ConditionValidationState) : nat :=
  list_sum (map (fun state => selectionSize (cvs_selection state)) stack).

Section ConditionRuns.
Variable advanceSim :
  option Schema -> list OpGraphPath -> OperationElement -> ConditionResolver ->
  ExcludedEdges -> option (list (list OpGraphPath)).
Variable validateConditionsRec :
  option Schema -> SelectionSet -> OpGraphPath -> ExcludedEdges -> option CondResult.
Variable schema : option Schema.
Variable excludedEdges : ExcludedEdges.

(** [Popped stack state]: the loop of [validateConditions], started on
    [stack], pops [state], no earlier selection having failed. *)
Inductive Popped : list ConditionValidationState -> ConditionValidationState -> Prop :=
| Popped_top : forall state stack, Popped (state :: stack) state
| Popped_later : forall state stack newStates state',
    validateCurrentSelection advanceSim validateConditionsRec state schema excludedEdges
    = Some (SelectedStates newStates) ->
    Popped (pushAll newStates stack) state' ->
    Popped (state :: stack) state'.
End ConditionRuns.

Module ExampleConditions.
Import Example.

Definition fieldOf (d : FieldDefinition) : Field :=
  {| f_definition := d; f_args := []; f_variableDefinitions := [] |}.

(** The conditions [{ friend { name } }] and [{ friend { email } }] on
    [User]. *)
Definition friendName : SelectionSet :=
  MkSelectionSet tUser
    [FieldSelection (fieldOf fFriend)
       (Some (MkSelectionSet tUser [FieldSelection (fieldOf fName) None]))].

Definition friendEmail : SelectionSet :=
  MkSelectionSet tUser
    [FieldSelection (fieldOf fFriend)
       (Some (MkSelectionSet tUser [FieldSelection (fieldOf fEmail) None]))].

(** The path the conditions are validated from: [User] in [S1]. *)
Definition fromUser : OpGraphPath := pathCreate subgraphs aUser.
End ExampleConditions.

(** ** The contract of the path-advancing functions *)

(** [q] extends [p] by at least one edge, none of them free, in the same
    graph and from the same root. *)
Definition Extends (p q : RootPath Transition) : Prop :=
  p_graph q = p_graph p
  /\ p_root q = p_root p
  /\ exists more,
       more <> []
       /\ Forall (fun s => isFreeEdge (fst s) = false) more
       /\ p_steps q = p_steps p ++ more.

(** The edges of a graph, and the conditions they carry. *)
Definition graphEdges (g : Graph) : list Edge := List.concat (g_adjacencies g).

Definition graphConditions (g : Graph) : list SelectionSet :=
  flat_map (fun e => match e_conditions e with
                     | Some conditions => [conditions]
                     | None => []
                     end)
           (graphEdges g).

(** No edge of the graph is a free transition. *)
Definition noFreeEdge (g : Graph) : Prop :=
  Forall (fun e => isFreeEdge e = false) (graphEdges g).

(** The largest number of selections in the conditions of an edge of the
    graph. *)
Definition conditionsBound (g : Graph) : nat :=
  list_max (map selectionSetSize (graphConditions g)).

(** A set of simultaneous paths of the condition validator over the graph
    [g]: it is not empty and its paths are paths of [g]. *)
Definition PathSetOf (g : Graph) (paths : list OpGraphPath) : Prop :=
  paths <> [] /\ Forall (fun p => p_graph p = g) paths.

(** The sets of paths of a state of the condition validator are sets of
    paths of the graph [g]. *)
Definition OverGraph (g : Graph) (state : ConditionValidationState) : Prop :=
  Forall (PathSetOf g) (cvs_subgraphPaths state).

Section Contract.
Variable advance :
  RootPath Transition -> Transition -> NamedType -> ConditionResolver ->
  option (list (RootPath Transition)).
Variable advanceSim :
  option Schema -> list OpGraphPath -> OperationElement -> ConditionResolver ->
  ExcludedEdges -> option (list (list OpGraphPath)).

(** [rank excluded]: a measure of what the excluded edges leave to
    explore, such as the number of edges of the graph that are not
    excluded. *)
Variable rank : ExcludedEdges -> nat.

(** Advancing a path of the graph [subgraphs] along a transition that is
    not free yields extensions of that path, by edges that are not free,
    that end on a vertex of the graph. *)
Definition AdvanceExtends (subgraphs : Graph) : Prop :=
  forall p t targetType resolver qs q,
    p_graph p = subgraphs ->
    t <> FreeTransition ->
    advance p t targetType resolver = Some qs ->
    In q qs ->
    Extends p q /\ v_index (pathTail q) < List.length (g_vertices subgraphs).

(** Advancing a path of the graph [subgraphs] completes when the resolver
    it is handed answers on the conditions of the edges of the graph. *)
Definition AdvanceAnswers (subgraphs : Graph) : Prop :=
  forall p t targetType resolver,
    p_graph p = subgraphs ->
    (forall conditions vertex excluded,
        In conditions (graphConditions subgraphs) ->
        resolver conditions vertex excluded <> None) ->
    advance p t targetType resolver <> None.

(** Advancing a set of paths of the graph [subgraphs] with an operation
    element completes when the resolver answers on the conditions of the
    edges of the graph under excluded edges of lower rank: the resolver is
    called with more edges excluded only. *)
Definition AdvanceSimAnswers (subgraphs : Graph) : Prop :=
  forall schema paths element resolver excluded,
    PathSetOf subgraphs paths ->
    (forall conditions vertex excluded',
        In conditions (graphConditions subgraphs) ->
        rank excluded' < rank excluded ->
        resolver conditions vertex excluded' <> None) ->
    advanceSim schema paths element resolver excluded <> None.

(** Advancing a set of paths of the graph [subgraphs] yields sets of paths
    of that graph. *)
Definition AdvanceSimKeeps (subgraphs : Graph) : Prop :=
  forall schema paths element resolver excluded newPaths paths',
    PathSetOf subgraphs paths ->
    advanceSim schema paths element resolver excluded = Some newPaths ->
    In paths' newPaths ->
    PathSetOf subgraphs paths'.
End Contract.

(** [Marked bound p l]: [l] lists, without repetition, indices below
    [bound] of vertices the path [p] has visited since its last reset. *)
Definition Marked (bound : nat) (p : RootPath Transition) (l : list nat) : Prop :=
  NoDup l
  /\ incl l (map v_index (sinceReset p))
  /\ Forall (fun i => i < bound) l.

(** [Ranked subgraphs n state]: every subgraph path of the state is a path
    of [subgraphs] on which all but at most [n] of the vertices of the graph
    are marked. *)
Definition Ranked (subgraphs : Graph) (n : nat) (state : ValidationState) : Prop :=
  Forall (fun p =>
            p_graph p = subgraphs
            /\ exists l, Marked (List.length (g_vertices subgraphs)) p l
                         /\ List.length (g_vertices subgraphs) <= List.length l + n)
         (subgraphPaths state).

(** What the termination argument keeps of an object on the stack: a state
    over a path of the supergraph, ranked by [n]. *)
Definition RankedObject (supergraph subgraphs : Graph) (n : nat) (o : StateObject)
  : Prop :=
  match o with
  | Built state =>
      p_graph (supergraphPath state) = supergraph /\ Ranked subgraphs n state
  | Pathless => True
  end.

(** * Definitions for the further properties *)

(** Whether [null] occurs in a value, at any depth. *)
Fixpoint containsNull (v : JsValue) : bool :=
  match v with
  | JNull => true
  | JArray items =>
      (fix any (l : list JsValue) : bool :=
         match l with
         | [] => false
         | x :: l' => containsNull x || any l'
         end) items
  | JObject props =>
      (fix any (l : list (string * JsValue)) : bool :=
         match l with
         | [] => false
         | (_, x) :: l' => containsNull x || any l'
         end) props
  | _ => false
  end.

(** The fields of an input object the value generator does not skip: the
    default value is absent or falsy and the type is a non-null wrapper. *)
Definition keptField (f : InputFieldDefinition) : bool :=
  negb (truthyOpt (if_defaultValue f) || isNullableType (if_type f)).

Definition keptFields (fields : list InputFieldDefinition) : list InputFieldDefinition :=
  filter keptField fields.

(** A kept field and the property the generated object holds for it. *)
Definition propertyFor (f : InputFieldDefinition) (kv : string * JsValue) : Prop :=
  fst kv = if_name f /\ generateWitnessValue (if_type f) = Ok (snd kv).

(** No enum type without values lies on the way of the value generator:
    below non-null wrappers and kept fields, not below lists or skipped
    fields. *)
Fixpoint witnessable (type : InputType) : bool :=
  match type with
  | ScalarType _ => true
  | EnumType _ values => match values with [] => false | _ => true end
  | InputObjectType _ fields =>
      (fix all (fs : list InputFieldDefinition) : bool :=
         match fs with
         | [] => true
         | MkInputField _ ftype defaultValue :: fs' =>
             (truthyOpt defaultValue || isNullableType ftype || witnessable ftype)
             && all fs'
         end) fields
  | ListType _ => true
  | NonNullType ofType => witnessable ofType
  end.

(** The edges that contribute syntax to a witness: field collections and
    downcasts. *)
Definition isSyntaxEdge (e : Edge) : bool :=
  match e_transition e with
  | FieldCollection _ | DownCast _ _ => true
  | KeyResolution | FreeTransition => false
  end.

(** Down the first selection of each selection set: the parent type of the
    set and the number of selections it holds. *)
Fixpoint spine (ss : SelectionSet) : list (NamedType * nat) :=
  match ss with
  | MkSelectionSet t sels =>
      (t, List.length sels)
      :: match sels with
         | s :: _ => spineOf s
         | [] => []
         end
  end
with spineOf (s : Selection) : list (NamedType * nat) :=
  match s with
  | FieldSelection _ sub | FragmentSelection _ sub =>
      match sub with
      | Some ss => spine ss
      | None => []
      end
  end.

Definition spineOpt (ss : option SelectionSet) : list (NamedType * nat) :=
  match ss with
  | Some ss => spine ss
  | None => []
  end.

(** The arguments of a field, and of the fields collected along a list of
    edges, can be given a value. *)
Definition fieldWitnessable (definition : FieldDefinition) : bool :=
  forallb (fun a => witnessable (arg_type a)) (fd_arguments definition).

Definition edgeWitnessable (e : Edge) : bool :=
  match e_transition e with
  | FieldCollection definition => fieldWitnessable definition
  | _ => true
  end.

Module ExampleWitness.
Import Example.

(** The path [Query -me-> User -key-> User -email-> String]. *)
Definition emailPathViaKey : RootPath Transition :=
  pathAdd (pathAdd mePath KeyResolution (edge sUser sUser KeyResolution))
          (FieldCollection fEmail) sEmail.

(** A field with an argument of an enum type without values. *)
Definition fBroken : FieldDefinition :=
  {| fd_name := "broken";
     fd_arguments := [ {| arg_name := "e"; arg_type := NonNullType (EnumType "E" []) |} ] |}.

Definition brokenPath : RootPath Transition :=
  pathAdd mePath (FieldCollection fBroken) (edge sUser sString (FieldCollection fBroken)).

(** A supergraph that registers no root, and a federated graph whose root
    has no out-edge. *)
Definition supergraphUnrooted : Graph :=
  {| g_vertices := [sQuery];
     g_adjacencies := [[]];
     g_rootVertices := [];
     g_sources := [] |}.

Definition subgraphsBare : Graph :=
  {| g_vertices := [fRoot];
     g_adjacencies := [[]];
     g_rootVertices := [(query, fRoot)];
     g_sources := [] |}.

Definition unrootedPath : RootPath Transition := pathCreate supergraphUnrooted sQuery.
End ExampleWitness.

(** The test of [handleState] before it pushes a successor. *)
Definition keepSuccessor (s : ValidationState) : bool :=
  negb (isTerminal (supergraphPath s)) && negb (hasCycled s).

(** Every root vertex carries the root kind it is registered under. *)
Definition rootsLabelled (g : Graph) : Prop :=
  forall k v, In (k, v) (g_rootVertices g) -> v_rootKind v = Some k.

(** [walkFrom g v steps]: from [v] on, every step takes an out-edge of the
    vertex reached so far, under the transition of that edge. *)
Fixpoint walkFrom (g : Graph) (v : Vertex) (steps : list (Edge * Transition)) : Prop :=
  match steps with
  | [] => True
  | (e, t) :: steps' =>
      In e (outEdges g v) /\ t = e_transition e /\ walkFrom g (e_tail e) steps'
  end.

Section Exploration.
Variable advance :
  RootPath Transition -> Transition -> NamedType -> ConditionResolver ->
  option (list (RootPath Transition)).
Variable advanceSim :
  option Schema -> list OpGraphPath -> OperationElement -> ConditionResolver ->
  ExcludedEdges -> option (list (list OpGraphPath)).
Variable fuel : nat.
Variable schema : option Schema.

(** [Explored init state]: [state] comes from [init] by transitions along
    out-edges of the supergraph path, each of which returned a state. *)
Inductive Explored (init : ValidationState) : ValidationState -> Prop :=
| Explored_init : Explored init init
| Explored_step : forall state e state',
    Explored init state ->
    In e (nextEdges (supergraphPath state)) ->
    validateTransition advance advanceSim fuel state schema e = Some (Ok state') ->
    Explored init state'.
End Exploration.

(** ** Path-advancing functions that exclude edges

    Stand-ins for the two path-advancing functions, used to run the
    definitions on graphs whose edges carry conditions. An edge is
    identified by the index of the vertex it leaves and its position among
    the out-edges of that vertex. An edge with conditions is taken when the
    resolver, asked with that edge added to the excluded ones, finds the
    conditions satisfied; an excluded edge with conditions is not taken. *)
Module Excluding.

Definition sameEdge (a b : nat * nat) : bool :=
  (fst a =? fst b) && (snd a =? snd b).

Definition isExcluded (excluded : ExcludedEdges) (id : nat * nat) : bool :=
  existsb (sameEdge id) excluded.

(** The out-edges of the tail of a path, each with its position. *)
Definition numbered {T : Type} (p : GraphPath T) : list (nat * Edge) :=
  combine (seq 0 (List.length (nextEdges p))) (nextEdges p).

Definition edgeAllowed (resolver : ConditionResolver) (excluded : ExcludedEdges)
           (v : Vertex) (ne : nat * Edge) : option bool :=
  match e_conditions (snd ne) with
  | None => Some true
  | Some conditions =>
      let id := (v_index v, fst ne) in
      if isExcluded excluded id then Some false
      else
        match resolver conditions v (id :: excluded) with
        | None => None
        | Some Undefined => Some true
        | Some Null => Some false
        end
  end.

Fixpoint keepAllowed (resolver : ConditionResolver) (excluded : ExcludedEdges)
         (v : Vertex) (edges : list (nat * Edge)) : option (list Edge) :=
  match edges with
  | [] => Some []
  | ne :: edges' =>
      match edgeAllowed resolver excluded v ne,
            keepAllowed resolver excluded v edges' with
      | Some b, Some kept => Some (if b then snd ne :: kept else kept)
      | _, _ => None
      end
  end.

(** A path-advancing function that takes one matching edge of the tail
    vertex. *)
Definition advancePathWithTransition (path : RootPath Transition) (t : Transition)
           (targetType : NamedType) (resolver : ConditionResolver)
  : option (list (RootPath Transition)) :=
  option_map (map (fun e => pathAdd path t e))
             (keepAllowed resolver [] (pathTail path)
                          (filter (fun ne => Example.towards t targetType (snd ne))
                                  (numbered path))).

(** A simultaneous-path-advancing function: every path of the set takes
    the first allowed edge for the element, or the set is dropped. *)
Fixpoint advanceEach (element : OperationElement) (resolver : ConditionResolver)
         (excluded : ExcludedEdges) (paths : list OpGraphPath)
  : option (option (list OpGraphPath)) :=
  match paths with
  | [] => Some (Some [])
  | p :: paths' =>
      match keepAllowed resolver excluded (pathTail p)
                        (filter (fun ne => Example.elementMatches element (snd ne))
                                (numbered p)),
            advanceEach element resolver excluded paths' with
      | Some (e :: _), Some (Some rest) => Some (Some (pathAdd p element e :: rest))
      | Some _, Some _ => Some None
      | _, _ => None
      end
  end.

Definition advanceSimultaneousPathsWithOperation (supergraphSchema : option Schema)
           (paths : list OpGraphPath) (element : OperationElement)
           (resolver : ConditionResolver) (excludedEdges : ExcludedEdges)
  : option (list (list OpGraphPath)) :=
  match advanceEach element resolver excludedEdges paths with
  | None => None
  | Some None => Some []
  | Some (Some advanced) => Some [advanced]
  end.

(** The edges of a graph, as the pairs that identify them. *)
Definition edgeIds (g : Graph) : list (nat * nat) :=
  flat_map (fun i => map (fun pos => (i, pos))
                         (seq 0 (List.length (nth i (g_adjacencies g) []))))
           (seq 0 (List.length (g_adjacencies g))).

(** The number of edges of the graph that are not excluded. *)
Definition rank (g : Graph) (excluded : ExcludedEdges) : nat :=
  List.length (filter (fun id => negb (isExcluded excluded id)) (edgeIds g)).

(** Every edge of the graph leads to a vertex of the graph. *)
Definition tailsInGraph (g : Graph) : bool :=
  forallb (forallb (fun e => v_index (e_tail e) <? List.length (g_vertices g)))
          (g_adjacencies g).
End Excluding.

(** The subgraph of the example federation with conditions on
    [User.friend]: the field [name] in the first graph, which the subgraph
    provides, and [friend { name }] in the second, which asks for the edge
    itself. *)
Module Conditioned.
Import Example.

Definition requiresName : SelectionSet :=
  MkSelectionSet tUser [FieldSelection (ExampleConditions.fieldOf fName) None].

Definition aFriendIf (conditions : SelectionSet) : Edge :=
  {| e_head := aUser; e_tail := aUser; e_transition := FieldCollection fFriend;
     e_conditions := Some conditions |}.

Definition subgraphsIf (conditions : SelectionSet) : Graph :=
  {| g_vertices := [fRoot; aQuery; aUser; aString];
     g_adjacencies := [[aEnter]; [aMe]; [aName; aFriendIf conditions]; []];
     g_rootVertices := [(query, fRoot)];
     g_sources := [("S1", {| schema_name := "S1" |})] |}.

Definition subgraphs : Graph := subgraphsIf requiresName.
Definition subgraphsSelf : Graph := subgraphsIf ExampleConditions.friendName.
End Conditioned.

(** Two graphs with a free edge from [Query] to itself. *)
Module FreeLoop.
Import Example.

Definition sLoop : Edge := edge sQuery sQuery FreeTransition.
Definition aLoop : Edge := edge aQuery aQuery FreeTransition.

Definition supergraph : Graph :=
  {| g_vertices := [sQuery];
     g_adjacencies := [[sLoop]];
     g_rootVertices := [(query, sQuery)];
     g_sources := [("supergraph", schema)] |}.

Definition subgraphs : Graph :=
  {| g_vertices := [fRoot; aQuery];
     g_adjacencies := [[aEnter]; [aLoop]];
     g_rootVertices := [(query, fRoot)];
     g_sources := [("S1", {| schema_name := "S1" |})] |}.

(** The paths after [k] turns of the loop, and the state over them. *)
Fixpoint turns {T : Type} (p : GraphPath T) (t : T) (e : Edge) (k : nat) : GraphPath T :=
  match k with
  | 0 => p
  | S k' => pathAdd (turns p t e k') t e
  end.

Definition stateAfter (k : nat) : ValidationState :=
  {| supergraphPath := turns (pathCreate supergraph sQuery) FreeTransition sLoop k;
     subgraphPaths :=
       [turns (pathAdd (pathCreate subgraphs fRoot) freeTransition aEnter)
              FreeTransition aLoop k] |}.
End FreeLoop.

(** * Properties of the witness builder *)

Lemma bindRes_Ok_inv {A B : Type} (c : Res A) (k : A -> Res B) (b : B) :
  bindRes c k = Ok b -> exists a, c = Ok a /\ k a = Ok b.
Proof.
  destruct c as [a|e]; simpl; intros H; [exists a; auto | discriminate].
Qed.

Lemma generateWitnessValue_input_object (name : string) (fields : list InputFieldDefinition) :
  generateWitnessValue (InputObjectType name fields) = witnessFields fields [].
Proof.
  simpl. generalize (@nil (string * JsValue)).
  induction fields as [|[n t d] fs IH]; intros obj; [reflexivity|].
  simpl. destruct (truthyOpt d || isNullableType t); [apply IH|].
  destruct (generateWitnessValue t); simpl; [apply IH | reflexivity].
Qed.

Lemma getProp_setProp_same (k : string) (v : JsValue) (obj : JsObject) :
  getProp k (setProp k v obj) = Some v.
Proof.
  induction obj as [|[k' v'] obj IH]; simpl.
  - now rewrite String.eqb_refl.
  - destruct (String.eqb k k') eqn:E; simpl; rewrite ?E, ?String.eqb_refl; auto.
Qed.

Lemma getProp_setProp_other (k k' : string) (v : JsValue) (obj : JsObject) :
  k' <> k -> getProp k' (setProp k v obj) = getProp k' obj.
Proof.
  intros Hne. induction obj as [|[k0 v0] obj IH]; simpl.
  - destruct (String.eqb k' k) eqn:E; [apply String.eqb_eq in E; contradiction | reflexivity].
  - destruct (String.eqb k k0) eqn:E; simpl.
    + apply String.eqb_eq in E; subst k0.
      destruct (String.eqb k' k) eqn:E'; [apply String.eqb_eq in E'; contradiction | reflexivity].
    + destruct (String.eqb k' k0); auto.
Qed.

Lemma keys_setProp (k : string) (v : JsValue) (obj : JsObject) :
  (In k (keys obj) /\ keys (setProp k v obj) = keys obj)
  \/ (~ In k (keys obj) /\ setProp k v obj = obj ++ [(k, v)]).
Proof.
  unfold keys.
  induction obj as [|[k' v'] obj IH]; simpl.
  - right; split; auto.
  - destruct (String.eqb k k') eqn:E.
    + apply String.eqb_eq in E; subst k'. left; split; auto.
    + apply String.eqb_neq in E.
      destruct IH as [[Hin Hk]|[Hnin Hs]].
      * left; split; [right; exact Hin | simpl; now rewrite Hk].
      * right; split; [intros [Heq|Hin]; [congruence | contradiction] | now rewrite Hs].
Qed.

Lemma keys_app (a b : JsObject) : keys (a ++ b) = keys a ++ keys b.
Proof. apply map_app. Qed.

Lemma keys_setProp_NoDup (k : string) (v : JsValue) (obj : JsObject) :
  NoDup (keys obj) -> NoDup (keys (setProp k v obj)).
Proof.
  intros Hnd. destruct (keys_setProp k v obj) as [[_ Hk]|[Hnin Hs]].
  - now rewrite Hk.
  - rewrite Hs, keys_app. simpl.
    apply NoDup_app; [exact Hnd | repeat constructor; auto | ].
    intros x Hx [Heq|[]]. subst x. contradiction.
Qed.

Lemma keys_setProp_incl (k : string) (v : JsValue) (obj : JsObject) (x : string) :
  In x (keys (setProp k v obj)) -> x = k \/ In x (keys obj).
Proof.
  destruct (keys_setProp k v obj) as [[_ Hk]|[_ Hs]].
  - rewrite Hk; auto.
  - rewrite Hs, keys_app, in_app_iff. simpl. intuition.
Qed.

Lemma keys_setProp_mono (k : string) (v : JsValue) (obj : JsObject) (x : string) :
  x = k \/ In x (keys obj) -> In x (keys (setProp k v obj)).
Proof.
  destruct (keys_setProp k v obj) as [[Hin Hk]|[_ Hs]].
  - rewrite Hk. intros [->|]; auto.
  - rewrite Hs, keys_app, in_app_iff. simpl. intuition.
Qed.

Lemma getProp_Some_of_key (k : string) (obj : JsObject) :
  In k (keys obj) -> exists v, getProp k obj = Some v.
Proof.
  unfold keys.
  induction obj as [|[k' v'] obj IH]; simpl; [intros []|].
  intros [Heq|Hin].
  - subst k'. rewrite String.eqb_refl. eauto.
  - destruct (String.eqb k k'); eauto.
Qed.

(** What the argument loop of [buildWitnessField] establishes. *)
Lemma witnessArguments_entries (argDefs : list ArgumentDefinition) :
  forall (args args' : JsObject),
    witnessArguments argDefs args = Ok args' ->
    (forall k, In k (keys args) -> In k (keys args'))
    /\ (forall a, In a argDefs -> In (arg_name a) (keys args'))
    /\ (forall k, In k (keys args') -> In k (keys args) \/ In k (map arg_name argDefs))
    /\ (NoDup (keys args) -> NoDup (keys args'))
    /\ (NoDup (keys args ++ map arg_name argDefs) ->
        exists entries, args' = args ++ entries /\ Forall2 entryFor argDefs entries).
Proof.
  induction argDefs as [|a ds IH]; intros args args' H; simpl in H.
  - injection H as <-. repeat split; auto.
    + intros _ [].
    + intros _. exists []. split; [now rewrite app_nil_r | constructor].
  - apply bindRes_Ok_inv in H. destruct H as (v & Hv & H).
    destruct (IH _ _ H) as (Hmono & Hall & Hincl & Hnd & Hexact). clear IH.
    repeat split.
    + intros k Hin. apply Hmono, keys_setProp_mono. auto.
    + intros b [<-|Hb]; [apply Hmono, keys_setProp_mono|]; auto.
    + intros k Hin. destruct (Hincl k Hin) as [Hin'|Hin']; [|simpl; auto].
      destruct (keys_setProp_incl _ _ _ _ Hin') as [->|]; simpl; auto.
    + intros Hn. apply Hnd. now apply keys_setProp_NoDup.
    + intros Hn. simpl in Hn.
      assert (Hnin : ~ In (arg_name a) (keys args)).
      { apply NoDup_remove_2 in Hn. intros Hin. apply Hn. apply in_or_app. auto. }
      destruct (keys_setProp (arg_name a) v args) as [[Hin _]|[_ Hs]]; [contradiction|].
      rewrite Hs in Hexact. rewrite keys_app, <- app_assoc in Hexact. simpl in Hexact.
      destruct (Hexact Hn) as (entries & -> & HF).
      exists ((arg_name a, v) :: entries). split.
      * rewrite <- app_assoc. reflexivity.
      * constructor; [split; auto | exact HF].
Qed.

Lemma buildWitnessField_entries (definition : FieldDefinition) (f : Field) :
  buildWitnessField definition = Ok f ->
  f_definition f = definition
  /\ (forall a, In a (fd_arguments definition) ->
                exists v, getProp (arg_name a) (f_args f) = Some v)
  /\ (forall k, In k (keys (f_args f)) -> In k (map arg_name (fd_arguments definition)))
  /\ NoDup (keys (f_args f))
  /\ (NoDup (map arg_name (fd_arguments definition)) ->
      Forall2 entryFor (fd_arguments definition) (f_args f)).
Proof.
  unfold buildWitnessField. intros H.
  apply bindRes_Ok_inv in H. destruct H as (args & Hargs & H).
  injection H as <-. simpl.
  destruct (witnessArguments_entries _ _ Hargs) as (_ & Hall & Hincl & Hnd & Hexact).
  repeat split.
  - intros a Ha. apply getProp_Some_of_key. auto.
  - intros k Hk. destruct (Hincl k Hk) as [[]|]; auto.
  - apply Hnd. constructor.
  - intros Hn. destruct (Hexact Hn) as (entries & -> & HF). exact HF.
Qed.

(** The index form of the recursion: at an index inside the array, the
    step for [edges[index]] around the result for [index + 1]. *)
Lemma buildWitnessNextStep_edge (edges : list Edge) (index : nat) (edge : Edge) :
  nth_error edges index = Some edge ->
  buildWitnessNextStep edges index =
    (subSelection <- buildWitnessNextStep edges (S index) ;;
     match e_transition edge with
     | DownCast sourceType type =>
         Ok (Some (MkSelectionSet (v_type (e_head edge))
                     [FragmentSelection
                        {| fe_sourceType := sourceType; fe_typeCondition := t_name type |}
                        subSelection]))
     | FieldCollection definition =>
         f <- buildWitnessField definition ;;
         Ok (Some (MkSelectionSet (v_type (e_head edge)) [FieldSelection f subSelection]))
     | FreeTransition | KeyResolution => Ok subSelection
     end).
Proof.
  intros Hnth. unfold buildWitnessNextStep.
  assert (Hskip : skipn index edges = edge :: skipn (S index) edges).
  { revert index Hnth. induction edges as [|e es IH]; intros [|i] H; simpl in *;
      try discriminate.
    - now injection H as ->.
    - now apply IH. }
  rewrite Hskip. simpl.
  destruct (buildWitnessFrom edges (skipn (S index) edges)); simpl; [|reflexivity].
  destruct (e_transition edge); reflexivity.
Qed.

Lemma pathTail_last_step {T : Type} (g : Graph) (r : Vertex)
      (steps : list (Edge * T)) (s : Edge * T) :
  pathTail {| p_graph := g; p_root := r; p_steps := steps ++ [s] |} = e_tail (fst s).
Proof.
  unfold pathTail, pathVertices. cbn [p_root p_steps].
  rewrite map_app. cbn [map]. rewrite app_comm_cons. apply last_last.
Qed.

Lemma pathTail_add {T : Type} (p : GraphPath T) (t : T) (e : Edge) :
  pathTail (pathAdd p t e) = e_tail e.
Proof. unfold pathAdd. apply pathTail_last_step. Qed.

Lemma pathSize_add {T : Type} (p : GraphPath T) (t : T) (e : Edge) :
  pathSize (pathAdd p t e) = S (pathSize p).
Proof. unfold pathSize, pathAdd. cbn [p_steps]. rewrite length_app. simpl. lia. Qed.

(** The last edge of a path that has one leads to the tail of the path. *)
Lemma lastTailType_pathTail (path : RootPath Transition) :
  0 < pathSize path ->
  lastTailType (map fst (elements path)) = Ok (v_type (pathTail path)).
Proof.
  unfold pathSize, elements, lastTailType.
  destruct path as [g r steps]. cbn [p_steps].
  destruct steps as [|s steps _] using rev_ind; [simpl; lia|]. intros _.
  rewrite pathTail_last_step, map_app, rev_app_distr. reflexivity.
Qed.

(** The index form of the recursion: past the last edge. *)
Lemma buildWitnessNextStep_end (path : RootPath Transition) (index : nat) :
  0 < pathSize path ->
  pathSize path <= index ->
  buildWitnessNextStep (map fst (elements path)) index =
    Ok (if isLeafType (v_type (pathTail path)) then None
        else Some (newSelectionSet (v_type (pathTail path)))).
Proof.
  intros Hpos Hle. unfold buildWitnessNextStep.
  rewrite skipn_all2 by (rewrite length_map; exact Hle).
  simpl. now rewrite lastTailType_pathTail.
Qed.

(** A path without edges fails the assertion of [buildWitnessOperation]. *)
Lemma buildWitnessOperation_empty (path : RootPath Transition) :
  pathSize path = 0 ->
  buildWitnessOperation path = Throw (AssertionError msgEmptyPath).
Proof.
  intros H. unfold buildWitnessOperation. now rewrite H.
Qed.

(** ** The value generator *)

Lemma generateWitnessValue_scalars :
  generateWitnessValue (ScalarType "Int") = Ok (JNumber 0)
  /\ generateWitnessValue (ScalarType "Float") = Ok (JNumber (314 # 100))
  /\ generateWitnessValue (ScalarType "Boolean") = Ok (JBool true)
  /\ generateWitnessValue (ScalarType "String") = Ok (JString "A string value")
  /\ generateWitnessValue (ScalarType "ID") = Ok (JString "<any id>")
  /\ (forall name, In name ["Int"; "Float"; "Boolean"; "String"; "ID"] \/
                   generateWitnessValue (ScalarType name) = Ok (JString "<some value>")).
Proof.
  repeat split; try reflexivity.
  intros name. simpl.
  destruct (String.eqb name "Int") eqn:E1; [apply String.eqb_eq in E1; auto|].
  destruct (String.eqb name "Float") eqn:E2; [apply String.eqb_eq in E2; auto|].
  destruct (String.eqb name "Boolean") eqn:E3; [apply String.eqb_eq in E3; auto 6|].
  destruct (String.eqb name "String") eqn:E4; [apply String.eqb_eq in E4; auto 6|].
  destruct (String.eqb name "ID") eqn:E5; [apply String.eqb_eq in E5; auto 7|].
  right. reflexivity.
Qed.

Lemma generateWitnessValue_wrappers (t : InputType) (name : string)
      (v : EnumValue) (vs : list EnumValue) :
  generateWitnessValue (ListType t) = Ok (JArray [])
  /\ generateWitnessValue (NonNullType t) = generateWitnessValue t
  /\ generateWitnessValue (EnumType name (v :: vs)) = Ok (JString (ev_name v))
  /\ generateWitnessValue (EnumType name []) = Throw (TypeError undefinedProperty).
Proof. repeat split. Qed.

(** The scenario of the specification: one required [String] field and one
    nullable [Int] field. *)
Lemma generateWitnessValue_scenario :
  generateWitnessValue scenarioInput = Ok (JObject [("field", JString "A string value")]).
Proof. reflexivity. Qed.

(** The fields the loop of the [InputObjectType] case skips. *)
Lemma witnessFields_skip (name : string) (t : InputType) (d : option JsValue)
      (fs : list InputFieldDefinition) (obj : JsObject) :
  truthyOpt d = true \/ isNullableType t = true ->
  witnessFields (MkInputField name t d :: fs) obj = witnessFields fs obj.
Proof.
  intros H. simpl.
  destruct (truthyOpt d); simpl; [reflexivity|].
  destruct H as [H|H]; [discriminate | now rewrite H].
Qed.

(** The fields the loop keeps: the default value is absent or falsy and the
    type is a non-null wrapper. *)
Lemma witnessFields_keep (name : string) (t : InputType) (d : option JsValue)
      (fs : list InputFieldDefinition) (obj : JsObject) :
  truthyOpt d = false ->
  witnessFields (MkInputField name (NonNullType t) d :: fs) obj =
    (v <- generateWitnessValue t ;; witnessFields fs (setProp name v obj)).
Proof.
  intros H. simpl. rewrite H. reflexivity.
Qed.

(** C7, at the input object [input Paging { limit: Int! = 0 }]: the field
    [limit] is non-nullable and declares a default value, and the value
    generator still binds it in the object it returns, where the claim has
    the empty object. *)
Theorem generateWitnessValue_falsy_default :
  generateWitnessValue pagingInput = Ok (JObject [("limit", JNumber 0)])
  /\ generateWitnessValue pagingInput <> Ok (JObject []).
Proof.
  split; [reflexivity | discriminate].
Qed.

(** ** What the witness builder throws *)

Lemma InputType_nested_ind (P : InputType -> Prop) :
  (forall name, P (ScalarType name)) ->
  (forall name values, P (EnumType name values)) ->
  (forall name fields, Forall (fun f => P (if_type f)) fields ->
                       P (InputObjectType name fields)) ->
  (forall t, P t -> P (ListType t)) ->
  (forall t, P t -> P (NonNullType t)) ->
  forall t, P t.
Proof.
  intros Hs He Ho Hl Hn.
  fix IH 1. intros [name|name values|name fields|t|t].
  - apply Hs.
  - apply He.
  - apply Ho. induction fields as [|[n ty d] fs IHfs]; constructor.
    + simpl. apply IH.
    + exact IHfs.
  - apply Hl, IH.
  - apply Hn, IH.
Qed.

Lemma generateWitnessValue_throws (t : InputType) (x : Exn) :
  generateWitnessValue t = Throw x -> x = TypeError undefinedProperty.
Proof.
  revert x. induction t as [name|name values|name fields IH|t IH|t IH]
    using InputType_nested_ind; intros x H.
  - simpl in H. repeat match type of H with
                  | context [if ?c then _ else _] => destruct c
                  end; discriminate.
  - destruct values; simpl in H; [now injection H as <- | discriminate].
  - rewrite generateWitnessValue_input_object in H.
    revert H. generalize (@nil (string * JsValue)).
    induction IH as [|[n ty d] fs Hty _ IHfs]; intros obj H; simpl in H; [discriminate|].
    destruct (truthyOpt d || isNullableType ty); [eauto|].
    destruct (generateWitnessValue ty) eqn:E; simpl in H; [eauto|].
    injection H as <-. now apply Hty.
  - discriminate.
  - simpl in H. auto.
Qed.

Lemma buildWitnessField_throws (definition : FieldDefinition) (x : Exn) :
  buildWitnessField definition = Throw x -> x = TypeError undefinedProperty.
Proof.
  unfold buildWitnessField.
  generalize (@nil (string * JsValue)). 
  induction (fd_arguments definition) as [|a ds IH]; intros args H; simpl in H; [discriminate|].
  destruct (generateWitnessValue (arg_type a)) eqn:E; simpl in H.
  - eauto.
  - injection H as <-. eapply generateWitnessValue_throws; eauto.
Qed.

Lemma buildWitnessFrom_throws (edges remaining : list Edge) (x : Exn) :
  buildWitnessFrom edges remaining = Throw x -> x = TypeError undefinedProperty.
Proof.
  induction remaining as [|e rem IH]; simpl; intros H.
  - unfold lastTailType in H. destruct (rev edges); simpl in H; [|discriminate].
    now injection H as <-.
  - destruct (buildWitnessFrom edges rem) eqn:E; simpl in H; [|injection H as <-; auto].
    destruct (e_transition e); try discriminate.
    destruct (buildWitnessField definition) eqn:Ef; simpl in H; [discriminate|].
    injection H as <-. eapply buildWitnessField_throws; eauto.
Qed.

Lemma buildWitnessOperation_throws (path : RootPath Transition) (x : Exn) :
  buildWitnessOperation path = Throw x ->
  (pathSize path = 0 /\ x = AssertionError msgEmptyPath)
  \/ (0 < pathSize path /\ x = TypeError undefinedProperty).
Proof.
  unfold buildWitnessOperation. destruct (0 <? pathSize path) eqn:E; simpl; intros H.
  - right. apply Nat.ltb_lt in E. split; [exact E|].
    unfold buildWitnessNextStep in H.
    destruct (buildWitnessFrom _ _) eqn:Eb; simpl in H; [discriminate|].
    injection H as <-. eapply buildWitnessFrom_throws; eauto.
  - left. apply Nat.ltb_ge in E. split; [lia | now injection H as <-].
Qed.

(** ** When the witness builder returns *)

Lemma enumsInhabited_fields (name : string) (fields : list InputFieldDefinition) :
  enumsInhabited (InputObjectType name fields) ->
  Forall (fun f => enumsInhabited (if_type f)) fields.
Proof.
  simpl. induction fields as [|[n t d] fs IH]; intros H; constructor.
  - simpl. tauto.
  - apply IH. tauto.
Qed.

(** The value generator returns a value on every input type whose enum
    types declare a value. *)
Lemma generateWitnessValue_total (t : InputType) :
  enumsInhabited t -> exists v, generateWitnessValue t = Ok v.
Proof.
  induction t as [name|name values|name fields IH|t IH|t IH]
    using InputType_nested_ind; intros Hwf.
  - simpl. repeat match goal with
                  | |- context [if ?c then _ else _] => destruct c
                  end; eauto.
  - destruct values; [contradiction | simpl; eauto].
  - rewrite generateWitnessValue_input_object.
    apply enumsInhabited_fields in Hwf. generalize (@nil (string * JsValue)).
    revert Hwf.
    induction IH as [|[n ty d] fs Hty _ IHfs]; intros Hwf obj; simpl; [eauto|].
    inversion Hwf as [|? ? Hf Hfs]; subst. simpl in Hty, Hf.
    destruct (truthyOpt d || isNullableType ty); [auto|].
    destruct (Hty Hf) as (v & ->). simpl. auto.
  - simpl. eauto.
  - simpl. auto.
Qed.

Lemma buildWitnessField_total (definition : FieldDefinition) :
  (forall a, In a (fd_arguments definition) -> enumsInhabited (arg_type a)) ->
  exists f, buildWitnessField definition = Ok f.
Proof.
  unfold buildWitnessField. intros H.
  assert (Hargs : forall args, exists args',
               witnessArguments (fd_arguments definition) args = Ok args').
  { induction (fd_arguments definition) as [|a ds IH]; intros args; simpl; [eauto|].
    destruct (generateWitnessValue_total _ (H a (or_introl eq_refl))) as (v & ->).
    simpl. apply IH. intros b Hb. apply H. now right. }
  destruct (Hargs []) as (args' & ->). simpl. eauto.
Qed.

(** The witness of a path with at least one edge is built when the enum
    types of the arguments along the path declare a value. *)
Lemma buildWitnessOperation_total (path : RootPath Transition) :
  0 < pathSize path -> argumentsInhabited path ->
  exists w, buildWitnessOperation path = Ok w.
Proof.
  intros Hpos Hargs. unfold buildWitnessOperation.
  apply Nat.ltb_lt in Hpos as Hb. rewrite Hb. simpl.
  unfold buildWitnessNextStep. simpl.
  assert (Hfrom : forall remaining,
             incl remaining (map fst (elements path)) ->
             exists ss, buildWitnessFrom (map fst (elements path)) remaining = Ok ss).
  { induction remaining as [|e rem IH]; intros Hincl; simpl.
    - rewrite (lastTailType_pathTail _ Hpos). simpl. eauto.
    - destruct IH as (ss & ->); [intros x Hx; apply Hincl; now right|]. simpl.
      destruct (e_transition e) as [definition|src casted| |] eqn:Et; eauto.
      assert (He : In e (map fst (elements path))) by (apply Hincl; now left).
      apply in_map_iff in He. destruct He as (s & <- & Hs).
      destruct (buildWitnessField_total definition) as (f & ->); [|simpl; eauto].
      intros a Ha. exact (Hargs s definition a Hs Et Ha). }
  destruct (Hfrom (map fst (elements path)) (incl_refl _)) as (ss & ->).
  simpl. eauto.
Qed.

(** * Properties of the validation state machine *)

Lemma flatMapOpt_In {A B : Type} (f : A -> option (list B)) (l : list A) (r : list B) :
  flatMapOpt f l = Some r ->
  forall b, In b r -> exists a bs, In a l /\ f a = Some bs /\ In b bs.
Proof.
  revert r. induction l as [|a l IH]; simpl; intros r H b Hb.
  - injection H as <-. destruct Hb.
  - destruct (f a) as [bs|] eqn:Ef; [|discriminate].
    destruct (flatMapOpt f l) as [rest|]; [|discriminate].
    injection H as <-. apply in_app_or in Hb. destruct Hb as [Hb|Hb].
    + exists a, bs. auto.
    + destruct (IH _ eq_refl b Hb) as (a' & bs' & Ha & Hf & Hin).
      exists a', bs'. auto.
Qed.

Lemma flatMapOpt_concat {A B : Type} (f : A -> option (list B)) (l : list A) (r : list B) :
  flatMapOpt f l = Some r <->
  exists parts, Forall2 (fun a bs => f a = Some bs) l parts /\ r = List.concat parts.
Proof.
  revert r. induction l as [|a l IH]; intros r; simpl.
  - split.
    + intros H. injection H as <-. exists []. split; [constructor | reflexivity].
    + intros (parts & HF & ->). inversion HF. reflexivity.
  - split.
    + intros H. destruct (f a) as [bs|] eqn:Ef; [|discriminate].
      destruct (flatMapOpt f l) as [rest|]; [|discriminate].
      injection H as <-. destruct (proj1 (IH rest) eq_refl) as (parts & HF & ->).
      exists (bs :: parts). split; [constructor; assumption | reflexivity].
    + intros (parts & HF & ->). inversion HF as [|? bs ? parts' Hf HF']; subst.
      rewrite Hf. rewrite (proj2 (IH (List.concat parts'))) by eauto. reflexivity.
Qed.

Lemma flatMapOpt_answers {A B : Type} (f : A -> option (list B)) (l : list A) :
  (forall a, In a l -> f a <> None) -> flatMapOpt f l <> None.
Proof.
  induction l as [|a l IH]; simpl; intros H; [discriminate|].
  destruct (f a) eqn:Ef; [|exfalso; apply (H a); auto].
  destruct (flatMapOpt f l); [discriminate|].
  exfalso. apply IH; auto.
Qed.

Lemma length_eqb_0 {A : Type} (l : list A) :
  (List.length l =? 0) = match l with [] => true | _ => false end.
Proof. destruct l; reflexivity. Qed.

Lemma forallb_names (target : Vertex) (paths : list (RootPath Transition)) :
  forallb (fun p => String.eqb (t_name (v_type (pathTail p))) (t_name (v_type target))) paths
  = true
  <-> Forall (fun p => t_name (v_type (pathTail p)) = t_name (v_type target)) paths.
Proof.
  rewrite forallb_forall, Forall_forall.
  split; intros H p Hp; apply String.eqb_eq; auto.
Qed.

Lemma newValidationState_Ok (path : RootPath Transition) (paths : list (RootPath Transition)) :
  stateInvariant {| supergraphPath := path; subgraphPaths := paths |} ->
  newValidationState path paths = Ok {| supergraphPath := path; subgraphPaths := paths |}.
Proof.
  unfold stateInvariant, newValidationState. simpl. intros H.
  apply forallb_names in H. now rewrite H.
Qed.

Lemma newValidationState_inv (path : RootPath Transition) (paths : list (RootPath Transition))
      (state : ValidationState) :
  newValidationState path paths = Ok state ->
  state = {| supergraphPath := path; subgraphPaths := paths |} /\ stateInvariant state.
Proof.
  unfold newValidationState. intros H.
  match type of H with context [assert ?c _] => destruct c eqn:E end;
    simpl in H; [|discriminate].
  injection H as <-. split; [reflexivity|].
  unfold stateInvariant. simpl. now apply forallb_names.
Qed.

Lemma newValidationState_Throw (path : RootPath Transition)
      (paths : list (RootPath Transition)) :
  ~ stateInvariant {| supergraphPath := path; subgraphPaths := paths |} ->
  newValidationState path paths = Throw (AssertionError msgInvalidState).
Proof.
  unfold newValidationState, stateInvariant. simpl. intros H.
  match goal with |- context [assert ?c _] => destruct c eqn:E end;
    simpl; [|reflexivity].
  exfalso. apply H. now apply forallb_names.
Qed.

Lemma validationError_inv (path : RootPath Transition)
      (candidates : list (RootPath Transition)) (e : ValidationError) :
  validationError path candidates = Ok e ->
  0 < pathSize path
  /\ buildWitnessOperation path = Ok (witness e)
  /\ e = unsatisfiable path candidates (witness e).
Proof.
  unfold validationError. intros H.
  apply bindRes_Ok_inv in H. destruct H as (w & Hw & H). injection H as <-.
  simpl. repeat split; auto.
  unfold buildWitnessOperation in Hw.
  destruct (0 <? pathSize path) eqn:E; simpl in Hw; [|discriminate].
  now apply Nat.ltb_lt.
Qed.

Lemma validationError_Throw (path : RootPath Transition)
      (candidates : list (RootPath Transition)) (x : Exn) :
  validationError path candidates = Throw x ->
  buildWitnessOperation path = Throw x.
Proof.
  unfold validationError. destruct (buildWitnessOperation path); simpl; congruence.
Qed.

Section StateMachine.

Variable fedRootName : SchemaRootKind -> string.
Variable advance :
  RootPath Transition -> Transition -> NamedType -> ConditionResolver ->
  option (list (RootPath Transition)).
Variable advanceSim :
  option Schema -> list OpGraphPath -> OperationElement -> ConditionResolver ->
  ExcludedEdges -> option (list (list OpGraphPath)).

(** The three ways [validateTransition] completes on an edge without
    conditions. *)
Lemma validateTransition_cases (fuel : nat) (this : ValidationState)
      (schema : option Schema) (edge : Edge) (r : Res ValidationState) :
  e_conditions edge = None ->
  validateTransition advance advanceSim fuel this schema edge = Some r ->
  let newPath := pathAdd (supergraphPath this) (e_transition edge) edge in
  exists newPaths,
    advanceSubgraphPaths advance advanceSim fuel this schema edge = Some newPaths
    /\ ((newPaths = []
         /\ match validationError newPath (subgraphPaths this) with
            | Ok e => r = Throw (ValidationErrorExn e)
            | Throw x => r = Throw x
            end)
        \/ (newPaths <> [] /\ r = newValidationState newPath newPaths)).
Proof.
  intros Hc H newPath. unfold validateTransition in H. rewrite Hc in H.
  destruct (advanceSubgraphPaths advance advanceSim fuel this schema edge)
    as [newPaths|]; [|discriminate].
  exists newPaths. split; [reflexivity|].
  rewrite length_eqb_0 in H. destruct newPaths as [|q qs].
  - left. split; [reflexivity|]. fold newPath in H.
    destruct (validationError newPath (subgraphPaths this)); injection H as <-; reflexivity.
  - right. split; [discriminate|]. unfold lift in H. now injection H as <-.
Qed.

(** C2: on an edge without conditions, the surviving paths are the
    advancements of the candidates, in order; [validateTransition] returns
    the state made of the extended supergraph path and of exactly the
    surviving paths when there is at least one and they lead to the target
    type; when none survives it
    throws, returning no state, and what it throws is the
    [ValidationError] built from the extended path and the candidates
    before the step, as soon as the witness of that path is built, which
    it is when the enum types of the arguments along the path declare a
    value. *)
Theorem validateTransition_step (fuel : nat) (this : ValidationState)
        (schema : option Schema) (edge : Edge)
        (newSubgraphPaths : list (RootPath Transition)) :
  e_conditions edge = None ->
  advanceSubgraphPaths advance advanceSim fuel this schema edge = Some newSubgraphPaths ->
  let newPath := pathAdd (supergraphPath this) (e_transition edge) edge in
  (exists advanced,
      Forall2 (fun path paths =>
                 advance path (e_transition edge) (v_type (e_tail edge))
                         (fun conditions vertex excluded =>
                            validateConditions advanceSim fuel schema conditions
                                               (pathCreate (p_graph path) vertex) excluded)
                 = Some paths)
              (subgraphPaths this) advanced
      /\ newSubgraphPaths = List.concat advanced)
  /\ (newSubgraphPaths <> [] -> towardsTarget edge newSubgraphPaths ->
      validateTransition advance advanceSim fuel this schema edge
      = Some (Ok {| supergraphPath := newPath; subgraphPaths := newSubgraphPaths |}))
  /\ (newSubgraphPaths = [] ->
      (forall w, buildWitnessOperation newPath = Ok w ->
         validateTransition advance advanceSim fuel this schema edge
         = Some (Throw (ValidationErrorExn
                          (unsatisfiable newPath (subgraphPaths this) w))))
      /\ (argumentsInhabited newPath ->
          exists w, validateTransition advance advanceSim fuel this schema edge
                    = Some (Throw (ValidationErrorExn
                                     (unsatisfiable newPath (subgraphPaths this) w))))
      /\ (exists x, validateTransition advance advanceSim fuel this schema edge
                    = Some (Throw x))).
Proof.
  intros Hc Hadv newPath. split.
  { unfold advanceSubgraphPaths in Hadv. now apply flatMapOpt_concat in Hadv. }
  unfold validateTransition. rewrite Hc, Hadv.
  rewrite length_eqb_0. fold newPath. split.
  - intros Hne Htow. destruct newSubgraphPaths as [|q qs]; [congruence|].
    unfold lift. f_equal. apply newValidationState_Ok.
    unfold stateInvariant, towardsTarget in *. simpl.
    unfold newPath. now rewrite pathTail_add.
  - intros ->.
    assert (Hw : forall w, buildWitnessOperation newPath = Ok w ->
               match validationError newPath (subgraphPaths this) with
               | Ok e => Some (Throw (ValidationErrorExn e))
               | Throw x => Some (Throw x)
               end
               = Some (Throw (ValidationErrorExn
                                (unsatisfiable newPath (subgraphPaths this) w)))
                 :> M ValidationState).
    { intros w Hw. unfold validationError. rewrite Hw. reflexivity. }
    repeat apply conj.
    + exact Hw.
    + intros Hargs.
      destruct (@buildWitnessOperation_total newPath) as (w & Hbuilt);
        [unfold newPath; rewrite pathSize_add; lia | exact Hargs |].
      exists w. auto.
    + destruct (validationError newPath (subgraphPaths this)); eauto.
Qed.

(** Every surviving path comes from advancing one of the candidates. *)
Lemma advanceSubgraphPaths_origin (fuel : nat) (this : ValidationState)
      (schema : option Schema) (edge : Edge) (newPaths : list (RootPath Transition)) :
  advanceSubgraphPaths advance advanceSim fuel this schema edge = Some newPaths ->
  forall q, In q newPaths ->
    exists p qs,
      In p (subgraphPaths this)
      /\ advance p (e_transition edge) (v_type (e_tail edge))
                 (fun conditions vertex excluded =>
                    validateConditions advanceSim fuel schema conditions
                                       (pathCreate (p_graph p) vertex) excluded)
         = Some qs
      /\ In q qs.
Proof.
  unfold advanceSubgraphPaths. intros H q Hq.
  exact (flatMapOpt_In _ _ H q Hq).
Qed.

Lemma initialSubgraphPaths_inv (kind : SchemaRootKind) (subgraphs : Graph)
      (paths : list (RootPath Transition)) :
  initialSubgraphPaths fedRootName kind subgraphs = Ok paths ->
  exists root,
    graph_root subgraphs kind = Some root
    /\ t_name (v_type root) = fedRootName kind
    /\ paths = map (fun e => pathAdd (pathCreate subgraphs root) freeTransition e)
                   (outEdges subgraphs root).
Proof.
  unfold initialSubgraphPaths, fromGraphRoot.
  destruct (graph_root subgraphs kind) as [root|]; [|discriminate].
  destruct (String.eqb _ _) eqn:E; simpl; [|discriminate].
  intros H. injection H as <-. apply String.eqb_eq in E. eauto.
Qed.

Lemma constructState_inv (path : option (RootPath Transition))
      (paths : list (RootPath Transition)) (o : StateObject) :
  constructState path paths = Ok o ->
  (exists p, path = Some p
             /\ o = Built {| supergraphPath := p; subgraphPaths := paths |}
             /\ stateInvariant {| supergraphPath := p; subgraphPaths := paths |})
  \/ (path = None /\ paths = [] /\ o = Pathless).
Proof.
  unfold constructState. destruct path as [p|].
  - intros H. apply bindRes_Ok_inv in H. destruct H as (state & Hs & H).
    injection H as <-. apply newValidationState_inv in Hs. destruct Hs as [-> Hinv].
    left. exists p. auto.
  - destruct paths; [|discriminate]. intros H. injection H as <-. right. auto.
Qed.

Lemma initial_inv (supergraph subgraphs : Graph) (kind : SchemaRootKind)
      (state : ValidationState) :
  initial fedRootName supergraph kind subgraphs = Ok (Built state) ->
  exists sroot root,
    graph_root supergraph kind = Some sroot
    /\ graph_root subgraphs kind = Some root
    /\ t_name (v_type root) = fedRootName kind
    /\ state = initialState supergraph subgraphs sroot root
    /\ stateInvariant state.
Proof.
  unfold initial. intros H.
  apply bindRes_Ok_inv in H. destruct H as (paths & Hp & H).
  apply initialSubgraphPaths_inv in Hp. destruct Hp as (root & Hroot & Hname & ->).
  apply constructState_inv in H.
  destruct H as [(p & Hp & Ho & Hinv)|(_ & _ & Ho)]; [|discriminate].
  injection Ho as ->. unfold fromGraphRoot in Hp.
  destruct (graph_root supergraph kind) as [sroot|]; simpl in Hp; [|discriminate].
  injection Hp as <-. exists sroot, root. auto.
Qed.

(** [initial] returns an object without supergraph path exactly when the
    supergraph has no root of the kind and the root the subgraphs have for
    it, of the federated root type name, has no out-edge. *)
Lemma initial_Pathless (supergraph subgraphs : Graph) (kind : SchemaRootKind) :
  initial fedRootName supergraph kind subgraphs = Ok Pathless <->
  graph_root supergraph kind = None
  /\ exists root,
       graph_root subgraphs kind = Some root
       /\ t_name (v_type root) = fedRootName kind
       /\ outEdges subgraphs root = [].
Proof.
  unfold initial. split.
  - intros H. apply bindRes_Ok_inv in H. destruct H as (paths & Hp & H).
    apply initialSubgraphPaths_inv in Hp. destruct Hp as (root & Hroot & Hname & ->).
    apply constructState_inv in H.
    destruct H as [(p & _ & Ho & _)|(Hnone & Hnil & _)]; [discriminate|].
    unfold fromGraphRoot in Hnone.
    destruct (graph_root supergraph kind); [discriminate|].
    split; [reflexivity|]. exists root. repeat split; auto.
    now apply map_eq_nil in Hnil.
  - intros (Hnone & root & Hroot & Hname & Hout).
    unfold initialSubgraphPaths, fromGraphRoot. rewrite Hroot, Hnone, Hname, Hout.
    rewrite String.eqb_refl. reflexivity.
Qed.

Lemma initial_registered (supergraph subgraphs : Graph) (kind : SchemaRootKind)
      (sroot : Vertex) (o : StateObject) :
  graph_root supergraph kind = Some sroot ->
  initial fedRootName supergraph kind subgraphs = Ok o ->
  exists state, o = Built state.
Proof.
  intros Hs H. destruct o as [state|]; [eauto|].
  apply initial_Pathless in H. destruct H as [Hnone _]. congruence.
Qed.

Lemma initial_throws (supergraph subgraphs : Graph) (kind : SchemaRootKind) (x : Exn) :
  initial fedRootName supergraph kind subgraphs = Throw x ->
  x = AssertionError (msgNoRoot (Some kind))
  \/ x = AssertionError msgRootType
  \/ x = AssertionError msgInvalidState
  \/ x = TypeError undefinedProperty.
Proof.
  unfold initial, initialSubgraphPaths, fromGraphRoot, constructState,
    newValidationState.
  destruct (graph_root subgraphs kind) as [root|]; simpl;
    [|intros H; injection H as <-; auto].
  destruct (String.eqb _ _); simpl; [|intros H; injection H as <-; auto].
  destruct (graph_root supergraph kind) as [sroot|]; simpl.
  - destruct (forallb _ _); simpl; [discriminate|].
    intros H; injection H as <-; auto.
  - destruct (map _ _); [discriminate|].
    intros H; injection H as <-; auto.
Qed.

(** C8: for a root kind of the supergraph, [initial] fails the assertion
    on the root when the subgraphs have no root of that kind; when they
    have one, of the federated root type name and with out-edges leading
    to the type name of the supergraph root, it returns the state over
    the supergraph path made of the root alone and over one subgraph
    path per out-edge of the subgraph root, the root path extended by
    that edge under the free transition; and every state it returns is of
    that form. *)
Theorem initial_state (supergraph subgraphs : Graph) (kind : SchemaRootKind)
        (sroot : Vertex) :
  graph_root supergraph kind = Some sroot ->
  (graph_root subgraphs kind = None ->
   initial fedRootName supergraph kind subgraphs
   = Throw (AssertionError (msgNoRoot (Some kind))))
  /\ (forall root,
        graph_root subgraphs kind = Some root ->
        t_name (v_type root) = fedRootName kind ->
        Forall (fun e => t_name (v_type (e_tail e)) = t_name (v_type sroot))
               (outEdges subgraphs root) ->
        initial fedRootName supergraph kind subgraphs
        = Ok (Built (initialState supergraph subgraphs sroot root)))
  /\ (forall o,
        initial fedRootName supergraph kind subgraphs = Ok o ->
        exists root state,
          graph_root subgraphs kind = Some root
          /\ o = Built state
          /\ state = initialState supergraph subgraphs sroot root
          /\ p_steps (supergraphPath state) = []
          /\ pathTail (supergraphPath state) = sroot
          /\ List.length (subgraphPaths state) = List.length (outEdges subgraphs root)).
Proof.
  intros Hs. repeat apply conj.
  - intros Hnone. unfold initial, initialSubgraphPaths. now rewrite Hnone.
  - intros root Hroot Hname Htails.
    unfold initial, initialSubgraphPaths, fromGraphRoot, constructState.
    rewrite Hroot, Hs, Hname.
    rewrite String.eqb_refl. simpl.
    rewrite newValidationState_Ok; [reflexivity|]. unfold stateInvariant. simpl.
    apply Forall_forall. intros p Hp. apply in_map_iff in Hp.
    destruct Hp as (e & <- & He). rewrite pathTail_add.
    rewrite Forall_forall in Htails. now apply Htails.
  - intros o H. destruct (initial_registered _ _ _ Hs H) as (state & ->).
    apply initial_inv in H.
    destruct H as (sroot' & root & Hs' & Hroot & _ & -> & _).
    rewrite Hs in Hs'. injection Hs' as <-.
    exists root, (initialState supergraph subgraphs sroot root). repeat split; auto.
    unfold initialState. simpl. now rewrite length_map.
Qed.

Lemma validateTransition_Ok_inv (fuel : nat) (this : ValidationState)
      (schema : option Schema) (edge : Edge) (state : ValidationState) :
  validateTransition advance advanceSim fuel this schema edge = Some (Ok state) ->
  e_conditions edge = None
  /\ supergraphPath state = pathAdd (supergraphPath this) (e_transition edge) edge
  /\ advanceSubgraphPaths advance advanceSim fuel this schema edge
     = Some (subgraphPaths state)
  /\ subgraphPaths state <> []
  /\ stateInvariant state.
Proof.
  intros H. destruct (e_conditions edge) eqn:Hc.
  { unfold validateTransition in H. rewrite Hc in H. discriminate. }
  destruct (validateTransition_cases _ _ _ _ Hc H) as (newPaths & Hadv & [[-> Hr]|[Hne Hr]]).
  - destruct (validationError _ _); discriminate.
  - symmetry in Hr. apply newValidationState_inv in Hr. destruct Hr as [-> Hinv].
    simpl. auto.
Qed.

Lemma validateTransition_Throw_inv (fuel : nat) (this : ValidationState)
      (schema : option Schema) (edge : Edge) (x : Exn) :
  validateTransition advance advanceSim fuel this schema edge = Some (Throw x) ->
  let newPath := pathAdd (supergraphPath this) (e_transition edge) edge in
  (e_conditions edge <> None /\ x = AssertionError msgEdgeConditions)
  \/ (e_conditions edge = None
      /\ ((exists e, x = ValidationErrorExn e
                     /\ e = unsatisfiable newPath (subgraphPaths this) (witness e)
                     /\ buildWitnessOperation newPath = Ok (witness e)
                     /\ advanceSubgraphPaths advance advanceSim fuel this schema edge
                        = Some [])
          \/ x = TypeError undefinedProperty
          \/ x = AssertionError msgInvalidState)).
Proof.
  intros H newPath. destruct (e_conditions edge) eqn:Hc.
  { unfold validateTransition in H. rewrite Hc in H. injection H as <-.
    left. split; [discriminate | reflexivity]. }
  right. split; [reflexivity|].
  destruct (validateTransition_cases _ _ _ _ Hc H) as (newPaths & Hadv & [[-> Hr]|[Hne Hr]]).
  - fold newPath in Hr.
    destruct (validationError newPath (subgraphPaths this)) as [e|y] eqn:Ev.
    + injection Hr as ->. left. exists e.
      apply validationError_inv in Ev. destruct Ev as (_ & Hw & He). auto.
    + injection Hr as ->. apply validationError_Throw in Ev.
      apply buildWitnessOperation_throws in Ev. destruct Ev as [[Hsz _]|[_ ->]]; auto.
      unfold newPath in Hsz. rewrite pathSize_add in Hsz. discriminate.
  - right. right. symmetry in Hr. unfold newValidationState in Hr.
    match type of Hr with context [assert ?c _] => destruct c end; simpl in Hr;
      [discriminate | now injection Hr as <-].
Qed.

Lemma transitionFrom_Ok_inv (fuel : nat) (this : StateObject)
      (schema : option Schema) (edge : Edge) (state' : ValidationState) :
  transitionFrom advance advanceSim fuel this schema edge = Some (Ok state') ->
  exists state,
    this = Built state
    /\ validateTransition advance advanceSim fuel state schema edge = Some (Ok state').
Proof.
  destruct this as [state|]; simpl; [eauto|].
  destruct (e_conditions edge); discriminate.
Qed.

Lemma replayEdges_invariant (fuel : nat) (schema : option Schema) (edges : list Edge) :
  forall o o',
    objectInvariant o ->
    replayEdges advance advanceSim fuel schema edges o = Some (Ok o') ->
    objectInvariant o'.
Proof.
  induction edges as [|e es IH]; simpl; intros o o' Hinv H.
  - now injection H as <-.
  - destruct (transitionFrom advance advanceSim fuel o schema e)
      as [[st|x]|] eqn:E; simpl in H; try discriminate.
    apply transitionFrom_Ok_inv in E. destruct E as (state & -> & E).
    apply validateTransition_Ok_inv in E. apply (IH (Built st)); [simpl; tauto | exact H].
Qed.

(** C4: the constructor returns a state exactly when the type name of
    the tail of every subgraph path is that of the tail of the supergraph
    path, and fails its assertion otherwise; without supergraph path it
    returns an object only when there is no subgraph path; so the invariant
    holds of every state returned by [initial], by [validateTransition] and
    by the replay of [computeSubgraphPaths]. *)
Theorem ValidationState_invariant :
  (forall path paths state,
      newValidationState path paths = Ok state ->
      state = {| supergraphPath := path; subgraphPaths := paths |}
      /\ stateInvariant state)
  /\ (forall path paths,
         stateInvariant {| supergraphPath := path; subgraphPaths := paths |} ->
         newValidationState path paths
         = Ok {| supergraphPath := path; subgraphPaths := paths |})
  /\ (forall path paths,
         ~ stateInvariant {| supergraphPath := path; subgraphPaths := paths |} ->
         newValidationState path paths = Throw (AssertionError msgInvalidState))
  /\ (forall paths o,
         constructState None paths = Ok o -> o = Pathless /\ paths = [])
  /\ (forall supergraph kind subgraphs state,
         initial fedRootName supergraph kind subgraphs = Ok (Built state) ->
         stateInvariant state)
  /\ (forall fuel this schema edge state,
         validateTransition advance advanceSim fuel this schema edge = Some (Ok state) ->
         stateInvariant state)
  /\ (forall fuel path subgraphs result state,
         computeSubgraphPaths fedRootName advance advanceSim fuel path subgraphs
         = Some (Ok result) ->
         sp_traversal result = Some (Built state) ->
         stateInvariant state).
Proof.
  repeat apply conj.
  - apply newValidationState_inv.
  - apply newValidationState_Ok.
  - apply newValidationState_Throw.
  - intros paths o H. apply constructState_inv in H.
    destruct H as [(p & Hp & _)|(_ & Hnil & Ho)]; [discriminate | auto].
  - intros supergraph kind subgraphs state H.
    apply initial_inv in H. destruct H as (? & ? & H). tauto.
  - intros fuel this schema edge state H.
    apply validateTransition_Ok_inv in H. tauto.
  - intros fuel path subgraphs result state H Hres.
    unfold computeSubgraphPaths in H.
    destruct (replay fedRootName advance advanceSim fuel path subgraphs)
      as [[st|[e|m|m]]|] eqn:E; try discriminate;
      injection H as <-; simpl in Hres; [|discriminate].
    injection Hres as ->. unfold replay in E.
    destruct (hasAnyEdgeConditions path); simpl in E; [discriminate|].
    destruct (v_rootKind (p_root path)) as [kind|]; simpl in E; [|discriminate].
    destruct (initial fedRootName (p_graph path) kind subgraphs) as [o0|x] eqn:Ei;
      simpl in E; [|discriminate].
    assert (Hinv : objectInvariant o0).
    { destruct o0 as [st0|]; [|exact I].
      apply initial_inv in Ei. destruct Ei as (? & ? & _ & _ & _ & _ & Hinv).
      exact Hinv. }
    exact (@replayEdges_invariant _ _ _ _ _ Hinv E).
Qed.

End StateMachine.

(** * Properties of the traversal *)

Section Traversal.

Variable fedRootName : SchemaRootKind -> string.
Variable advance :
  RootPath Transition -> Transition -> NamedType -> ConditionResolver ->
  option (list (RootPath Transition)).
Variable advanceSim :
  option Schema -> list OpGraphPath -> OperationElement -> ConditionResolver ->
  ExcludedEdges -> option (list (list OpGraphPath)).
Variable fuel : nat.
Variable schema : option Schema.

Local Abbreviation step := (validateTransition advance advanceSim fuel).
Local Abbreviation handle := (handleEdges advance advanceSim fuel schema).
Local Abbreviation loop := (validate advance advanceSim fuel schema).

(** The states [handleEdges] pushes do not depend on the stack below. *)
Lemma handleEdges_frame (state : ValidationState) (edges : list Edge) :
  forall acc stack,
    handle state edges (acc ++ stack)
    = match handle state edges acc with
      | Some (Ok pushed) => Some (Ok (pushed ++ stack))
      | Some (Throw x) => Some (Throw x)
      | None => None
      end.
Proof.
  induction edges as [|e es IH]; intros acc stack; simpl; [reflexivity|].
  destruct (step state schema e) as [[newState|x]|]; simpl; try reflexivity.
  destruct (negb _ && negb _); [|apply IH].
  rewrite app_comm_cons. apply IH.
Qed.

(** What [handleEdges] pushes: successors that are neither terminal nor
    cycled. *)
Lemma handleEdges_pushed (state : ValidationState) (edges : list Edge) :
  forall stack stack',
    handle state edges stack = Some (Ok stack') ->
    exists pushed,
      stack' = map Built pushed ++ stack
      /\ Forall (fun s => exists e,
                     In e edges
                     /\ step state schema e = Some (Ok s)
                     /\ isTerminal (supergraphPath s) = false
                     /\ hasCycled s = false) pushed.
Proof.
  induction edges as [|e es IH]; intros stack stack' H; simpl in H.
  - injection H as <-. exists []. split; [reflexivity | constructor].
  - destruct (step state schema e) as [[newState|x]|] eqn:E; simpl in H;
      try discriminate.
    destruct (negb (isTerminal (supergraphPath newState))) eqn:Et;
      destruct (negb (hasCycled newState)) eqn:Ec; simpl in H;
      apply IH in H; destruct H as (pushed & -> & HF).
    1: { exists (pushed ++ [newState]). split; [now rewrite map_app, <- app_assoc|].
         apply Forall_app. split.
         - eapply Forall_impl; [|exact HF]. intros s (e' & He' & Hs). exists e'.
           split; [right; exact He' | exact Hs].
         - constructor; [|constructor]. exists e.
           apply negb_true_iff in Et, Ec. simpl. auto. }
    all: exists pushed; split; [reflexivity|];
      eapply Forall_impl; [|exact HF]; intros s (e' & He' & Hs); exists e';
      (split; [right; exact He' | exact Hs]).
Qed.

(** [handleEdges] throws what the first failing transition throws. *)
Lemma handleEdges_throw (state : ValidationState) (edges : list Edge) (x : Exn) :
  forall stack,
    handle state edges stack = Some (Throw x) <->
    exists before edge after,
      edges = before ++ edge :: after
      /\ (forall e, In e before -> exists s, step state schema e = Some (Ok s))
      /\ step state schema edge = Some (Throw x).
Proof.
  induction edges as [|e es IH]; intros stack.
  - simpl. split; [discriminate|]. intros (before & edge & after & H & _).
    destruct before; discriminate.
  - assert (Hcons : (exists before edge after,
                        e :: es = before ++ edge :: after
                        /\ (forall e0, In e0 before ->
                                       exists s, step state schema e0 = Some (Ok s))
                        /\ step state schema edge = Some (Throw x))
                    <-> (step state schema e = Some (Throw x)
                         \/ ((exists s, step state schema e = Some (Ok s))
                             /\ exists before edge after,
                                 es = before ++ edge :: after
                                 /\ (forall e0, In e0 before ->
                                       exists s, step state schema e0 = Some (Ok s))
                                 /\ step state schema edge = Some (Throw x)))).
    { split.
      - intros (before & edge & after & Heq & Hb & Hx).
        destruct before as [|b before]; simpl in Heq; inversion Heq; subst.
        + left. exact Hx.
        + right. split; [apply Hb; now left|].
          exists before, edge, after. repeat split; auto.
          intros e0 H0. apply Hb. now right.
      - intros [Hx|[Hs (before & edge & after & Heq & Hb & Hx)]].
        + exists [], e, es. repeat split; auto. intros e0 [].
        + exists (e :: before), edge, after. subst es. repeat split; auto.
          intros e0 [<-|H0]; auto. }
    rewrite Hcons. simpl.
    destruct (step state schema e) as [[newState|y]|] eqn:E; simpl.
    + destruct (negb _ && negb _); rewrite IH;
        (split; [intros H; right; split; [eauto | exact H]
                | intros [H|[_ H]]; [discriminate | exact H]]).
    + split.
      * intros H. left. congruence.
      * intros [H|[(s & Hs) _]]; [congruence | discriminate].
    + split; [discriminate|].
      intros [H|[(s & Hs) _]]; discriminate.
Qed.

Lemma validate_S (n : nat) (stack : list StateObject) (r : Res unit) :
  loop n stack = Some r -> loop (S n) stack = Some r.
Proof.
  revert stack. induction n as [|n IH]; intros [|state stack] H; simpl in H;
    try discriminate; try exact H.
  change (loop (S (S n)) (state :: stack))
    with (stack'' <~ handleState advance advanceSim fuel schema state stack ;;
          loop (S n) stack'').
  destruct (handleState advance advanceSim fuel schema state stack) as [[s|x]|];
    simpl in *; auto.
Qed.

Lemma validate_le (n m : nat) (stack : list StateObject) (r : Res unit) :
  n <= m -> loop n stack = Some r -> loop m stack = Some r.
Proof.
  intros Hle Hn. induction Hle; [exact Hn | apply validate_S; auto].
Qed.

(** The result of the loop does not depend on the iteration budget. *)
Lemma validate_deterministic (n m : nat) (stack : list StateObject)
      (r r' : Res unit) :
  loop n stack = Some r -> loop m stack = Some r' -> r = r'.
Proof.
  intros H H'.
  apply validate_le with (m := Nat.max n m) in H; [|apply Nat.le_max_l].
  apply validate_le with (m := Nat.max n m) in H'; [|apply Nat.le_max_r].
  congruence.
Qed.

Lemma Reaches_validate (stack stack' : list StateObject) :
  Reaches advance advanceSim fuel schema stack stack' ->
  forall n r, loop n stack' = Some r -> exists m, loop m stack = Some r.
Proof.
  induction 1 as [stack|state stack stack' stack'' Hh _ IH]; intros n r Hr.
  - eauto.
  - destruct (IH n r Hr) as (m & Hm). exists (S m). simpl. rewrite Hh. exact Hm.
Qed.

(** The loop throws what the first failing transition throws. *)
Lemma validate_first_failure (stack : list StateObject) (state : ValidationState)
      (rest : list StateObject) (edge : Edge) (x : Exn) :
  Reaches advance advanceSim fuel schema stack (Built state :: rest) ->
  FirstFailure advance advanceSim fuel schema state edge x ->
  exists m, loop m stack = Some (Throw x).
Proof.
  intros Hreach (before & after & Hedges & Hb & Hx).
  apply (Reaches_validate Hreach 1). simpl.
  unfold handleState.
  assert (H : handle state (nextEdges (supergraphPath state)) rest = Some (Throw x)).
  { apply handleEdges_throw. exists before, edge, after. auto. }
  now rewrite H.
Qed.

(** Whatever the loop throws was thrown by a transition from a state
    satisfying any invariant [P] of the transitions. *)
Lemma validate_throw_origin (P : ValidationState -> Prop) :
  (forall state e state',
      P state -> In e (nextEdges (supergraphPath state)) ->
      step state schema e = Some (Ok state') -> P state') ->
  forall n stack x,
    Forall (fun o => exists state, o = Built state /\ P state) stack ->
    loop n stack = Some (Throw x) ->
    exists state e,
      P state /\ In e (nextEdges (supergraphPath state))
      /\ step state schema e = Some (Throw x).
Proof.
  intros Hpres. induction n as [|n IH]; intros [|o stack] x HP H; simpl in H;
    try discriminate.
  inversion HP as [|? ? (state & -> & Hstate) Hstack]; subst.
  destruct (handleState advance advanceSim fuel schema (Built state) stack)
    as [[s|y]|] eqn:E; simpl in H; try discriminate.
  - apply (IH s x); [|exact H].
    unfold handleState in E. apply handleEdges_pushed in E.
    destruct E as (pushed & -> & HF). apply Forall_app. split; [|exact Hstack].
    apply Forall_map.
    eapply Forall_impl; [|exact HF]. intros s' (e & He & Hs & _). eauto.
  - injection H as ->. unfold handleState in E. apply handleEdges_throw in E.
    destruct E as (before & edge & after & Heq & _ & Hx).
    exists state, edge. repeat split; auto. rewrite Heq. apply in_elt.
Qed.

End Traversal.

(** * Properties of the entry points *)

Lemma outEdges_unconditioned (g : Graph) (v : Vertex) (e : Edge) :
  unconditioned g -> In e (outEdges g v) -> e_conditions e = None.
Proof.
  unfold unconditioned, outEdges. intros Hu He.
  destruct (nth_in_or_default (v_index v) (g_adjacencies g) []) as [Hin|Heq].
  - exact (Hu _ _ Hin He).
  - rewrite Heq in He. destruct He.
Qed.

Lemma hasAnyEdgeConditions_false {T : Type} (path : GraphPath T) (e : Edge) :
  hasAnyEdgeConditions path = false ->
  In e (map fst (p_steps path)) -> e_conditions e = None.
Proof.
  unfold hasAnyEdgeConditions. intros H He.
  apply in_map_iff in He. destruct He as (s & <- & Hs).
  destruct (e_conditions (fst s)) eqn:E; [|reflexivity].
  assert (Ht : existsb (fun s => match e_conditions (fst s) with
                                 | Some _ => true | None => false end)
                       (p_steps path) = true).
  { apply existsb_exists. exists s. rewrite E. auto. }
  congruence.
Qed.

Section EntryPoints.

Variable fedRootName : SchemaRootKind -> string.
Variable advance :
  RootPath Transition -> Transition -> NamedType -> ConditionResolver ->
  option (list (RootPath Transition)).
Variable advanceSim :
  option Schema -> list OpGraphPath -> OperationElement -> ConditionResolver ->
  ExcludedEdges -> option (list (list OpGraphPath)).

Lemma rootKinds_registered (g : Graph) (kind : SchemaRootKind) :
  In kind (rootKinds g) -> exists v, graph_root g kind = Some v.
Proof.
  unfold rootKinds, graph_root.
  induction (g_rootVertices g) as [|[k v] roots IH]; simpl; [intros []|].
  intros [<-|H].
  - exists v. now destruct k.
  - destruct (SchemaRootKind_eqb kind k); eauto.
Qed.

Lemma seedStack_Ok (supergraph subgraphs : Graph) (P : StateObject -> Prop) :
  forall kinds,
    (forall kind o, In kind kinds ->
                    initial fedRootName supergraph kind subgraphs = Ok o -> P o) ->
    forall stack stack',
      Forall P stack ->
      seedStack fedRootName supergraph subgraphs kinds stack = Ok stack' ->
      Forall P stack'.
Proof.
  induction kinds as [|k ks IH]; intros Hinit stack stack' HP H; simpl in H.
  - now injection H as <-.
  - apply bindRes_Ok_inv in H. destruct H as (state & Hs & H).
    apply (IH (fun kind o Hk => Hinit kind o (or_intror Hk)) (state :: stack));
      [|exact H].
    constructor; [|exact HP]. apply (Hinit k); [left; reflexivity | exact Hs].
Qed.

(** The objects the constructor of the traversal seeds are states over a
    supergraph path: the kinds are those the supergraph has a root for. *)
Lemma seedStack_Built (supergraph subgraphs : Graph) (P : ValidationState -> Prop) :
  (forall kind state,
      initial fedRootName supergraph kind subgraphs = Ok (Built state) -> P state) ->
  forall stack,
    seedStack fedRootName supergraph subgraphs (rootKinds supergraph) [] = Ok stack ->
    Forall (fun o => exists state, o = Built state /\ P state) stack.
Proof.
  intros Hinit stack H.
  eapply seedStack_Ok; [|constructor|exact H].
  intros kind o Hk Ho. destruct (rootKinds_registered _ _ Hk) as (v & Hv).
  destruct (initial_registered _ _ _ _ Hv Ho) as (state & ->).
  exists state. split; [reflexivity | eauto].
Qed.

Lemma seedStack_Throw (supergraph subgraphs : Graph) (x : Exn) :
  forall kinds stack,
    seedStack fedRootName supergraph subgraphs kinds stack = Throw x ->
    exists kind, initial fedRootName supergraph kind subgraphs = Throw x.
Proof.
  induction kinds as [|k ks IH]; intros stack H; simpl in H; [discriminate|].
  destruct (initial fedRootName supergraph k subgraphs) eqn:E; simpl in H.
  - eauto.
  - injection H as ->. eauto.
Qed.

(** The two ways the traversal throws: while seeding the stack, or in a
    transition from a state over the supergraph. *)
Lemma traverse_Throw (fuel n : nat) (supergraph subgraphs : Graph) (x : Exn) :
  traverse fedRootName advance advanceSim fuel n supergraph subgraphs = Some (Throw x) ->
  (exists kind, initial fedRootName supergraph kind subgraphs = Throw x)
  \/ (exists state e,
         p_graph (supergraphPath state) = supergraph
         /\ In e (nextEdges (supergraphPath state))
         /\ validateTransition advance advanceSim fuel state (firstSource supergraph) e
            = Some (Throw x)).
Proof.
  unfold traverse, newValidationTaversal, lift. intros H.
  destruct (seedStack fedRootName supergraph subgraphs (rootKinds supergraph) [])
    as [stack|y] eqn:E; simpl in H.
  - right.
    apply validate_throw_origin
      with (P := fun state => p_graph (supergraphPath state) = supergraph) in H.
    + exact H.
    + intros state e state' HP _ Hs. apply validateTransition_Ok_inv in Hs.
      destruct Hs as (_ & -> & _). exact HP.
    + apply (@seedStack_Built supergraph subgraphs); [|exact E].
      intros kind state Hi. apply initial_inv in Hi.
      destruct Hi as (sroot & root & _ & _ & _ & -> & _). reflexivity.
  - injection H as ->. left. eapply seedStack_Throw; eauto.
Qed.

Lemma replayEdges_Throw (fuel : nat) (schema : option Schema) (edges : list Edge)
      (x : Exn) :
  forall o,
    replayEdges advance advanceSim fuel schema edges o = Some (Throw x) ->
    exists o' e,
      In e edges
      /\ transitionFrom advance advanceSim fuel o' schema e = Some (Throw x).
Proof.
  induction edges as [|e es IH]; simpl; intros o H; [discriminate|].
  destruct (transitionFrom advance advanceSim fuel o schema e)
    as [[st|y]|] eqn:E; simpl in H; try discriminate.
  - destruct (IH _ H) as (o' & e' & He' & Hx). eauto.
  - injection H as ->. eauto.
Qed.

Lemma validateGraphComposition_cases (fuel n : nat) (supergraph subgraphs : Graph) :
  validateGraphComposition fedRootName advance advanceSim fuel n supergraph subgraphs
  = match traverse fedRootName advance advanceSim fuel n supergraph subgraphs with
    | None => None
    | Some (Ok _) => Some (Ok {| error := None |})
    | Some (Throw x) =>
        match x with
        | ValidationErrorExn e => Some (Ok {| error := Some e |})
        | _ => Some (Throw x)
        end
    end.
Proof.
  unfold validateGraphComposition.
  destruct (traverse _ _ _ _ _ _ _) as [[u|[e|m|m]]|]; reflexivity.
Qed.

(** C9: [validateTransition] on an edge with conditions, and
    [computeSubgraphPaths] on a path with edge conditions, fail an
    assertion, which is not caught as a [ValidationError]; the two
    assertions do not fail on an edge, on a path or on a supergraph
    without conditions. *)
Theorem conditioned_edges_rejected :
  (forall fuel this schema edge conditions,
      e_conditions edge = Some conditions ->
      validateTransition advance advanceSim fuel this schema edge
      = Some (Throw (AssertionError msgEdgeConditions)))
  /\ (forall fuel path subgraphs,
         hasAnyEdgeConditions path = true ->
         computeSubgraphPaths fedRootName advance advanceSim fuel path subgraphs
         = Some (Throw (AssertionError msgPathConditions)))
  /\ (forall fuel this schema edge,
         e_conditions edge = None ->
         validateTransition advance advanceSim fuel this schema edge
         <> Some (Throw (AssertionError msgEdgeConditions)))
  /\ (forall fuel path subgraphs,
         hasAnyEdgeConditions path = false ->
         computeSubgraphPaths fedRootName advance advanceSim fuel path subgraphs
         <> Some (Throw (AssertionError msgPathConditions))
         /\ computeSubgraphPaths fedRootName advance advanceSim fuel path subgraphs
            <> Some (Throw (AssertionError msgEdgeConditions)))
  /\ (forall fuel n supergraph subgraphs,
         unconditioned supergraph ->
         validateGraphComposition fedRootName advance advanceSim fuel n
                                  supergraph subgraphs
         <> Some (Throw (AssertionError msgEdgeConditions))).
Proof.
  assert (Hstep : forall fuel this schema edge,
             e_conditions edge = None ->
             validateTransition advance advanceSim fuel this schema edge
             <> Some (Throw (AssertionError msgEdgeConditions))).
  { intros fuel this schema edge Hc H.
    apply validateTransition_Throw_inv in H.
    destruct H as [[Hne _]|[_ [(e & He & _)|[H|H]]]]; try discriminate.
    contradiction. }
  repeat apply conj.
  - intros fuel this schema edge conditions Hc.
    unfold validateTransition. now rewrite Hc.
  - intros fuel path subgraphs Hc.
    unfold computeSubgraphPaths, replay. now rewrite Hc.
  - exact Hstep.
  - intros fuel path subgraphs Hc.
    assert (Hreplay : forall x,
               replay fedRootName advance advanceSim fuel path subgraphs = Some (Throw x) ->
               x <> AssertionError msgPathConditions
               /\ x <> AssertionError msgEdgeConditions).
    { intros x H. unfold replay in H. rewrite Hc in H. simpl in H.
      destruct (v_rootKind (p_root path)) as [kind|]; simpl in H;
        [|injection H as <-; split; discriminate].
      destruct (initial fedRootName (p_graph path) kind subgraphs) as [st0|y] eqn:Ei;
        simpl in H.
      - apply replayEdges_Throw in H. destruct H as (o' & e & He & Hx).
        pose proof (hasAnyEdgeConditions_false _ _ Hc He) as Hnone.
        destruct o' as [state'|]; simpl in Hx;
          [|rewrite Hnone in Hx; injection Hx as <-; split; discriminate].
        split; [|intros ->; exact (Hstep _ _ _ _ Hnone Hx)].
        apply validateTransition_Throw_inv in Hx.
        destruct Hx as [[Hne _]|[_ [(e' & -> & _)|[->| ->]]]];
          [contradiction | discriminate ..].
      - injection H as ->. apply initial_throws in Ei.
        destruct Ei as [->|[->|[->| ->]]]; split; discriminate. }
    unfold computeSubgraphPaths.
    destruct (replay fedRootName advance advanceSim fuel path subgraphs)
      as [[st|x]|] eqn:E; [split; discriminate | | split; discriminate].
    destruct (Hreplay x eq_refl) as [H1 H2].
    destruct x as [e|m|m]; split; intros H; try discriminate;
      injection H as ->; contradiction.
  - intros fuel n supergraph subgraphs Hu H.
    rewrite validateGraphComposition_cases in H.
    destruct (traverse _ _ _ _ _ _ _) as [[u|x]|] eqn:E; try discriminate.
    destruct x as [e|m|m]; try discriminate. injection H as ->.
    apply traverse_Throw in E. destruct E as [(kind & Hi)|(state & e & Hg & He & Hx)].
    + apply initial_throws in Hi.
      destruct Hi as [Hi|[Hi|[Hi|Hi]]]; discriminate.
    + unfold nextEdges in He. rewrite Hg in He.
      apply (Hstep _ _ _ _ (outEdges_unconditioned _ _ Hu He) Hx).
Qed.

(** C10: a [ValidationError] thrown by [validateTransition] carries the
    supergraph path of the state extended by the edge, which has at least
    one edge, together with the candidates before the step and the
    witness built from that path; so the assertion of
    [buildWitnessOperation] fails neither in [validateTransition] nor in
    [validateGraphComposition], and every error the latter returns
    carries a path with at least one edge. *)
Theorem validation_error_path_nonempty :
  (forall fuel this schema edge e,
      validateTransition advance advanceSim fuel this schema edge
      = Some (Throw (ValidationErrorExn e)) ->
      supergraphUnsatisfiablePath e
      = pathAdd (supergraphPath this) (e_transition edge) edge
      /\ pathSize (supergraphUnsatisfiablePath e) = S (pathSize (supergraphPath this))
      /\ subgraphsPaths e = subgraphPaths this
      /\ buildWitnessOperation (supergraphUnsatisfiablePath e) = Ok (witness e))
  /\ (forall fuel this schema edge,
         validateTransition advance advanceSim fuel this schema edge
         <> Some (Throw (AssertionError msgEmptyPath)))
  /\ (forall fuel n supergraph subgraphs,
         validateGraphComposition fedRootName advance advanceSim fuel n
                                  supergraph subgraphs
         <> Some (Throw (AssertionError msgEmptyPath)))
  /\ (forall fuel n supergraph subgraphs e,
         validateGraphComposition fedRootName advance advanceSim fuel n
                                  supergraph subgraphs
         = Some (Ok {| error := Some e |}) ->
         0 < pathSize (supergraphUnsatisfiablePath e)
         /\ buildWitnessOperation (supergraphUnsatisfiablePath e) = Ok (witness e)).
Proof.
  assert (Hve : forall fuel this schema edge e,
             validateTransition advance advanceSim fuel this schema edge
             = Some (Throw (ValidationErrorExn e)) ->
             supergraphUnsatisfiablePath e
             = pathAdd (supergraphPath this) (e_transition edge) edge
             /\ pathSize (supergraphUnsatisfiablePath e) = S (pathSize (supergraphPath this))
             /\ subgraphsPaths e = subgraphPaths this
             /\ buildWitnessOperation (supergraphUnsatisfiablePath e) = Ok (witness e)).
  { intros fuel this schema edge e H. apply validateTransition_Throw_inv in H.
    destruct H as [[_ H]|[_ [(e' & He & Hu & Hw & _)|[H|H]]]]; try discriminate.
    injection He as <-. rewrite Hu. simpl. rewrite pathSize_add. auto. }
  assert (Hstep : forall fuel this schema edge,
             validateTransition advance advanceSim fuel this schema edge
             <> Some (Throw (AssertionError msgEmptyPath))).
  { intros fuel this schema edge H. apply validateTransition_Throw_inv in H.
    destruct H as [[_ H]|[_ [(e' & He & _)|[H|H]]]]; discriminate. }
  repeat apply conj.
  - exact Hve.
  - exact Hstep.
  - intros fuel n supergraph subgraphs H.
    rewrite validateGraphComposition_cases in H.
    destruct (traverse _ _ _ _ _ _ _) as [[u|x]|] eqn:E; try discriminate.
    destruct x as [e|m|m]; try discriminate. injection H as ->.
    apply traverse_Throw in E. destruct E as [(kind & Hi)|(state & e & _ & _ & Hx)].
    + apply initial_throws in Hi.
      destruct Hi as [Hi|[Hi|[Hi|Hi]]]; discriminate.
    + exact (Hstep _ _ _ _ Hx).
  - intros fuel n supergraph subgraphs e H.
    rewrite validateGraphComposition_cases in H.
    destruct (traverse _ _ _ _ _ _ _) as [[u|x]|] eqn:E; try discriminate.
    destruct x as [e'|m|m]; try discriminate. injection H as ->.
    apply traverse_Throw in E. destruct E as [(kind & Hi)|(state & ed & _ & _ & Hx)].
    + apply initial_throws in Hi. destruct Hi as [Hi|[Hi|[Hi|Hi]]]; discriminate.
    + destruct (Hve _ _ _ _ _ Hx) as (_ & Hsz & _ & Hw). split; [lia | exact Hw].
Qed.

End EntryPoints.

Section Composition.

Variable fedRootName : SchemaRootKind -> string.
Variable advance :
  RootPath Transition -> Transition -> NamedType -> ConditionResolver ->
  option (list (RootPath Transition)).
Variable advanceSim :
  option Schema -> list OpGraphPath -> OperationElement -> ConditionResolver ->
  ExcludedEdges -> option (list (list OpGraphPath)).

(** C1: [validateGraphComposition] returns an object without [error]
    when the traversal completes, returns the [ValidationError] the
    traversal throws as the field [error], and throws what the traversal
    throws otherwise; and when, after iterations that did not throw, the
    first failing transition of the state on top of the stack throws [x],
    that [x] decides the result, for every iteration budget under which
    the function completes. *)
Theorem validateGraphComposition_result (fuel n : nat) (supergraph subgraphs : Graph) :
  let run := validateGraphComposition fedRootName advance advanceSim fuel in
  let outcome x :=
    match x with
    | ValidationErrorExn e => Ok {| error := Some e |}
    | _ => Throw x
    end in
  (forall u, traverse fedRootName advance advanceSim fuel n supergraph subgraphs
             = Some (Ok u) ->
             run n supergraph subgraphs = Some (Ok {| error := None |}))
  /\ (forall e, traverse fedRootName advance advanceSim fuel n supergraph subgraphs
                = Some (Throw (ValidationErrorExn e)) ->
                run n supergraph subgraphs = Some (Ok {| error := Some e |}))
  /\ (forall x, isValidationError x = false ->
                traverse fedRootName advance advanceSim fuel n supergraph subgraphs
                = Some (Throw x) ->
                run n supergraph subgraphs = Some (Throw x))
  /\ (forall t state rest edge x,
         newValidationTaversal fedRootName supergraph subgraphs = Ok t ->
         Reaches advance advanceSim fuel (vt_supergraphSchema t)
                 (vt_stack t) (Built state :: rest) ->
         FirstFailure advance advanceSim fuel (vt_supergraphSchema t) state edge x ->
         (exists m, run m supergraph subgraphs = Some (outcome x))
         /\ (forall r, run n supergraph subgraphs = Some r -> r = outcome x)).
Proof.
  intros run outcome. unfold run.
  repeat apply conj.
  - intros u H. rewrite validateGraphComposition_cases, H. reflexivity.
  - intros e H. rewrite validateGraphComposition_cases, H. reflexivity.
  - intros x Hx H. rewrite validateGraphComposition_cases, H.
    destruct x; [discriminate | reflexivity ..].
  - intros t state rest edge x Ht Hreach Hfail.
    destruct (validate_first_failure Hreach Hfail) as (m & Hm).
    assert (Htr : forall k, traverse fedRootName advance advanceSim fuel k supergraph subgraphs
                            = validate advance advanceSim fuel (vt_supergraphSchema t) k
                                       (vt_stack t)).
    { intros k. unfold traverse. rewrite Ht. reflexivity. }
    split.
    + exists m. rewrite validateGraphComposition_cases, Htr, Hm.
      destruct x; reflexivity.
    + intros r Hr. rewrite validateGraphComposition_cases, Htr in Hr.
      destruct (validate advance advanceSim fuel (vt_supergraphSchema t) n (vt_stack t))
        as [r0|] eqn:En; [|discriminate].
      assert (Hdet : r0 = Throw x) by (eapply validate_deterministic; eauto).
      subst r0. destruct x; now injection Hr as <-.
Qed.

End Composition.

(** * Properties of the condition validator *)

Lemma pushAll_rev {A : Type} (xs stack : list A) : pushAll xs stack = rev xs ++ stack.
Proof.
  unfold pushAll. revert stack. induction xs as [|x xs IH]; intros stack; simpl.
  - reflexivity.
  - rewrite IH, <- app_assoc. reflexivity.
Qed.

Lemma list_sum_rev (l : list nat) : list_sum (rev l) = list_sum l.
Proof.
  induction l as [|x l IH]; simpl; [reflexivity|].
  rewrite list_sum_app, IH. simpl. lia.
Qed.

Lemma selectionSize_subSelections (s : Selection) :
  selectionSize s = S (list_sum (map selectionSize (subSelections s))).
Proof.
  unfold subSelections.
  destruct s as [f [[t sels]|]|e [[t sels]|]]; simpl; try reflexivity;
    f_equal; induction sels as [|x l IH]; simpl; congruence.
Qed.

Lemma selectionSetSize_selections (ss : SelectionSet) :
  selectionSetSize ss = list_sum (map selectionSize (selections ss)).
Proof.
  destruct ss as [t sels]. simpl.
  induction sels as [|x l IH]; simpl; congruence.
Qed.

Lemma stackWeight_pushAll (sels : list Selection) (paths : list (list OpGraphPath))
      (stack : list ConditionValidationState) :
  stackWeight
    (pushAll (map (fun s => {| cvs_selection := s; cvs_subgraphPaths := paths |}) sels)
             stack)
  = list_sum (map selectionSize sels) + stackWeight stack.
Proof.
  unfold stackWeight. rewrite pushAll_rev, map_app, list_sum_app, map_rev, list_sum_rev.
  rewrite map_map. reflexivity.
Qed.

Section ConditionValidator.

Variable advanceSim :
  option Schema -> list OpGraphPath -> OperationElement -> ConditionResolver ->
  ExcludedEdges -> option (list (list OpGraphPath)).
Variable validateConditionsRec :
  option Schema -> SelectionSet -> OpGraphPath -> ExcludedEdges -> option CondResult.
Variable schema : option Schema.
Variable excludedEdges : ExcludedEdges.

Local Abbreviation advanced state :=
  (advanceCurrentSelection advanceSim validateConditionsRec state schema excludedEdges).
Local Abbreviation current state :=
  (validateCurrentSelection advanceSim validateConditionsRec state schema excludedEdges).
Local Abbreviation cloop :=
  (conditionLoop advanceSim validateConditionsRec schema excludedEdges).
Local Abbreviation popped :=
  (Popped advanceSim validateConditionsRec schema excludedEdges).

Lemma validateCurrentSelection_null (state : ConditionValidationState) :
  current state = Some SelectedNull <-> advanced state = Some [].
Proof.
  unfold validateCurrentSelection.
  destruct (advanced state) as [[|p ps]|]; simpl; split; intros H;
    try discriminate; reflexivity.
Qed.

Lemma validateCurrentSelection_states (state : ConditionValidationState)
      (newPaths : list (list OpGraphPath)) :
  advanced state = Some newPaths -> newPaths <> [] ->
  current state
  = Some (SelectedStates
            (map (fun s => {| cvs_selection := s; cvs_subgraphPaths := newPaths |})
                 (subSelections (cvs_selection state)))).
Proof.
  unfold validateCurrentSelection, subSelections. intros -> Hne.
  destruct newPaths as [|p ps]; [contradiction|]. simpl.
  destruct (sel_selectionSet (cvs_selection state)); reflexivity.
Qed.

Lemma validateCurrentSelection_states_inv (state : ConditionValidationState)
      (newStates : list ConditionValidationState) :
  current state = Some (SelectedStates newStates) ->
  exists newPaths,
    advanced state = Some newPaths /\ newPaths <> []
    /\ newStates
       = map (fun s => {| cvs_selection := s; cvs_subgraphPaths := newPaths |})
             (subSelections (cvs_selection state)).
Proof.
  intros H. destruct (advanced state) as [newPaths|] eqn:E.
  - destruct newPaths as [|p ps].
    + apply validateCurrentSelection_null in E. congruence.
    + exists (p :: ps). split; [reflexivity|]. split; [discriminate|].
      rewrite (validateCurrentSelection_states _ E) in H by discriminate.
      now injection H as <-.
  - unfold validateCurrentSelection in H. rewrite E in H. discriminate.
Qed.

(** One iteration takes one selection off the weight of the stack. *)
Lemma stackWeight_step (state : ConditionValidationState)
      (stack newStates : list ConditionValidationState) :
  current state = Some (SelectedStates newStates) ->
  S (stackWeight (pushAll newStates stack)) = stackWeight (state :: stack).
Proof.
  intros H. apply validateCurrentSelection_states_inv in H.
  destruct H as (newPaths & _ & _ & ->).
  rewrite stackWeight_pushAll. unfold stackWeight. simpl.
  rewrite (selectionSize_subSelections (cvs_selection state)). lia.
Qed.

Lemma conditionLoop_null (n : nat) :
  forall stack,
    cloop n stack = Some Null ->
    exists state, popped stack state /\ current state = Some SelectedNull.
Proof.
  induction n as [|n IH]; intros [|state stack] H; simpl in H; try discriminate.
  destruct (current state) as [[|newStates]|] eqn:E; try discriminate.
  - exists state. split; [constructor | exact E].
  - destruct (IH _ H) as (state' & Hp & Hs). exists state'.
    split; [econstructor; eauto | exact Hs].
Qed.

Lemma conditionLoop_popped_null (stack : list ConditionValidationState)
      (state : ConditionValidationState) :
  popped stack state ->
  current state = Some SelectedNull ->
  forall n,
    (forall r, cloop n stack = Some r -> r = Null)
    /\ (stackWeight stack <= n -> cloop n stack = Some Null).
Proof.
  induction 1 as [state stack|state stack newStates state' Hs _ IH]; intros Hnull n.
  - destruct n as [|n]; simpl.
    + split; [discriminate|]. unfold stackWeight. simpl.
      rewrite selectionSize_subSelections. lia.
    + rewrite Hnull. split; [congruence | reflexivity].
  - destruct n as [|n]; simpl.
    + split; [discriminate|]. unfold stackWeight. simpl.
      rewrite selectionSize_subSelections. lia.
    + rewrite Hs. destruct (IH Hnull n) as [Hr Hn]. split; [exact Hr|].
      intros Hw. apply Hn.
      pose proof (@stackWeight_step state stack newStates Hs) as Hstep. lia.
Qed.

Lemma conditionLoop_undefined (n : nat) :
  forall stack,
    cloop n stack = Some Undefined ->
    forall state, popped stack state ->
      exists newPaths, advanced state = Some newPaths /\ newPaths <> [].
Proof.
  intros stack H state Hp. revert n H.
  induction Hp as [state stack|state stack newStates state' Hs _ IH]; intros n H;
    destruct n as [|n]; simpl in H; try discriminate.
  - destruct (current state) as [[|newStates]|] eqn:E; try discriminate.
    apply validateCurrentSelection_states_inv in E.
    destruct E as (newPaths & Ha & Hne & _). eauto.
  - rewrite Hs in H. eauto.
Qed.

Lemma conditionLoop_all_advance (n : nat) :
  forall stack,
    stackWeight stack <= n ->
    (forall state, popped stack state ->
       exists newPaths, advanced state = Some newPaths /\ newPaths <> []) ->
    cloop n stack = Some Undefined.
Proof.
  induction n as [|n IH]; intros [|state stack] Hw Hall; simpl; try reflexivity.
  - exfalso. unfold stackWeight in Hw. simpl in Hw.
    rewrite selectionSize_subSelections in Hw. lia.
  - destruct (Hall state (Popped_top _ _ _ _ _ _)) as (newPaths & Ha & Hne).
    pose proof (validateCurrentSelection_states _ Ha Hne) as Hs. rewrite Hs.
    apply IH.
    + pose proof (@stackWeight_step state stack _ Hs) as Hstep. lia.
    + intros state' Hp. apply Hall. econstructor; eauto.
Qed.

End ConditionValidator.

Section ConditionResult.

Variable advanceSim :
  option Schema -> list OpGraphPath -> OperationElement -> ConditionResolver ->
  ExcludedEdges -> option (list (list OpGraphPath)).


End ConditionResult.

(** * The loop of the traversal, stack by stack *)

Section LoopOnStacks.

Variable advance :
  RootPath Transition -> Transition -> NamedType -> ConditionResolver ->
  option (list (RootPath Transition)).
Variable advanceSim :
  option Schema -> list OpGraphPath -> OperationElement -> ConditionResolver ->
  ExcludedEdges -> option (list (list OpGraphPath)).
Variable fuel : nat.
Variable schema : option Schema.

Local Abbreviation handle := (handleEdges advance advanceSim fuel schema).
Local Abbreviation pop := (handleState advance advanceSim fuel schema).
Local Abbreviation loop := (validate advance advanceSim fuel schema).

Lemma validate_nil (k : nat) : loop k [] = Some (Ok tt).
Proof. destruct k; reflexivity. Qed.

Lemma handleState_frame (o : StateObject) (stack : list StateObject) :
  pop o stack
  = match pop o [] with
    | Some (Ok pushed) => Some (Ok (pushed ++ stack))
    | Some (Throw x) => Some (Throw x)
    | None => None
    end.
Proof.
  destruct o as [state|]; [|reflexivity]. unfold handleState.
  exact (handleEdges_frame _ _ _ _ _ _ [] stack).
Qed.

Lemma validate_cons (k : nat) (o : StateObject) (stack : list StateObject) :
  loop (S k) (o :: stack)
  = match pop o [] with
    | Some (Ok pushed) => loop k (pushed ++ stack)
    | Some (Throw x) => Some (Throw x)
    | None => None
    end.
Proof.
  cbn [validate]. rewrite handleState_frame.
  destruct (pop o []) as [[pushed|x]|]; reflexivity.
Qed.

(** Running the loop on two stacks, one on top of the other. *)
Lemma validate_app (k1 : nat) :
  forall top bottom,
    (forall x, loop k1 top = Some (Throw x) -> loop k1 (top ++ bottom) = Some (Throw x))
    /\ (forall u k2 r, loop k1 top = Some (Ok u) -> loop k2 bottom = Some r ->
                       loop (k1 + k2) (top ++ bottom) = Some r).
Proof.
  induction k1 as [|k1 IH]; intros [|o top] bottom.
  - split; [discriminate|]. intros u k2 r _ H. exact H.
  - split; discriminate.
  - rewrite validate_nil. split; [discriminate|]. intros u k2 r _ H.
    apply validate_le with (n := k2); [lia | exact H].
  - cbn [app Nat.add]. split.
    + intros x. rewrite !validate_cons.
      destruct (pop o []) as [[pushed|y]|]; auto.
      rewrite app_assoc. apply IH.
    + intros u k2 r. rewrite !validate_cons.
      destruct (pop o []) as [[pushed|y]|]; try discriminate.
      rewrite app_assoc. apply IH.
Qed.

End LoopOnStacks.

(** * The statements at the example federation *)

Lemma initial_state_witness :
  graph_root Example.supergraph query = Some Example.sQuery
  /\ initial Example.federatedGraphRootTypeName Example.supergraph query
             Example.subgraphs
     = Ok (Built (initialState Example.supergraph Example.subgraphs
                               Example.sQuery Example.fRoot))
  /\ initial Example.federatedGraphRootTypeName Example.supergraph query
             Example.subgraphsRootless
     = Throw (AssertionError (msgNoRoot (Some query))).
Proof.
  split; [reflexivity|]. split.
  - apply (@initial_state Example.federatedGraphRootTypeName Example.supergraph
                          Example.subgraphs query Example.sQuery eq_refl).
    + reflexivity.
    + reflexivity.
    + repeat constructor.
  - apply (@initial_state Example.federatedGraphRootTypeName Example.supergraph
                          Example.subgraphsRootless query Example.sQuery eq_refl).
    reflexivity.
Defined.

Lemma ValidationState_invariant_witness :
  stateInvariant
    {| supergraphPath := Example.mePath;
       subgraphPaths := [pathCreate Example.subgraphs Example.aUser] |}
  /\ newValidationState Example.mePath [pathCreate Example.subgraphs Example.aUser]
     = Ok {| supergraphPath := Example.mePath;
             subgraphPaths := [pathCreate Example.subgraphs Example.aUser] |}.
Proof.
  assert (H : stateInvariant
                {| supergraphPath := Example.mePath;
                   subgraphPaths := [pathCreate Example.subgraphs Example.aUser] |}).
  { repeat constructor. }
  split; [exact H|].
  destruct (ValidationState_invariant Example.federatedGraphRootTypeName
              Example.advancePathWithTransition
              Example.advanceSimultaneousPathsWithOperation) as (_ & Hok & _).
  apply Hok. exact H.
Defined.

Lemma validateTransition_step_witness :
  validateTransition Example.advancePathWithTransition
                     Example.advanceSimultaneousPathsWithOperation
                     3 Example.userState (Some Example.schema) Example.sName
  = Some (Ok {| supergraphPath :=
                  pathAdd Example.mePath (FieldCollection Example.fName) Example.sName;
                subgraphPaths :=
                  [pathAdd Example.userCandidate (FieldCollection Example.fName)
                           Example.aName] |})
  /\ validateTransition Example.advancePathWithTransition
                        Example.advanceSimultaneousPathsWithOperation
                        3 Example.userState (Some Example.schema) Example.sEmail
     = Some (Throw (ValidationErrorExn Example.emailError)).
Proof.
  split.
  - apply (@validateTransition_step Example.advancePathWithTransition
             Example.advanceSimultaneousPathsWithOperation
             3 Example.userState (Some Example.schema) Example.sName
             [pathAdd Example.userCandidate (FieldCollection Example.fName) Example.aName]
             eq_refl eq_refl).
    + discriminate.
    + repeat constructor.
  - apply (@validateTransition_step Example.advancePathWithTransition
             Example.advanceSimultaneousPathsWithOperation
             3 Example.userState (Some Example.schema) Example.sEmail
             [] eq_refl eq_refl).
    + reflexivity.
    + reflexivity.
Defined.

Lemma unconditioned_supergraphWithEmail : unconditioned Example.supergraphWithEmail.
Proof.
  intros edges e Hedges He. simpl in Hedges.
  repeat (destruct Hedges as [<-|Hedges];
          [simpl in He; repeat (destruct He as [<-|He]; [reflexivity|]); destruct He|]).
  destruct Hedges.
Qed.

Lemma conditioned_edges_rejected_witness :
  validateTransition Example.advancePathWithTransition
                     Example.advanceSimultaneousPathsWithOperation
                     3 Example.userState (Some Example.schema) Example.conditionedEdge
  = Some (Throw (AssertionError msgEdgeConditions))
  /\ validateGraphComposition Example.federatedGraphRootTypeName
                              Example.advancePathWithTransition
                              Example.advanceSimultaneousPathsWithOperation
                              3 10 Example.supergraphWithEmail Example.subgraphs
     <> Some (Throw (AssertionError msgEdgeConditions)).
Proof.
  destruct (conditioned_edges_rejected Example.federatedGraphRootTypeName
              Example.advancePathWithTransition
              Example.advanceSimultaneousPathsWithOperation)
    as (Hedge & _ & _ & _ & Hrun).
  split.
  - apply (Hedge 3 Example.userState (Some Example.schema) Example.conditionedEdge
                 (MkSelectionSet Example.tUser [])).
    reflexivity.
  - apply Hrun. exact unconditioned_supergraphWithEmail.
Defined.

Lemma validation_error_path_nonempty_witness :
  pathSize (supergraphUnsatisfiablePath Example.emailError) = 2
  /\ buildWitnessOperation Example.emailPath = Ok Example.emailWitness.
Proof.
  destruct (validation_error_path_nonempty Example.federatedGraphRootTypeName
              Example.advancePathWithTransition
              Example.advanceSimultaneousPathsWithOperation)
    as (Hstep & _).
  destruct (Hstep 3 Example.userState (Some Example.schema) Example.sEmail
                  Example.emailError eq_refl) as (_ & Hsize & _ & Hw).
  split; [exact Hsize | exact Hw].
Defined.

Lemma validateGraphComposition_result_witness :
  validateGraphComposition Example.federatedGraphRootTypeName
                           Example.advancePathWithTransition
                           Example.advanceSimultaneousPathsWithOperation
                           3 10 Example.supergraph Example.subgraphs
  = Some (Ok {| error := None |})
  /\ validateGraphComposition Example.federatedGraphRootTypeName
                              Example.advancePathWithTransition
                              Example.advanceSimultaneousPathsWithOperation
                              3 10 Example.supergraphWithEmail Example.subgraphs
     = Some (Ok {| error := Some Example.emailError |})
  /\ validateGraphComposition Example.federatedGraphRootTypeName
                              Example.advancePathWithTransition
                              Example.advanceSimultaneousPathsWithOperation
                              3 10 Example.supergraph Example.subgraphsRenamed
     = Some (Throw (AssertionError msgInvalidState)).
Proof.
  repeat apply conj.
  - apply (validateGraphComposition_result Example.federatedGraphRootTypeName
             Example.advancePathWithTransition
             Example.advanceSimultaneousPathsWithOperation
             3 10 Example.supergraph Example.subgraphs) with (u := tt).
    reflexivity.
  - apply (validateGraphComposition_result Example.federatedGraphRootTypeName
             Example.advancePathWithTransition
             Example.advanceSimultaneousPathsWithOperation
             3 10 Example.supergraphWithEmail Example.subgraphs).
    reflexivity.
  - apply (validateGraphComposition_result Example.federatedGraphRootTypeName
             Example.advancePathWithTransition
             Example.advanceSimultaneousPathsWithOperation
             3 10 Example.supergraph Example.subgraphsRenamed).
    + reflexivity.
    + reflexivity.
Defined.


(** * Further properties of the value generator *)

Lemma containsNull_object (obj : JsObject) :
  containsNull (JObject obj) = false <->
  Forall (fun kv => containsNull (snd kv) = false) obj.
Proof.
  simpl. induction obj as [|[k x] obj IH]; simpl.
  - split; [constructor | reflexivity].
  - rewrite orb_false_iff, IH. split.
    + intros [Hx Hobj]. constructor; assumption.
    + intros H. inversion H; subst. auto.
Qed.

Lemma setProp_Forall (P : string * JsValue -> Prop) (k : string) (v : JsValue)
      (obj : JsObject) :
  P (k, v) -> Forall P obj -> Forall P (setProp k v obj).
Proof.
  intros Hv. induction 1 as [|[k' v'] obj Hkv Hobj IH]; simpl.
  - repeat constructor. exact Hv.
  - destruct (String.eqb k k'); constructor; assumption.
Qed.

(** X1: no value the generator returns contains [null], at any depth
    (the source: "None of our generated witness values are null"). *)
Theorem generateWitnessValue_never_null (t : InputType) (v : JsValue) :
  generateWitnessValue t = Ok v -> containsNull v = false.
Proof.
  revert v. induction t as [name|name values|name fields IH|t IH|t IH]
    using InputType_nested_ind; intros v H.
  - simpl in H. repeat match type of H with
                  | context [if ?c then _ else _] => destruct c
                  end; injection H as <-; reflexivity.
  - destruct values; simpl in H; [discriminate | injection H as <-; reflexivity].
  - rewrite generateWitnessValue_input_object in H.
    assert (Hobj : Forall (fun kv : string * JsValue => containsNull (snd kv) = false) [])
      by constructor.
    revert H Hobj. generalize (@nil (string * JsValue)).
    induction IH as [|[n ty d] fs Hty _ IHfs]; intros obj H Hobj; simpl in H.
    + injection H as <-. now apply containsNull_object.
    + destruct (truthyOpt d || isNullableType ty); [eauto|].
      apply bindRes_Ok_inv in H. destruct H as (x & Hx & H).
      apply (IHfs _ H). apply setProp_Forall; [|exact Hobj].
      simpl. apply Hty. exact Hx.
  - injection H as <-. reflexivity.
  - simpl in H. auto.
Qed.

Lemma generateWitnessValue_never_null_witness :
  generateWitnessValue scenarioInput = Ok (JObject [("field", JString "A string value")])
  /\ containsNull (JObject [("field", JString "A string value")]) = false.
Proof.
  split; [reflexivity|].
  apply (generateWitnessValue_never_null scenarioInput). reflexivity.
Defined.

Lemma generateWitnessValue_witnessable (t : InputType) :
  (witnessable t = true -> exists v, generateWitnessValue t = Ok v)
  /\ (witnessable t = false ->
      generateWitnessValue t = Throw (TypeError undefinedProperty)).
Proof.
  induction t as [name|name values|name fields IH|t IH|t IH]
    using InputType_nested_ind.
  - split; [|discriminate]. intros _. simpl.
    repeat match goal with
           | |- context [if ?c then _ else _] => destruct c
           end; eauto.
  - destruct values; simpl; split; try discriminate; eauto.
  - rewrite generateWitnessValue_input_object. simpl witnessable.
    generalize (@nil (string * JsValue)).
    induction IH as [|[n ty d] fs Hty _ IHfs]; intros obj.
    + split; [simpl; eauto | discriminate].
    + simpl in Hty. destruct Hty as [Hok Hthrow].
      cbn [witnessFields].
      destruct (truthyOpt d || isNullableType ty) eqn:Eskip; cbn [orb andb].
      * apply IHfs.
      * destruct (witnessable ty) eqn:Ew; cbn [andb].
        -- destruct (Hok eq_refl) as (x & ->). simpl. apply IHfs.
        -- rewrite (Hthrow eq_refl). simpl. split; [discriminate | reflexivity].
  - split; [simpl; eauto | discriminate].
  - simpl. exact IH.
Qed.

(** X2: the value generator returns a value exactly when no enum type
    without values lies on its way, below non-null wrappers and kept fields;
    otherwise it throws the [TypeError] of reading [values[0].name]. A list
    type and a skipped field stop the descent. *)
Theorem generateWitnessValue_returns_iff (t : InputType) :
  ((exists v, generateWitnessValue t = Ok v) <-> witnessable t = true)
  /\ (witnessable t = false <->
      generateWitnessValue t = Throw (TypeError undefinedProperty)).
Proof.
  destruct (generateWitnessValue_witnessable t) as [Hok Hthrow]. split; split.
  - intros (v & Hv). destruct (witnessable t) eqn:E; [reflexivity|].
    rewrite (Hthrow eq_refl) in Hv. discriminate.
  - exact Hok.
  - exact Hthrow.
  - intros Ht. destruct (witnessable t) eqn:E; [|reflexivity].
    destruct (Hok eq_refl) as (v & Hv). congruence.
Qed.

Lemma witnessFields_as_arguments (fields : list InputFieldDefinition) :
  forall obj,
    witnessFields fields obj
    = (args <- witnessArguments
                 (map (fun f => {| arg_name := if_name f; arg_type := if_type f |})
                      (keptFields fields)) obj ;;
       Ok (JObject args)).
Proof.
  unfold keptFields, keptField.
  induction fields as [|[n ty d] fs IH]; intros obj; simpl; [reflexivity|].
  destruct (truthyOpt d || isNullableType ty); simpl; [apply IH|].
  destruct (generateWitnessValue ty); simpl; [apply IH | reflexivity].
Qed.

(** X3: the object generated for an input object type holds a property
    exactly for the names of the kept fields (non-null type, default value
    absent or falsy), each name once; when those names are distinct, the
    properties are in declaration order, each bound to the value generated
    for the type of its field. *)
Theorem generateWitnessValue_object_properties (name : string)
        (fields : list InputFieldDefinition) (v : JsValue) :
  generateWitnessValue (InputObjectType name fields) = Ok v ->
  exists obj,
    v = JObject obj
    /\ (forall k, In k (keys obj) <-> In k (map if_name (keptFields fields)))
    /\ NoDup (keys obj)
    /\ (NoDup (map if_name (keptFields fields)) ->
        Forall2 propertyFor (keptFields fields) obj).
Proof.
  rewrite generateWitnessValue_input_object, witnessFields_as_arguments.
  intros H. apply bindRes_Ok_inv in H. destruct H as (obj & Hobj & H).
  injection H as <-. exists obj. split; [reflexivity|].
  destruct (witnessArguments_entries _ _ Hobj) as (_ & Hall & Hincl & Hnd & Hexact).
  rewrite map_map in Hincl, Hexact. simpl in Hincl, Hexact.
  repeat split.
  - intros Hk. destruct (Hincl k Hk) as [[]|Hin]. exact Hin.
  - intros Hk. apply in_map_iff in Hk. destruct Hk as (f & <- & Hf).
    apply (Hall {| arg_name := if_name f; arg_type := if_type f |}).
    apply in_map_iff. eauto.
  - apply Hnd. constructor.
  - intros Hn. destruct (Hexact Hn) as (entries & -> & HF). simpl.
    clear - HF. remember (keptFields fields) as kept. clear Heqkept.
    revert entries HF. induction kept as [|f kept IH]; intros entries HF;
      inversion HF; subst; constructor; auto.
Qed.

Lemma generateWitnessValue_object_properties_witness :
  exists obj,
    JObject [("limit", JNumber 0)] = JObject obj
    /\ (forall k, In k (keys obj) <-> In k ["limit"]).
Proof.
  destruct (@generateWitnessValue_object_properties
              "Paging"
              [MkInputField "limit" (NonNullType (ScalarType "Int")) (Some (JNumber 0))]
              (JObject [("limit", JNumber 0)]) eq_refl)
    as (obj & Hv & Hkeys & _).
  exists obj. split; [exact Hv | exact Hkeys].
Defined.

(** * Further properties of the witness builder *)

Lemma bindRes_Ok_r {A : Type} (c : Res A) : bindRes c (fun a => Ok a) = c.
Proof. destruct c; reflexivity. Qed.

Lemma buildWitnessFrom_filter (edges remaining : list Edge) :
  buildWitnessFrom edges remaining
  = buildWitnessFrom edges (filter isSyntaxEdge remaining).
Proof.
  induction remaining as [|e rem IH]; [reflexivity|].
  unfold isSyntaxEdge at 1. cbn [filter buildWitnessFrom].
  destruct (e_transition e) eqn:Et; cbn [buildWitnessFrom]; rewrite ?Et, IH;
    try reflexivity; apply bindRes_Ok_r.
Qed.

Lemma buildWitnessFrom_last (edges edges' remaining : list Edge) :
  lastTailType edges = lastTailType edges' ->
  buildWitnessFrom edges remaining = buildWitnessFrom edges' remaining.
Proof.
  intros Hlast. induction remaining as [|e rem IH]; simpl.
  - now rewrite Hlast.
  - now rewrite IH.
Qed.

(** X4: key-resolution and free-transition edges are transparent for the
    whole witness: two paths with at least one edge, the same root kind, the
    same tail type and the same field and downcast edges, in order, have the
    same witness operation, or fail alike. *)
Theorem buildWitnessOperation_transparent (p q : RootPath Transition) :
  0 < pathSize p -> 0 < pathSize q ->
  v_rootKind (p_root p) = v_rootKind (p_root q) ->
  v_type (pathTail p) = v_type (pathTail q) ->
  filter isSyntaxEdge (map fst (elements p)) = filter isSyntaxEdge (map fst (elements q)) ->
  buildWitnessOperation p = buildWitnessOperation q.
Proof.
  intros Hp Hq Hkind Htail Hsyntax. unfold buildWitnessOperation.
  apply Nat.ltb_lt in Hp as Hpb. apply Nat.ltb_lt in Hq as Hqb.
  rewrite Hpb, Hqb, Hkind. simpl.
  unfold buildWitnessNextStep. simpl.
  rewrite (buildWitnessFrom_filter (map fst (elements p))).
  rewrite (buildWitnessFrom_filter (map fst (elements q))).
  rewrite Hsyntax.
  rewrite (@buildWitnessFrom_last (map fst (elements p)) (map fst (elements q)));
    [reflexivity|].
  now rewrite !lastTailType_pathTail, Htail.
Qed.

Lemma buildWitnessOperation_transparent_witness :
  buildWitnessOperation ExampleWitness.emailPathViaKey
  = buildWitnessOperation Example.emailPath.
Proof.
  apply buildWitnessOperation_transparent;
    [vm_compute; lia | vm_compute; lia | reflexivity | reflexivity | reflexivity].
Defined.

Lemma spine_nonempty (ss : SelectionSet) : spine ss <> [].
Proof. destruct ss; discriminate. Qed.

Lemma buildWitnessFrom_spine (edges : list Edge) (lastType : NamedType) :
  lastTailType edges = Ok lastType ->
  forall remaining ss,
    buildWitnessFrom edges remaining = Ok ss ->
    spineOpt ss
    = map (fun e => (v_type (e_head e), 1)) (filter isSyntaxEdge remaining)
      ++ (if isLeafType lastType then [] else [(lastType, 0)]).
Proof.
  intros Hlast. induction remaining as [|e rem IH]; intros ss H; simpl in H.
  - rewrite Hlast in H. simpl in H. injection H as <-.
    destruct (isLeafType lastType); reflexivity.
  - apply bindRes_Ok_inv in H. destruct H as (sub & Hsub & H).
    specialize (IH _ Hsub). cbn [filter]. unfold isSyntaxEdge at 1.
    remember (map (fun e => (v_type (e_head e), 1)) (filter isSyntaxEdge rem)
              ++ (if isLeafType lastType then [] else [(lastType, 0)])) as rest.
    destruct (e_transition e) eqn:Et.
    + apply bindRes_Ok_inv in H. destruct H as (f & _ & H). injection H as <-.
      cbn [map app]. rewrite <- Heqrest, <- IH. destruct sub; reflexivity.
    + injection H as <-.
      cbn [map app]. rewrite <- Heqrest, <- IH. destruct sub; reflexivity.
    + injection H as <-. rewrite <- Heqrest. exact IH.
    + injection H as <-. rewrite <- Heqrest. exact IH.
Qed.

(** X5: down the witness operation, the selection sets are one per field
    or downcast edge of the path, in order, each on the type of the head of
    its edge and holding one selection, followed by the empty selection set
    on the tail type unless that type is a leaf; so the operation has no
    selection set exactly when the path has no such edge and ends on a
    leaf type. *)
Theorem buildWitnessOperation_spine (path : RootPath Transition) (op : Operation) :
  buildWitnessOperation path = Ok op ->
  let edges := map fst (elements path) in
  let tailType := v_type (pathTail path) in
  spineOpt (op_selectionSet op)
  = map (fun e => (v_type (e_head e), 1)) (filter isSyntaxEdge edges)
    ++ (if isLeafType tailType then [] else [(tailType, 0)])
  /\ (op_selectionSet op = None <->
      filter isSyntaxEdge edges = [] /\ isLeafType tailType = true).
Proof.
  intros H edges tailType. unfold buildWitnessOperation in H.
  destruct (0 <? pathSize path) eqn:Hpos; simpl in H; [|discriminate].
  apply Nat.ltb_lt in Hpos.
  apply bindRes_Ok_inv in H. destruct H as (ss & Hss & H). injection H as <-. simpl.
  unfold buildWitnessNextStep in Hss. simpl in Hss.
  pose proof (@buildWitnessFrom_spine _ _ (lastTailType_pathTail path Hpos) _ _ Hss)
    as Hspine.
  fold edges tailType in Hspine. split; [exact Hspine|].
  split.
  - intros ->. simpl in Hspine. symmetry in Hspine.
    apply app_eq_nil in Hspine. destruct Hspine as [Hm Hl].
    split.
    + destruct (filter isSyntaxEdge edges); [reflexivity | discriminate].
    + destruct (isLeafType tailType); [reflexivity | discriminate].
  - intros [Hf Hl]. rewrite Hf, Hl in Hspine. simpl in Hspine.
    destruct ss as [ss|]; [|reflexivity].
    exfalso. exact (spine_nonempty ss Hspine).
Qed.

Lemma buildWitnessOperation_spine_witness :
  spineOpt (op_selectionSet Example.emailWitness)
  = [(Example.tQuery, 1); (Example.tUser, 1)].
Proof.
  exact (proj1 (@buildWitnessOperation_spine Example.emailPath Example.emailWitness
                  eq_refl)).
Defined.

Lemma buildWitnessField_witnessable (definition : FieldDefinition) :
  (fieldWitnessable definition = true -> exists f, buildWitnessField definition = Ok f)
  /\ (fieldWitnessable definition = false ->
      buildWitnessField definition = Throw (TypeError undefinedProperty)).
Proof.
  unfold buildWitnessField, fieldWitnessable.
  generalize (@nil (string * JsValue)).
  induction (fd_arguments definition) as [|a ds IH]; intros args; cbn [forallb].
  - split; [simpl; eauto | discriminate].
  - cbn [witnessArguments].
    destruct (generateWitnessValue_witnessable (arg_type a)) as [Hok Hthrow].
    destruct (witnessable (arg_type a)); cbn [andb].
    + destruct (Hok eq_refl) as (v & ->). simpl. apply IH.
    + rewrite (Hthrow eq_refl). simpl. split; [discriminate | reflexivity].
Qed.

Lemma buildWitnessFrom_witnessable (edges : list Edge) (lastType : NamedType) :
  lastTailType edges = Ok lastType ->
  forall remaining,
    (forallb edgeWitnessable remaining = true ->
     exists ss, buildWitnessFrom edges remaining = Ok ss)
    /\ (forallb edgeWitnessable remaining = false ->
        buildWitnessFrom edges remaining = Throw (TypeError undefinedProperty)).
Proof.
  intros Hlast. induction remaining as [|e rem [IHok IHthrow]]; cbn [forallb].
  - simpl. rewrite Hlast. simpl. split; [eauto | discriminate].
  - cbn [buildWitnessFrom]. unfold edgeWitnessable at 1 3.
    destruct (forallb edgeWitnessable rem) eqn:Erem.
    + destruct (IHok eq_refl) as (sub & ->). simpl. rewrite andb_true_r.
      destruct (e_transition e) as [definition|src casted| |]; try (split; [eauto | discriminate]).
      destruct (buildWitnessField_witnessable definition) as [Hok Hthrow].
      destruct (fieldWitnessable definition).
      * destruct (Hok eq_refl) as (f & ->). simpl. split; [eauto | discriminate].
      * rewrite (Hthrow eq_refl). simpl. split; [discriminate | reflexivity].
    + rewrite (IHthrow eq_refl), andb_false_r. simpl.
      split; [discriminate | reflexivity].
Qed.

(** The operation of a path with at least one edge is built exactly when
    the arguments of the fields collected along it can be given a value. *)
Lemma buildWitnessOperation_built (path : RootPath Transition) :
  0 < pathSize path ->
  (exists op, buildWitnessOperation path = Ok op) <->
  forallb edgeWitnessable (map fst (elements path)) = true.
Proof.
  intros Hpos. unfold buildWitnessOperation.
  apply Nat.ltb_lt in Hpos as Hb. rewrite Hb. simpl.
  destruct (@buildWitnessFrom_witnessable _ _ (lastTailType_pathTail path Hpos)
              (map fst (elements path))) as [Hok Hthrow].
  unfold buildWitnessNextStep. simpl.
  destruct (forallb edgeWitnessable (map fst (elements path))).
  - destruct (Hok eq_refl) as (ss & ->). simpl. split; eauto.
  - rewrite (Hthrow eq_refl). simpl. split; [intros (op & Hop)|]; discriminate.
Qed.

(** C6: for a failing path with at least one edge, the witness operation
    has the root kind of the root of the path; its selection set is the
    result of the step function at index 0; at every edge of the path a
    [FieldCollection] contributes a field selection for the field
    definition, a [DownCast] a fragment on the casted type, and
    [KeyResolution] and [FreeTransition] pass the inner selection through;
    past the last edge the inner selection is absent when the tail type is a
    leaf and the empty selection set on that type otherwise; the field of a
    field selection holds one entry per declared argument. The operation is
    built exactly when the arguments of every field collected along the
    path can be given a value, and the field of a field collection exactly
    when its own arguments can. *)
Theorem witness_operation_shape (path : RootPath Transition) :
  0 < pathSize path ->
  let edges := map fst (elements path) in
  (forall op, buildWitnessOperation path = Ok op ->
     op_rootKind op = v_rootKind (p_root path)
     /\ buildWitnessNextStep edges 0 = Ok (op_selectionSet op)
     /\ op_variableDefinitions op = [])
  /\ (forall index edge, nth_error edges index = Some edge ->
        buildWitnessNextStep edges index =
          (subSelection <- buildWitnessNextStep edges (S index) ;;
           match e_transition edge with
           | DownCast sourceType type =>
               Ok (Some (MkSelectionSet (v_type (e_head edge))
                           [FragmentSelection
                              {| fe_sourceType := sourceType;
                                 fe_typeCondition := t_name type |}
                              subSelection]))
           | FieldCollection definition =>
               f <- buildWitnessField definition ;;
               Ok (Some (MkSelectionSet (v_type (e_head edge))
                           [FieldSelection f subSelection]))
           | FreeTransition | KeyResolution => Ok subSelection
           end))
  /\ (forall index, pathSize path <= index ->
        buildWitnessNextStep edges index =
          Ok (if isLeafType (v_type (pathTail path)) then None
              else Some (newSelectionSet (v_type (pathTail path)))))
  /\ (forall definition f, buildWitnessField definition = Ok f ->
        f_definition f = definition
        /\ (forall a, In a (fd_arguments definition) ->
                      exists v, getProp (arg_name a) (f_args f) = Some v)
        /\ (forall k, In k (keys (f_args f)) ->
                      In k (map arg_name (fd_arguments definition)))
        /\ NoDup (keys (f_args f))
        /\ (NoDup (map arg_name (fd_arguments definition)) ->
            Forall2 entryFor (fd_arguments definition) (f_args f)))
  /\ ((exists op, buildWitnessOperation path = Ok op) <->
      forallb edgeWitnessable edges = true)
  /\ (forall definition,
        (exists f, buildWitnessField definition = Ok f) <->
        fieldWitnessable definition = true).
Proof.
  intros Hpos edges. repeat apply conj.
  - intros op H. unfold buildWitnessOperation in H.
    apply bindRes_Ok_inv in H. destruct H as ([] & _ & H).
    apply bindRes_Ok_inv in H. destruct H as (ss & Hss & H).
    injection H as <-. simpl. auto.
  - intros index edge. apply buildWitnessNextStep_edge.
  - intros index. now apply buildWitnessNextStep_end.
  - intros definition f. apply buildWitnessField_entries.
  - intros Hop. now apply (buildWitnessOperation_built path Hpos).
  - intros Hall. now apply (buildWitnessOperation_built path Hpos).
  - intros definition.
    destruct (buildWitnessField_witnessable definition) as [Hok Hthrow].
    split; [|exact Hok]. intros (f & Hf).
    destruct (fieldWitnessable definition); [reflexivity|].
    rewrite (Hthrow eq_refl) in Hf. discriminate.
Qed.

Lemma witness_operation_shape_witness :
  0 < pathSize Example.emailPath
  /\ (exists op,
        buildWitnessOperation Example.emailPath = Ok op
        /\ op_rootKind op = Some query
        /\ buildWitnessNextStep (map fst (elements Example.emailPath)) 0
           = Ok (op_selectionSet op))
  /\ buildWitnessNextStep (map fst (elements Example.emailPath)) 2 = Ok None
  /\ (exists f,
        buildWitnessField Example.fMe = Ok f
        /\ f_definition f = Example.fMe
        /\ exists v, getProp "id" (f_args f) = Some v).
Proof.
  assert (Hpos : 0 < pathSize Example.emailPath) by (vm_compute; lia).
  split; [exact Hpos|].
  destruct (witness_operation_shape Example.emailPath Hpos)
    as (Hop & _ & Hend & Hfield & Hbuilt & Hfields).
  split; [|split].
  - destruct (proj2 Hbuilt eq_refl) as (op & Hbuild).
    exists op. destruct (Hop op Hbuild) as (Hkind & Hss & _). auto.
  - apply (Hend 2). vm_compute. lia.
  - destruct (proj2 (Hfields Example.fMe) eq_refl) as (f & Hf).
    exists f. destruct (Hfield Example.fMe f Hf) as (Hdef & Hargs & _).
    split; [exact Hf|]. split; [exact Hdef|].
    destruct (Hargs {| arg_name := "id"; arg_type := NonNullType (ScalarType "ID") |})
      as (v & Hv); [left; reflexivity|].
    exists v. exact Hv.
Defined.

(** X6: [buildWitnessOperation] fails its assertion exactly on a path
    without edges; on a path with edges it returns an operation exactly when
    the arguments of every field collected along the path can be given a
    value, and throws a [TypeError] otherwise. *)
Theorem buildWitnessOperation_returns_iff (path : RootPath Transition) :
  let edges := map fst (elements path) in
  (buildWitnessOperation path = Throw (AssertionError msgEmptyPath) <-> pathSize path = 0)
  /\ ((exists op, buildWitnessOperation path = Ok op) <->
      0 < pathSize path /\ forallb edgeWitnessable edges = true)
  /\ (buildWitnessOperation path = Throw (TypeError undefinedProperty) <->
      0 < pathSize path /\ forallb edgeWitnessable edges = false).
Proof.
  intros edges. subst edges. unfold buildWitnessOperation.
  destruct (0 <? pathSize path) eqn:Hpos; simpl.
  - apply Nat.ltb_lt in Hpos.
    destruct (@buildWitnessFrom_witnessable _ _ (lastTailType_pathTail path Hpos)
                (map fst (elements path))) as [Hok Hthrow].
    unfold buildWitnessNextStep. simpl.
    destruct (forallb edgeWitnessable (map fst (elements path))).
    + destruct (Hok eq_refl) as (ss & ->). simpl.
      split; [split; [discriminate | lia]|].
      split; [split; [auto | eauto]|].
      split; [discriminate | intros [_ Hf]; discriminate].
    + rewrite (Hthrow eq_refl). simpl.
      split; [split; [discriminate | lia]|].
      split; [split; [intros (op & Hop); discriminate | intros [_ Hf]; discriminate]|].
      split; auto.
  - apply Nat.ltb_ge in Hpos.
    split; [split; [lia | reflexivity]|].
    split; [split; [intros (op & Hop); discriminate | lia]|].
    split; [discriminate | lia].
Qed.

Lemma buildWitnessOperation_returns_iff_witness :
  buildWitnessOperation ExampleWitness.brokenPath = Throw (TypeError undefinedProperty).
Proof.
  apply (proj2 (proj2 (buildWitnessOperation_returns_iff ExampleWitness.brokenPath))).
  split; [vm_compute; lia | reflexivity].
Defined.

(** * Further properties of the traversal *)

Section FurtherTraversal.

Variable advance :
  RootPath Transition -> Transition -> NamedType -> ConditionResolver ->
  option (list (RootPath Transition)).
Variable advanceSim :
  option Schema -> list OpGraphPath -> OperationElement -> ConditionResolver ->
  ExcludedEdges -> option (list (list OpGraphPath)).
Variable fuel : nat.
Variable schema : option Schema.

Local Abbreviation step := (validateTransition advance advanceSim fuel).
Local Abbreviation handle := (handleEdges advance advanceSim fuel schema).
Local Abbreviation loop := (validate advance advanceSim fuel schema).

(** X7: [handleState] returns normally exactly when the transition along
    every out-edge of the supergraph path returns a state; the new stack is
    the old one, untouched, below the successors that are neither terminal
    nor cycled, the successor along the last edge on top. *)
Theorem handleState_stack (state : ValidationState) (stack stack' : list StateObject) :
  handleState advance advanceSim fuel schema (Built state) stack = Some (Ok stack') <->
  exists successors,
    Forall2 (fun e s => step state schema e = Some (Ok s))
            (nextEdges (supergraphPath state)) successors
    /\ stack' = map Built (rev (filter keepSuccessor successors)) ++ stack.
Proof.
  unfold handleState. generalize (nextEdges (supergraphPath state)) as edges.
  intros edges. revert stack stack'.
  induction edges as [|e es IH]; intros acc stack'; simpl.
  - split.
    + intros H. injection H as <-. exists []. split; [constructor | reflexivity].
    + intros (successors & HF & ->). inversion HF. reflexivity.
  - destruct (step state schema e) as [[s|x]|] eqn:E; simpl.
    + fold (keepSuccessor s). split.
      * intros H. destruct (keepSuccessor s) eqn:Ek; apply IH in H;
          destruct H as (successors & HF & ->); exists (s :: successors);
          (split; [constructor; assumption|]); simpl; rewrite Ek; simpl;
          [now rewrite map_app, <- app_assoc | reflexivity].
      * intros (successors & HF & ->).
        inversion HF as [|? s' ? successors' Hs HF']; subst.
        assert (s' = s) by congruence. subst s'. simpl.
        destruct (keepSuccessor s) eqn:Ek; apply IH; exists successors';
          (split; [assumption|]); simpl;
          [now rewrite map_app, <- app_assoc | reflexivity].
    + split; [discriminate|]. intros (successors & HF & _).
      inversion HF; subst. congruence.
    + split; [discriminate|]. intros (successors & HF & _).
      inversion HF; subst. congruence.
Qed.

Lemma handleEdges_Ok_all (state : ValidationState) (edges : list Edge) :
  forall acc stack',
    handle state edges acc = Some (Ok stack') ->
    forall e, In e edges -> exists s, step state schema e = Some (Ok s).
Proof.
  induction edges as [|e es IH]; intros acc stack' H e' He'; [destruct He'|].
  simpl in H. destruct (step state schema e) as [[s|x]|] eqn:E; simpl in H;
    try discriminate.
  destruct He' as [<-|He']; [eauto|].
  destruct (negb _ && negb _); eapply IH; eauto.
Qed.

Lemma validate_Ok_Reaches (stack stack' : list StateObject) :
  Reaches advance advanceSim fuel schema stack stack' ->
  forall n u, loop n stack = Some (Ok u) -> exists m, loop m stack' = Some (Ok u).
Proof.
  induction 1 as [stack|state stack stack' stack'' Hh _ IH]; intros n u Hn; [eauto|].
  destruct n as [|n]; simpl in Hn; [discriminate|].
  rewrite Hh in Hn. simpl in Hn. eauto.
Qed.

(** X8: when the loop of [validate] completes without throwing, the
    transition along every out-edge of the supergraph path of every state
    it pops returned a state, whose subgraph paths are not empty and lead
    to the type of the tail of that edge. *)
Theorem validate_sound (n : nat) (stack : list StateObject) (u : unit)
        (state : ValidationState) (rest : list StateObject) (e : Edge) :
  loop n stack = Some (Ok u) ->
  Reaches advance advanceSim fuel schema stack (Built state :: rest) ->
  In e (nextEdges (supergraphPath state)) ->
  exists s,
    step state schema e = Some (Ok s)
    /\ subgraphPaths s <> []
    /\ towardsTarget e (subgraphPaths s).
Proof.
  intros Hn Hreach He.
  destruct (validate_Ok_Reaches Hreach _ Hn) as (m & Hm).
  destruct m as [|m]; cbn [validate] in Hm; [discriminate|].
  destruct (handleState advance advanceSim fuel schema (Built state) rest)
    as [[s'|x]|] eqn:Eh; simpl in Hm; try discriminate.
  unfold handleState in Eh.
  destruct (handleEdges_Ok_all _ _ _ Eh e He) as (s & Hs).
  exists s. split; [exact Hs|].
  apply validateTransition_Ok_inv in Hs.
  destruct Hs as (_ & Hpath & _ & Hne & Hinv).
  split; [exact Hne|].
  unfold towardsTarget. unfold stateInvariant in Hinv.
  rewrite Hpath, pathTail_add in Hinv. exact Hinv.
Qed.

(** The result of the loop on one stack on top of another, from the
    result on the whole. *)
Lemma validate_app_inv (n : nat) :
  forall top bottom r,
    loop n (top ++ bottom) = Some r ->
    (exists x, r = Throw x /\ loop n top = Some (Throw x))
    \/ (loop n top = Some (Ok tt) /\ loop n bottom = Some r).
Proof.
  induction n as [|n IH]; intros [|o top] bottom r H.
  - right. split; [reflexivity | exact H].
  - discriminate.
  - right. split; [reflexivity | exact H].
  - cbn [app] in H. rewrite validate_cons in H. rewrite validate_cons.
    destruct (handleState advance advanceSim fuel schema o []) as [[pushed|x]|];
      try discriminate.
    + rewrite app_assoc in H. destruct (IH _ _ _ H) as [(x & -> & Hx)|[Htop Hbottom]].
      * left. eauto.
      * right. split; [exact Htop | now apply validate_S].
    + injection H as <-. left. eauto.
Qed.

(** X9: the states of a stack are validated independently of one another:
    the loop completes without throwing exactly when it does so on each
    state alone, and it throws [x] exactly when it throws [x] on some state
    alone while completing on each state above it. *)
Theorem validate_independent (stack : list StateObject) :
  ((exists n, loop n stack = Some (Ok tt)) <->
   Forall (fun state => exists n, loop n [state] = Some (Ok tt)) stack)
  /\ (forall x,
        (exists n, loop n stack = Some (Throw x)) <->
        exists above state below,
          stack = above ++ state :: below
          /\ Forall (fun s => exists n, loop n [s] = Some (Ok tt)) above
          /\ exists n, loop n [state] = Some (Throw x)).
Proof.
  induction stack as [|state stack [IHok IHthrow]].
  - split.
    + split; [constructor | exists 0; reflexivity].
    + intros x. split.
      * intros (n & H). rewrite validate_nil in H. discriminate.
      * intros (above & s & below & H & _). destruct above; discriminate.
  - split.
    + split.
      * intros (n & H). change (state :: stack) with ([state] ++ stack) in H.
        destruct (validate_app_inv _ _ _ H) as [(x & Hx & _)|[Htop Hbottom]];
          [discriminate|].
        constructor; [eauto | apply IHok; eauto].
      * intros H. inversion H as [|? ? (n1 & Hn1) Hrest]; subst.
        apply IHok in Hrest. destruct Hrest as (n2 & Hn2).
        exists (n1 + n2). change (state :: stack) with ([state] ++ stack).
        eapply validate_app; eauto.
    + intros x. split.
      * intros (n & H). change (state :: stack) with ([state] ++ stack) in H.
        destruct (validate_app_inv _ _ _ H) as [(y & Hy & Htop)|[Htop Hbottom]].
        -- injection Hy as <-. exists [], state, stack.
           split; [reflexivity|]. split; [constructor | eauto].
        -- destruct (proj1 (IHthrow x) (ex_intro _ n Hbottom))
             as (above & s & below & -> & Habove & Hs).
           exists (state :: above), s, below.
           split; [reflexivity|]. split; [constructor; eauto | exact Hs].
      * intros (above & s & below & Heq & Habove & (n & Hn)).
        destruct above as [|a above]; simpl in Heq; injection Heq as -> ->.
        -- exists n. change (s :: below) with ([s] ++ below). now apply validate_app.
        -- inversion Habove as [|? ? (n1 & Hn1) Habove']; subst.
           assert (Hrest : exists n2, loop n2 (above ++ s :: below) = Some (Throw x)).
           { apply IHthrow. exists above, s, below. eauto. }
           destruct Hrest as (n2 & Hn2). exists (n1 + n2).
           change (a :: above ++ s :: below) with ([a] ++ above ++ s :: below).
           eapply validate_app; eauto.
Qed.

End FurtherTraversal.

(** * Further properties of the entry points *)

Lemma lookupRoot_In (kind : SchemaRootKind) (roots : list (SchemaRootKind * Vertex))
      (v : Vertex) :
  lookupRoot kind roots = Some v -> In (kind, v) roots.
Proof.
  induction roots as [|[k w] roots IH]; simpl; [discriminate|].
  destruct (SchemaRootKind_eqb kind k) eqn:E.
  - intros H. injection H as ->. left. destruct kind, k; try discriminate; reflexivity.
  - intros H. right. auto.
Qed.

Lemma last_default {A : Type} (l : list A) (a d d' : A) :
  last (a :: l) d = last (a :: l) d'.
Proof.
  revert a. induction l as [|b l IH]; intros a; [reflexivity|].
  exact (IH b).
Qed.

Lemma walkFrom_add (g : Graph) (steps : list (Edge * Transition)) (e : Edge) :
  forall v,
    walkFrom g v steps ->
    In e (outEdges g (last (v :: map (fun s => e_tail (fst s)) steps) v)) ->
    walkFrom g v (steps ++ [(e, e_transition e)]).
Proof.
  induction steps as [|[e0 t0] steps IH]; intros v Hw He.
  - simpl in *. auto.
  - destruct Hw as (Hin & Ht & Hw). cbn [app walkFrom]. repeat split; auto.
    apply IH; [exact Hw|].
    rewrite (last_default _ _ (e_tail e0) v).
    exact He.
Qed.

Lemma hasAnyEdgeConditions_add {T : Type} (p : GraphPath T) (t : T) (e : Edge) :
  hasAnyEdgeConditions p = false -> e_conditions e = None ->
  hasAnyEdgeConditions (pathAdd p t e) = false.
Proof.
  unfold hasAnyEdgeConditions, pathAdd. cbn [p_steps]. intros Hp He.
  rewrite existsb_app, Hp. simpl. now rewrite He.
Qed.

Section Replay.

Variable fedRootName : SchemaRootKind -> string.
Variable advance :
  RootPath Transition -> Transition -> NamedType -> ConditionResolver ->
  option (list (RootPath Transition)).
Variable advanceSim :
  option Schema -> list OpGraphPath -> OperationElement -> ConditionResolver ->
  ExcludedEdges -> option (list (list OpGraphPath)).
Variable fuel : nat.

Local Abbreviation step := (validateTransition advance advanceSim fuel).

Lemma replayEdges_app (schema : option Schema) (edges : list Edge) (e : Edge) :
  forall o,
    replayEdges advance advanceSim fuel schema (edges ++ [e]) o
    = (o' <~ replayEdges advance advanceSim fuel schema edges o ;;
       s <~ transitionFrom advance advanceSim fuel o' schema e ;;
       Some (Ok (Built s))).
Proof.
  induction edges as [|e0 es IH]; intros o; simpl.
  - destruct (transitionFrom advance advanceSim fuel o schema e) as [[s|x]|];
      reflexivity.
  - destruct (transitionFrom advance advanceSim fuel o schema e0) as [[s|x]|];
      simpl; auto.
Qed.

(** What exploring from an initial state keeps. *)
Lemma Explored_invariant (supergraph subgraphs : Graph) (sroot root : Vertex)
      (state : ValidationState) :
  let init := initialState supergraph subgraphs sroot root in
  Explored advance advanceSim fuel (firstSource supergraph) init state ->
  p_graph (supergraphPath state) = supergraph
  /\ p_root (supergraphPath state) = sroot
  /\ hasAnyEdgeConditions (supergraphPath state) = false
  /\ walkFrom supergraph sroot (p_steps (supergraphPath state))
  /\ replayEdges advance advanceSim fuel (firstSource supergraph)
                 (map fst (p_steps (supergraphPath state))) (Built init)
     = Some (Ok (Built state)).
Proof.
  intros init. induction 1 as [|state e state' _ IH He Hs].
  - repeat split.
  - destruct IH as (Hg & Hr & Hc & Hw & Hreplay).
    apply validateTransition_Ok_inv in Hs as Hinv.
    destruct Hinv as (Hce & Hpath & _).
    rewrite Hpath. unfold pathAdd at 1 2 4 5. cbn [p_graph p_root p_steps].
    repeat split; auto.
    + now apply hasAnyEdgeConditions_add.
    + apply walkFrom_add; [exact Hw|].
      unfold nextEdges, pathTail, pathVertices in He. rewrite Hg, Hr in He. exact He.
    + rewrite map_app. simpl. rewrite replayEdges_app, Hreplay. simpl.
      now rewrite Hs.
Qed.

(** X10: replaying with [computeSubgraphPaths] the supergraph path of a
    state explored from an initial state of the traversal returns that very
    state as [traversal], provided the root vertices of the supergraph carry
    the kind they are registered under. *)
Theorem computeSubgraphPaths_explored (supergraph subgraphs : Graph)
        (kind : SchemaRootKind) (init state : ValidationState) :
  rootsLabelled supergraph ->
  initial fedRootName supergraph kind subgraphs = Ok (Built init) ->
  Explored advance advanceSim fuel (firstSource supergraph) init state ->
  computeSubgraphPaths fedRootName advance advanceSim fuel (supergraphPath state) subgraphs
  = Some (Ok {| sp_traversal := Some (Built state); sp_error := None |}).
Proof.
  intros Hlab Hinit Hexp.
  apply initial_inv in Hinit as Hi.
  destruct Hi as (sroot & root & Hsroot & _ & _ & -> & _).
  destruct (Explored_invariant Hexp) as (Hg & Hr & Hc & _ & Hreplay).
  unfold computeSubgraphPaths, replay. rewrite Hc, Hg, Hr. simpl.
  rewrite (Hlab kind sroot (lookupRoot_In _ _ Hsroot)), Hinit. simpl.
  rewrite Hreplay. reflexivity.
Qed.

(** Whatever the traversal throws after seeding its stack is thrown by a
    transition from a state explored from an initial state. *)
Lemma traverse_Throw_explored (n : nat) (supergraph subgraphs : Graph) (x : Exn) :
  traverse fedRootName advance advanceSim fuel n supergraph subgraphs = Some (Throw x) ->
  (exists kind, initial fedRootName supergraph kind subgraphs = Throw x)
  \/ (exists kind init state e,
         initial fedRootName supergraph kind subgraphs = Ok (Built init)
         /\ Explored advance advanceSim fuel (firstSource supergraph) init state
         /\ In e (nextEdges (supergraphPath state))
         /\ step state (firstSource supergraph) e = Some (Throw x)).
Proof.
  unfold traverse, newValidationTaversal, lift. intros H.
  destruct (seedStack fedRootName supergraph subgraphs (rootKinds supergraph) [])
    as [stack|y] eqn:E; simpl in H.
  - right.
    apply validate_throw_origin
      with (P := fun state =>
                   exists kind init,
                     initial fedRootName supergraph kind subgraphs = Ok (Built init)
                     /\ Explored advance advanceSim fuel (firstSource supergraph)
                                 init state) in H.
    + destruct H as (state & e & (kind & init & Hi & Hexp) & He & Hx).
      exists kind, init, state, e. auto.
    + intros state e state' (kind & init & Hi & Hexp) He Hs.
      exists kind, init. split; [exact Hi|]. econstructor; eauto.
    + apply (@seedStack_Built fedRootName supergraph subgraphs); [|exact E].
      intros kind state Hi. exists kind, state. split; [exact Hi | constructor].
  - injection H as ->. left. eapply seedStack_Throw; eauto.
Qed.

Lemma validateGraphComposition_error_inv (n : nat) (supergraph subgraphs : Graph)
      (err : ValidationError) :
  validateGraphComposition fedRootName advance advanceSim fuel n supergraph subgraphs
  = Some (Ok {| error := Some err |}) ->
  exists kind init state e,
    initial fedRootName supergraph kind subgraphs = Ok (Built init)
    /\ Explored advance advanceSim fuel (firstSource supergraph) init state
    /\ In e (nextEdges (supergraphPath state))
    /\ step state (firstSource supergraph) e = Some (Throw (ValidationErrorExn err)).
Proof.
  intros H. rewrite validateGraphComposition_cases in H.
  destruct (traverse _ _ _ _ _ _ _) as [[u|x]|] eqn:E; try discriminate.
  destruct x as [err'|m|m]; try discriminate. injection H as ->.
  apply traverse_Throw_explored in E. destruct E as [(kind & Hi)|H]; [|exact H].
  apply initial_throws in Hi. destruct Hi as [Hi|[Hi|[Hi|Hi]]]; discriminate.
Qed.

(** X11: the path of an error returned by [validateGraphComposition] can
    be replayed: [computeSubgraphPaths] on it returns that same error,
    provided the root vertices of the supergraph carry the kind they are
    registered under. *)
Theorem computeSubgraphPaths_reported_error (n : nat) (supergraph subgraphs : Graph)
        (err : ValidationError) :
  rootsLabelled supergraph ->
  validateGraphComposition fedRootName advance advanceSim fuel n supergraph subgraphs
  = Some (Ok {| error := Some err |}) ->
  computeSubgraphPaths fedRootName advance advanceSim fuel
                       (supergraphUnsatisfiablePath err) subgraphs
  = Some (Ok {| sp_traversal := None; sp_error := Some err |}).
Proof.
  intros Hlab H. apply validateGraphComposition_error_inv in H.
  destruct H as (kind & init & state & e & Hinit & Hexp & He & Hx).
  apply initial_inv in Hinit as Hi.
  destruct Hi as (sroot & root & Hsroot & _ & _ & -> & _).
  destruct (Explored_invariant Hexp) as (Hg & Hr & Hc & _ & Hreplay).
  apply validateTransition_Throw_inv in Hx as Hcases.
  destruct Hcases as [[_ Hcases]|[Hce [(err' & Heq & Hu & _)|[Hcases|Hcases]]]];
    try discriminate.
  injection Heq as <-.
  assert (Hpath : supergraphUnsatisfiablePath err
                  = pathAdd (supergraphPath state) (e_transition e) e)
    by (rewrite Hu; reflexivity).
  unfold computeSubgraphPaths, replay. rewrite Hpath.
  rewrite (@hasAnyEdgeConditions_add _ _ (e_transition e) e Hc Hce).
  unfold pathAdd at 1 2 3. cbn [p_graph p_root p_steps].
  rewrite Hg, Hr. simpl.
  rewrite (Hlab kind sroot (lookupRoot_In _ _ Hsroot)), Hinit. simpl.
  rewrite map_app. simpl. rewrite replayEdges_app, Hreplay. simpl.
  rewrite Hx. reflexivity.
Qed.

(** X12: an error returned by [validateGraphComposition] comes from a state
    explored from the initial state of a root kind and from an out-edge of
    its supergraph path that carries no conditions: the error holds that
    path extended by the edge, a walk in the supergraph from the root of
    that kind, with the subgraph paths of the state, none of which could be
    advanced. *)
Theorem validateGraphComposition_error_origin (n : nat) (supergraph subgraphs : Graph)
        (err : ValidationError) :
  validateGraphComposition fedRootName advance advanceSim fuel n supergraph subgraphs
  = Some (Ok {| error := Some err |}) ->
  exists kind init state e,
    initial fedRootName supergraph kind subgraphs = Ok (Built init)
    /\ Explored advance advanceSim fuel (firstSource supergraph) init state
    /\ In e (nextEdges (supergraphPath state))
    /\ e_conditions e = None
    /\ supergraphUnsatisfiablePath err
       = pathAdd (supergraphPath state) (e_transition e) e
    /\ subgraphsPaths err = subgraphPaths state
    /\ advanceSubgraphPaths advance advanceSim fuel state (firstSource supergraph) e
       = Some []
    /\ p_graph (supergraphUnsatisfiablePath err) = supergraph
    /\ graph_root supergraph kind = Some (p_root (supergraphUnsatisfiablePath err))
    /\ walkFrom supergraph (p_root (supergraphUnsatisfiablePath err))
                (p_steps (supergraphUnsatisfiablePath err)).
Proof.
  intros H. apply validateGraphComposition_error_inv in H.
  destruct H as (kind & init & state & e & Hinit & Hexp & He & Hx).
  exists kind, init, state, e.
  apply initial_inv in Hinit as Hi.
  destruct Hi as (sroot & root & Hsroot & _ & _ & Heqinit & _).
  rewrite Heqinit in Hexp.
  destruct (Explored_invariant Hexp) as (Hg & Hr & Hc & Hw & _).
  rewrite <- Heqinit in Hexp.
  apply validateTransition_Throw_inv in Hx as Hcases.
  destruct Hcases as [[_ Hcases]|[Hce [(err' & Heq & Hu & _ & Hadv)|[Hcases|Hcases]]]];
    try discriminate.
  injection Heq as <-.
  assert (Hpath : supergraphUnsatisfiablePath err
                  = pathAdd (supergraphPath state) (e_transition e) e)
    by (rewrite Hu; reflexivity).
  assert (Hsub : subgraphsPaths err = subgraphPaths state)
    by (rewrite Hu; reflexivity).
  rewrite Hpath, Hsub.
  repeat (split; [solve [auto]|]).
  unfold pathAdd. cbn [p_graph p_root p_steps]. rewrite ?Hg, ?Hr.
  repeat (split; [solve [auto]|]).
  apply walkFrom_add; [exact Hw|].
  unfold nextEdges, pathTail, pathVertices in He. rewrite Hg, Hr in He. exact He.
Qed.

Lemma seedStack_first_failure (supergraph subgraphs : Graph)
      (before after : list SchemaRootKind) (kind : SchemaRootKind) (x : Exn) :
  Forall (fun k => exists s, initial fedRootName supergraph k subgraphs = Ok s) before ->
  initial fedRootName supergraph kind subgraphs = Throw x ->
  forall stack,
    seedStack fedRootName supergraph subgraphs (before ++ kind :: after) stack = Throw x.
Proof.
  intros Hbefore Hx. induction Hbefore as [|k ks (s & Hs) _ IH]; intros stack.
  - simpl. now rewrite Hx.
  - simpl. rewrite Hs. simpl. apply IH.
Qed.

(** X13: when the initial state of a root kind of the supergraph cannot be
    built, and those of the kinds before it can, [validateGraphComposition]
    throws the exception of that kind under every budget, before any
    transition is taken; that exception is an assertion failure or a type
    error, never a validation error to report. *)
Theorem validateGraphComposition_seed_failure (n : nat) (supergraph subgraphs : Graph)
        (before after : list SchemaRootKind) (kind : SchemaRootKind) (x : Exn) :
  rootKinds supergraph = before ++ kind :: after ->
  Forall (fun k => exists s, initial fedRootName supergraph k subgraphs = Ok s) before ->
  initial fedRootName supergraph kind subgraphs = Throw x ->
  validateGraphComposition fedRootName advance advanceSim fuel n supergraph subgraphs
  = Some (Throw x)
  /\ isValidationError x = false.
Proof.
  intros Hkinds Hbefore Hx.
  assert (Hnot : isValidationError x = false).
  { apply initial_throws in Hx. destruct Hx as [-> | [-> | [-> | ->]]]; reflexivity. }
  split; [|exact Hnot].
  rewrite validateGraphComposition_cases.
  unfold traverse, newValidationTaversal. rewrite Hkinds.
  rewrite (@seedStack_first_failure supergraph subgraphs before after kind x Hbefore Hx). simpl.
  destruct x; [discriminate | reflexivity ..].
Qed.

Lemma replayEdges_steps (schema : option Schema) (edges : list Edge) :
  forall state o',
    replayEdges advance advanceSim fuel schema edges (Built state) = Some (Ok o') ->
    exists state',
      o' = Built state'
      /\ p_graph (supergraphPath state') = p_graph (supergraphPath state)
      /\ p_root (supergraphPath state') = p_root (supergraphPath state)
      /\ p_steps (supergraphPath state')
         = p_steps (supergraphPath state) ++ map (fun e => (e, e_transition e)) edges
      /\ (edges <> [] -> subgraphPaths state' <> []).
Proof.
  induction edges as [|e es IH]; simpl; intros state o' H.
  - injection H as <-. exists state. rewrite app_nil_r. repeat split. congruence.
  - destruct (validateTransition advance advanceSim fuel state schema e)
      as [[st|x]|] eqn:E; simpl in H; try discriminate.
    apply validateTransition_Ok_inv in E. destruct E as (_ & Hp & _ & Hne & _).
    destruct (IH _ _ H) as (state' & -> & Hg & Hr & Hs & Hnil).
    exists state'. split; [reflexivity|].
    rewrite Hg, Hr, Hs, Hp. unfold pathAdd. cbn [p_graph p_root p_steps].
    rewrite <- app_assoc. repeat split.
    intros _. destruct es as [|e' es']; [|apply Hnil; discriminate].
    simpl in H. injection H as H. now subst st.
Qed.

Lemma replayEdges_Throw_split (schema : option Schema) (edges : list Edge) (x : Exn) :
  forall o,
    replayEdges advance advanceSim fuel schema edges o = Some (Throw x) ->
    exists done e rest o',
      edges = done ++ e :: rest
      /\ replayEdges advance advanceSim fuel schema done o = Some (Ok o')
      /\ transitionFrom advance advanceSim fuel o' schema e = Some (Throw x).
Proof.
  induction edges as [|e es IH]; simpl; intros o H; [discriminate|].
  destruct (transitionFrom advance advanceSim fuel o schema e)
    as [[st|y]|] eqn:E; simpl in H; try discriminate.
  - destruct (IH _ H) as (done & e' & rest & o' & -> & Hdone & Hx).
    exists (e :: done), e', rest, o'. simpl. rewrite E. simpl. auto.
  - injection H as ->. exists [], e, es, o. auto.
Qed.

(** Without supergraph path, only the replay of no edge returns, and no
    replay throws a validation error. *)
Lemma replayEdges_Pathless (schema : option Schema) (edges : list Edge)
      (r : Res StateObject) :
  replayEdges advance advanceSim fuel schema edges Pathless = Some r ->
  (edges = [] /\ r = Ok Pathless)
  \/ (exists x, edges <> [] /\ r = Throw x /\ isValidationError x = false).
Proof.
  destruct edges as [|e es]; simpl; intros H.
  - injection H as <-. left. auto.
  - right. destruct (e_conditions e); simpl in H; injection H as <-;
      eexists; (split; [discriminate|]); split; reflexivity.
Qed.

Lemma replay_inv (path : RootPath Transition) (subgraphs : Graph) (r : Res StateObject) :
  replay fedRootName advance advanceSim fuel path subgraphs = Some r ->
  (hasAnyEdgeConditions path = true /\ r = Throw (AssertionError msgPathConditions))
  \/ (hasAnyEdgeConditions path = false
      /\ ((v_rootKind (p_root path) = None /\ r = Throw (AssertionError (msgNoRoot None)))
          \/ (exists kind,
                 v_rootKind (p_root path) = Some kind
                 /\ ((exists x, initial fedRootName (p_graph path) kind subgraphs = Throw x
                                /\ r = Throw x)
                     \/ (exists init,
                            initial fedRootName (p_graph path) kind subgraphs = Ok init
                            /\ replayEdges advance advanceSim fuel
                                           (firstSource (p_graph path))
                                           (map fst (p_steps path)) init
                               = Some r))))).
Proof.
  unfold replay. destruct (hasAnyEdgeConditions path); simpl.
  { intros H. injection H as <-. left. auto. }
  intros H. right. split; [reflexivity|].
  destruct (v_rootKind (p_root path)) as [kind|]; simpl in H.
  - right. exists kind. split; [reflexivity|].
    destruct (initial fedRootName (p_graph path) kind subgraphs) as [init|x];
      simpl in H.
    + right. exists init. auto.
    + injection H as <-. left. exists x. auto.
  - injection H as <-. left. auto.
Qed.


End Replay.

(** * Further properties of the condition validator *)

Section FurtherConditions.

Variable advanceSim :
  option Schema -> list OpGraphPath -> OperationElement -> ConditionResolver ->
  ExcludedEdges -> option (list (list OpGraphPath)).
Variable validateConditionsRec :
  option Schema -> SelectionSet -> OpGraphPath -> ExcludedEdges -> option CondResult.
Variable schema : option Schema.
Variable excludedEdges : ExcludedEdges.

Local Abbreviation advanced state :=
  (advanceCurrentSelection advanceSim validateConditionsRec state schema excludedEdges).
Local Abbreviation current state :=
  (validateCurrentSelection advanceSim validateConditionsRec state schema excludedEdges).
Local Abbreviation cloop :=
  (conditionLoop advanceSim validateConditionsRec schema excludedEdges).
Local Abbreviation popped :=
  (Popped advanceSim validateConditionsRec schema excludedEdges).

Lemma conditionLoop_nil (n : nat) : cloop n [] = Some Undefined.
Proof. destruct n; reflexivity. Qed.

Lemma conditionLoop_cons (n : nat) (state : ConditionValidationState)
      (stack : list ConditionValidationState) :
  cloop (S n) (state :: stack)
  = match current state with
    | None => None
    | Some SelectedNull => Some Null
    | Some (SelectedStates newStates) => cloop n (pushAll newStates stack)
    end.
Proof. reflexivity. Qed.

Lemma conditionLoop_le (n : nat) :
  forall m stack r, n <= m -> cloop n stack = Some r -> cloop m stack = Some r.
Proof.
  induction n as [|n IH]; intros m [|state stack] r Hle H; simpl in H;
    try discriminate.
  - rewrite conditionLoop_nil. exact H.
  - rewrite conditionLoop_nil. exact H.
  - destruct m as [|m]; [lia|]. simpl.
    destruct (current state) as [[|newStates]|]; try discriminate; [exact H|].
    apply IH; [lia | exact H].
Qed.

Lemma pushAll_app {A : Type} (xs top bottom : list A) :
  pushAll xs (top ++ bottom) = pushAll xs top ++ bottom.
Proof. rewrite !pushAll_rev. apply app_assoc. Qed.

(** The loop over a stack split in two: the outcome of the whole in terms
    of the outcomes of the parts. *)
Lemma conditionLoop_app_inv (n : nat) :
  forall top bottom r,
    cloop n (top ++ bottom) = Some r ->
    cloop n top = Some Null /\ r = Null
    \/ cloop n top = Some Undefined /\ cloop n bottom = Some r.
Proof.
  induction n as [|n IH]; intros [|state top] bottom r H.
  - right. auto.
  - discriminate.
  - right. rewrite conditionLoop_nil. auto.
  - cbn [app] in H. rewrite conditionLoop_cons in H. rewrite conditionLoop_cons.
    destruct (current state) as [[|newStates]|]; try discriminate.
    + injection H as <-. left. auto.
    + rewrite pushAll_app in H. apply IH in H.
      destruct H as [[Htop ->]|[Htop Hbottom]]; [left; auto|].
      right. split; [exact Htop|].
      apply conditionLoop_le with (n := n); [lia | exact Hbottom].
Qed.

Lemma conditionLoop_app (n1 : nat) :
  forall top bottom,
    (cloop n1 top = Some Null -> cloop n1 (top ++ bottom) = Some Null)
    /\ (forall n2 r, cloop n1 top = Some Undefined -> cloop n2 bottom = Some r ->
                     cloop (n1 + n2) (top ++ bottom) = Some r).
Proof.
  induction n1 as [|n1 IH]; intros [|state top] bottom.
  - split; [discriminate|]. intros n2 r _ H. exact H.
  - split; discriminate.
  - rewrite conditionLoop_nil. split; [discriminate|]. intros n2 r _ H.
    apply conditionLoop_le with (n := n2); [lia | exact H].
  - cbn [app Nat.add]. split.
    + rewrite !conditionLoop_cons.
      destruct (current state) as [[|newStates]|]; try discriminate; auto.
      rewrite pushAll_app. apply IH.
    + intros n2 r. rewrite !conditionLoop_cons.
      destruct (current state) as [[|newStates]|]; try discriminate.
      rewrite pushAll_app. apply IH.
Qed.

(** Under a budget that covers the selections of a stack, the outcome of
    the loop does not depend on the budget. *)
Lemma conditionLoop_budget (n m : nat) (stack : list ConditionValidationState)
      (r : CondResult) :
  cloop n stack = Some r -> stackWeight stack <= m -> cloop m stack = Some r.
Proof.
  intros H Hle. destruct r.
  - apply conditionLoop_null in H. destruct H as (state & Hp & Hs).
    now apply (conditionLoop_popped_null Hp Hs m).
  - apply conditionLoop_all_advance; [exact Hle|].
    intros state Hp. eapply conditionLoop_undefined; eauto.
Qed.

Lemma conditionLoop_completes (n : nat) :
  forall stack,
    stackWeight stack <= n ->
    (forall state, popped stack state -> advanced state <> None) ->
    exists r, cloop n stack = Some r.
Proof.
  induction n as [|n IH]; intros [|state stack] Hw Hall;
    try (exists Undefined; reflexivity).
  - exfalso. unfold stackWeight in Hw. simpl in Hw.
    rewrite selectionSize_subSelections in Hw. lia.
  - simpl. destruct (current state) as [[|newStates]|] eqn:E.
    + exists Null. reflexivity.
    + apply IH.
      * pose proof (@stackWeight_step _ _ _ _ state stack newStates E). lia.
      * intros state' Hp. apply Hall. econstructor; eauto.
    + exfalso. apply (Hall state); [constructor|].
      unfold validateCurrentSelection in E.
      destruct (advanced state) as [newPaths|]; [|reflexivity].
      destruct (List.length newPaths =? 0); discriminate.
Qed.

End FurtherConditions.

Lemma initialConditionStack_app (t : NamedType) (sels1 sels2 : list Selection)
      (initialPath : OpGraphPath) :
  initialConditionStack (MkSelectionSet t (sels1 ++ sels2)) initialPath
  = initialConditionStack (MkSelectionSet t sels2) initialPath
    ++ initialConditionStack (MkSelectionSet t sels1) initialPath.
Proof.
  unfold initialConditionStack. rewrite !pushAll_rev, !app_nil_r. simpl.
  now rewrite map_app, rev_app_distr.
Qed.

Lemma initialConditionStack_weight (conditions : SelectionSet) (initialPath : OpGraphPath) :
  stackWeight (initialConditionStack conditions initialPath) = selectionSetSize conditions.
Proof.
  unfold initialConditionStack. rewrite stackWeight_pushAll.
  rewrite selectionSetSize_selections. unfold stackWeight. simpl. lia.
Qed.

Section ConditionsCompose.

Variable advanceSim :
  option Schema -> list OpGraphPath -> OperationElement -> ConditionResolver ->
  ExcludedEdges -> option (list (list OpGraphPath)).

(** X15: conditions are validated selection by selection, the later ones
    first. Under a budget that covers the selections of both parts, the
    conditions made of two lists of selections are satisfied ([undefined])
    exactly when each list is, and are refuted ([null]) exactly when the
    second list is refuted, or is satisfied while the first is refuted. *)
Theorem validateConditions_compose (fuel : nat) (schema : option Schema)
        (t : NamedType) (sels1 sels2 : list Selection) (initialPath : OpGraphPath)
        (excludedEdges : ExcludedEdges) :
  let result sels :=
    validateConditions advanceSim (S fuel) schema (MkSelectionSet t sels)
                       initialPath excludedEdges in
  selectionSetSize (MkSelectionSet t (sels1 ++ sels2)) <= fuel ->
  (result (sels1 ++ sels2) = Some Undefined
   <-> result sels1 = Some Undefined /\ result sels2 = Some Undefined)
  /\ (result (sels1 ++ sels2) = Some Null
      <-> result sels2 = Some Null
          \/ (result sels2 = Some Undefined /\ result sels1 = Some Null)).
Proof.
  intros result Hle. unfold result. cbn [validateConditions].
  rewrite initialConditionStack_app.
  rewrite <- initialConditionStack_weight with (initialPath := initialPath) in Hle.
  rewrite initialConditionStack_app in Hle.
  set (top := initialConditionStack (MkSelectionSet t sels2) initialPath) in *.
  set (bottom := initialConditionStack (MkSelectionSet t sels1) initialPath) in *.
  split; split.
  - intros H. apply conditionLoop_app_inv in H.
    destruct H as [[_ H]|[Htop Hbottom]]; [discriminate | auto].
  - intros [Hbottom Htop].
    eapply conditionLoop_budget; [|exact Hle].
    eapply conditionLoop_app; eauto.
  - intros H. apply conditionLoop_app_inv in H.
    destruct H as [[Htop _]|[Htop Hbottom]]; auto.
  - intros [Htop|[Htop Hbottom]].
    + now apply conditionLoop_app.
    + eapply conditionLoop_budget; [|exact Hle].
      eapply conditionLoop_app; eauto.
Qed.

(** X16: under a budget that covers the selections of the conditions,
    [validateConditions] completes as soon as the advancement of every
    selection it pops is answered: past that budget, only the collaborator
    can keep it from returning. *)
Theorem validateConditions_completes (fuel : nat) (schema : option Schema)
        (conditions : SelectionSet) (initialPath : OpGraphPath)
        (excludedEdges : ExcludedEdges) :
  let nested := validateConditions advanceSim fuel in
  selectionSetSize conditions <= fuel ->
  (forall state,
      Popped advanceSim nested schema excludedEdges
             (initialConditionStack conditions initialPath) state ->
      advanceCurrentSelection advanceSim nested state schema excludedEdges <> None) ->
  exists r,
    validateConditions advanceSim (S fuel) schema conditions initialPath excludedEdges
    = Some r.
Proof.
  intros nested Hle Hall. cbn [validateConditions].
  apply conditionLoop_completes; [|exact Hall].
  rewrite initialConditionStack_weight. exact Hle.
Qed.

End ConditionsCompose.

(** * The further statements at the example federation *)

Lemma rootsLabelled_supergraphWithEmail : rootsLabelled Example.supergraphWithEmail.
Proof.
  intros k v [H|[]]. injection H as <- <-. reflexivity.
Qed.

Lemma validate_sound_witness :
  exists s,
    validateTransition Example.advancePathWithTransition
                       Example.advanceSimultaneousPathsWithOperation
                       3 (initialState Example.supergraph Example.subgraphs
                                       Example.sQuery Example.fRoot)
                       (Some Example.schema) Example.sMe
    = Some (Ok s)
    /\ subgraphPaths s <> []
    /\ towardsTarget Example.sMe (subgraphPaths s).
Proof.
  apply (@validate_sound Example.advancePathWithTransition
           Example.advanceSimultaneousPathsWithOperation
           3 (Some Example.schema) 10
           [Built (initialState Example.supergraph Example.subgraphs
                                Example.sQuery Example.fRoot)]
           tt
           (initialState Example.supergraph Example.subgraphs
                         Example.sQuery Example.fRoot)
           [] Example.sMe).
  - reflexivity.
  - apply Reaches_here.
  - left. reflexivity.
Defined.

Lemma computeSubgraphPaths_explored_witness :
  computeSubgraphPaths Example.federatedGraphRootTypeName
                       Example.advancePathWithTransition
                       Example.advanceSimultaneousPathsWithOperation
                       3 Example.mePath Example.subgraphs
  = Some (Ok {| sp_traversal := Some (Built Example.userState); sp_error := None |}).
Proof.
  apply (@computeSubgraphPaths_explored Example.federatedGraphRootTypeName
           Example.advancePathWithTransition
           Example.advanceSimultaneousPathsWithOperation
           3 Example.supergraphWithEmail Example.subgraphs query
           Example.queryState Example.userState).
  - exact rootsLabelled_supergraphWithEmail.
  - reflexivity.
  - apply Explored_step with (state := Example.queryState) (e := Example.sMe).
    + apply Explored_init.
    + left. reflexivity.
    + reflexivity.
Defined.

Lemma computeSubgraphPaths_reported_error_witness :
  computeSubgraphPaths Example.federatedGraphRootTypeName
                       Example.advancePathWithTransition
                       Example.advanceSimultaneousPathsWithOperation
                       3 Example.emailPath Example.subgraphs
  = Some (Ok {| sp_traversal := None; sp_error := Some Example.emailError |}).
Proof.
  apply (@computeSubgraphPaths_reported_error Example.federatedGraphRootTypeName
           Example.advancePathWithTransition
           Example.advanceSimultaneousPathsWithOperation
           3 10 Example.supergraphWithEmail Example.subgraphs Example.emailError).
  - exact rootsLabelled_supergraphWithEmail.
  - reflexivity.
Defined.

Lemma validateGraphComposition_error_origin_witness :
  exists state e,
    In e (nextEdges (supergraphPath state))
    /\ e_conditions e = None
    /\ Example.emailPath = pathAdd (supergraphPath state) (e_transition e) e
    /\ subgraphsPaths Example.emailError = subgraphPaths state
    /\ walkFrom Example.supergraphWithEmail Example.sQuery (p_steps Example.emailPath).
Proof.
  destruct (@validateGraphComposition_error_origin
              Example.federatedGraphRootTypeName
              Example.advancePathWithTransition
              Example.advanceSimultaneousPathsWithOperation
              3 10 Example.supergraphWithEmail Example.subgraphs Example.emailError
              eq_refl)
    as (kind & init & state & e & _ & _ & He & Hc & Hpath & Hsub & _ & _ & _ & Hwalk).
  exists state, e.
  split; [exact He|]. split; [exact Hc|]. split; [exact Hpath|].
  split; [exact Hsub | exact Hwalk].
Defined.

Lemma validateGraphComposition_seed_failure_witness :
  validateGraphComposition Example.federatedGraphRootTypeName
                           Example.advancePathWithTransition
                           Example.advanceSimultaneousPathsWithOperation
                           3 0 Example.supergraph Example.subgraphsRootless
  = Some (Throw (AssertionError (msgNoRoot (Some query))))
  /\ isValidationError (AssertionError (msgNoRoot (Some query))) = false.
Proof.
  apply (@validateGraphComposition_seed_failure Example.federatedGraphRootTypeName
           Example.advancePathWithTransition
           Example.advanceSimultaneousPathsWithOperation
           3 0 Example.supergraph Example.subgraphsRootless [] [] query
           (AssertionError (msgNoRoot (Some query)))).
  - reflexivity.
  - constructor.
  - reflexivity.
Defined.


Lemma validateConditions_compose_witness :
  validateConditions Example.advanceSimultaneousPathsWithOperation 5
                     (Some Example.schema)
                     (MkSelectionSet Example.tUser
                        (selections ExampleConditions.friendName
                         ++ selections ExampleConditions.friendEmail))
                     ExampleConditions.fromUser []
  = Some Null.
Proof.
  assert (Hle : selectionSetSize
                  (MkSelectionSet Example.tUser
                     (selections ExampleConditions.friendName
                      ++ selections ExampleConditions.friendEmail)) <= 4)
    by (vm_compute; lia).
  destruct (@validateConditions_compose
              Example.advanceSimultaneousPathsWithOperation 4
              (Some Example.schema) Example.tUser
              (selections ExampleConditions.friendName)
              (selections ExampleConditions.friendEmail)
              ExampleConditions.fromUser [] Hle) as [_ [_ Hnull]].
  apply Hnull. left. vm_compute. reflexivity.
Defined.

Lemma validateConditions_completes_witness :
  exists r,
    validateConditions Example.advanceSimultaneousPathsWithOperation 3
                       (Some Example.schema) ExampleConditions.friendName
                       ExampleConditions.fromUser []
    = Some r.
Proof.
  apply (@validateConditions_completes
           Example.advanceSimultaneousPathsWithOperation 2
           (Some Example.schema) ExampleConditions.friendName
           ExampleConditions.fromUser []).
  - vm_compute. lia.
  - intros state Hp.
    inversion Hp as [s0 st0 Heq|s0 st0 newStates s1 Hs Hp' Heq]; subst.
    + vm_compute. discriminate.
    + vm_compute in Hs. injection Hs as <-.
      inversion Hp' as [s2 st2 Heq|s2 st2 newStates' s3 Hs' Hp'' Heq]; subst.
      * vm_compute. discriminate.
      * vm_compute in Hs'. injection Hs' as <-. inversion Hp''.
Defined.

(** * Termination of the traversal *)

Lemma last_In {A : Type} (l : list A) (d : A) : l <> [] -> In (last l d) l.
Proof.
  induction l as [|a l IH]; [contradiction|]. intros _.
  destruct l as [|b l]; [left; reflexivity|].
  right. apply IH. discriminate.
Qed.

Lemma last_app_cons {A : Type} (l l' : list A) (a d : A) :
  last (l ++ a :: l') d = last (a :: l') d.
Proof.
  induction l as [|b l IH]; [reflexivity|].
  cbn [app]. rewrite <- IH. destruct (l ++ a :: l') eqn:E; [|reflexivity].
  destruct l; discriminate.
Qed.

Lemma isFreeEdge_false (e : Edge) :
  isFreeEdge e = false <-> e_transition e <> FreeTransition.
Proof.
  unfold isFreeEdge. destruct (e_transition e); split; intros H;
    try reflexivity; try discriminate; contradiction.
Qed.

Lemma outEdges_graphEdges (g : Graph) (v : Vertex) (e : Edge) :
  In e (outEdges g v) -> In e (graphEdges g).
Proof.
  unfold outEdges, graphEdges. intros He.
  destruct (nth_in_or_default (v_index v) (g_adjacencies g) []) as [Hin|Heq].
  - apply in_concat. eauto.
  - rewrite Heq in He. destruct He.
Qed.

Lemma visitedSince_nonempty {T : Type} (steps : list (Edge * T)) :
  forall visited, visited <> [] -> visitedSince visited steps <> [].
Proof.
  induction steps as [|[e t] steps IH]; intros visited Hne; [exact Hne|].
  cbn [visitedSince]. apply IH.
  destruct (isFreeEdge e); [discriminate|]. destruct visited; discriminate.
Qed.

(** Edges that are not free add the vertices they lead to. *)
Lemma visitedSince_app {T : Type} (steps more : list (Edge * T)) :
  forall visited,
    Forall (fun s => isFreeEdge (fst s) = false) more ->
    visitedSince visited (steps ++ more)
    = visitedSince visited steps ++ map (fun s => e_tail (fst s)) more.
Proof.
  induction steps as [|[e t] steps IH]; intros visited Hmore.
  - cbn [app visitedSince]. revert visited.
    induction Hmore as [|[e t] more He _ IH]; intros visited.
    + now rewrite app_nil_r.
    + cbn [visitedSince map fst]. simpl in He. rewrite He, IH, <- app_assoc.
      reflexivity.
  - cbn [app visitedSince]. now apply IH.
Qed.

Lemma visitedSince_last {T : Type} (steps : list (Edge * T)) (d : Vertex) :
  forall visited,
    visited <> [] ->
    last (visitedSince visited steps) d
    = last (visited ++ map (fun s => e_tail (fst s)) steps) d.
Proof.
  induction steps as [|[e t] steps IH]; intros visited Hne.
  - now rewrite app_nil_r.
  - cbn [visitedSince map fst]. rewrite last_app_cons.
    destruct (isFreeEdge e).
    + rewrite IH by discriminate. reflexivity.
    + rewrite IH by (destruct visited; discriminate).
      rewrite <- app_assoc. apply last_app_cons.
Qed.

(** The tail of a path is the last vertex it has visited. *)
Lemma pathTail_sinceReset {T : Type} (p : GraphPath T) : In (pathTail p) (sinceReset p).
Proof.
  unfold pathTail, pathVertices, sinceReset.
  change (p_root p :: map (fun s => e_tail (fst s)) (p_steps p))
    with ([p_root p] ++ map (fun s => e_tail (fst s)) (p_steps p)).
  rewrite <- visitedSince_last by discriminate.
  apply last_In. apply visitedSince_nonempty. discriminate.
Qed.

Lemma Extends_sinceReset (p q : RootPath Transition) :
  Extends p q ->
  exists more, more <> [] /\ sinceReset q = sinceReset p ++ more.
Proof.
  intros (_ & Hroot & more & Hne & Hfree & Hsteps). unfold sinceReset.
  rewrite Hroot, Hsteps, visitedSince_app by exact Hfree.
  exists (map (fun s => e_tail (fst s)) more). split; [|reflexivity].
  destruct more; [contradiction | discriminate].
Qed.

(** A path that has not just cycled ends on a vertex that no path it
    extends has visited since its last reset. *)
Lemma hasJustCycled_false_fresh (p q : RootPath Transition) :
  Extends p q -> hasJustCycled q = false ->
  ~ In (v_index (pathTail q)) (map v_index (sinceReset p)).
Proof.
  intros Hext Hcy Hin. apply Extends_sinceReset in Hext.
  destruct Hext as (more & Hne & Hv).
  unfold hasJustCycled in Hcy. rewrite Hv, removelast_app in Hcy by exact Hne.
  apply in_map_iff in Hin. destruct Hin as (v & Hv' & Hin).
  assert (Ht : existsb (fun v => v_index v =? v_index (pathTail q))
                       (sinceReset p ++ removelast more) = true).
  { apply existsb_exists. exists v. split; [apply in_or_app; auto|].
    now apply Nat.eqb_eq. }
  congruence.
Qed.

Lemma NoDup_bounded_length (bound : nat) (l : list nat) :
  NoDup l -> Forall (fun i => i < bound) l -> List.length l <= bound.
Proof.
  intros Hnd Hb.
  assert (Hincl : incl l (seq 0 bound)).
  { intros i Hi. apply in_seq. rewrite Forall_forall in Hb. specialize (Hb i Hi). lia. }
  pose proof (NoDup_incl_length Hnd Hincl) as H.
  now rewrite length_seq in H.
Qed.

(** Marking the tail of an extension that has not just cycled. *)
Lemma Marked_extend (bound : nat) (p q : RootPath Transition) (l : list nat) :
  Extends p q -> hasJustCycled q = false ->
  v_index (pathTail q) < bound ->
  Marked bound p l ->
  Marked bound q (v_index (pathTail q) :: l) /\ S (List.length l) <= bound.
Proof.
  intros Hext Hcy Hlt (Hnd & Hincl & Hb).
  assert (HM : Marked bound q (v_index (pathTail q) :: l)).
  { repeat split.
    - constructor; [|exact Hnd].
      intros Hin. apply (hasJustCycled_false_fresh Hext Hcy). auto.
    - intros i [<-|Hi].
      + apply in_map. apply pathTail_sinceReset.
      + apply Extends_sinceReset in Hext. destruct Hext as (more & _ & ->).
        rewrite map_app. apply in_or_app. left. auto.
    - constructor; assumption. }
  split; [exact HM|].
  destruct HM as (Hnd' & _ & Hb').
  exact (NoDup_bounded_length Hnd' Hb').
Qed.

(** ** The condition validator completes *)

Lemma Popped_preserves
      (advanceSim : option Schema -> list OpGraphPath -> OperationElement ->
                    ConditionResolver -> ExcludedEdges -> option (list (list OpGraphPath)))
      (nested : option Schema -> SelectionSet -> OpGraphPath -> ExcludedEdges ->
                option CondResult)
      (schema : option Schema) (excluded : ExcludedEdges)
      (P : ConditionValidationState -> Prop) :
  (forall state newStates,
      P state ->
      validateCurrentSelection advanceSim nested state schema excluded
      = Some (SelectedStates newStates) ->
      Forall P newStates) ->
  forall stack state,
    Popped advanceSim nested schema excluded stack state ->
    Forall P stack -> P state.
Proof.
  intros Hstep stack state Hp.
  induction Hp as [state stack|state stack newStates state' Hs _ IH]; intros HP.
  - exact (Forall_inv HP).
  - apply IH. rewrite pushAll_rev. apply Forall_app. split.
    + apply Forall_rev. apply (Hstep state); [exact (Forall_inv HP) | exact Hs].
    + exact (Forall_inv_tail HP).
Qed.

Section ConditionsComplete.

Variable advanceSim :
  option Schema -> list OpGraphPath -> OperationElement -> ConditionResolver ->
  ExcludedEdges -> option (list (list OpGraphPath)).
Variable rank : ExcludedEdges -> nat.
Variable subgraphs : Graph.
Variable size : nat.

Hypothesis sim_answers : AdvanceSimAnswers advanceSim rank subgraphs.
Hypothesis sim_keeps : AdvanceSimKeeps advanceSim subgraphs.
Hypothesis conditions_size :
  Forall (fun conditions => selectionSetSize conditions <= size)
         (graphConditions subgraphs).

Lemma validateCurrentSelection_OverGraph
      (nested : option Schema -> SelectionSet -> OpGraphPath -> ExcludedEdges ->
                option CondResult)
      (schema : option Schema) (excluded : ExcludedEdges)
      (state : ConditionValidationState) (newStates : list ConditionValidationState) :
  OverGraph subgraphs state ->
  validateCurrentSelection advanceSim nested state schema excluded
  = Some (SelectedStates newStates) ->
  Forall (OverGraph subgraphs) newStates.
Proof.
  intros Hover H. apply validateCurrentSelection_states_inv in H.
  destruct H as (newPaths & Hadv & _ & ->).
  apply Forall_map. apply Forall_forall. intros s _. unfold OverGraph. simpl.
  apply Forall_forall. intros paths' Hin.
  unfold advanceCurrentSelection in Hadv.
  destruct (flatMapOpt_In _ _ Hadv paths' Hin) as (paths & bs & Hpaths & Hbs & Hin').
  unfold OverGraph in Hover. rewrite Forall_forall in Hover.
  eapply sim_keeps; [exact (Hover paths Hpaths) | exact Hbs | exact Hin'].
Qed.

(** Under a budget above the size of the conditions of the graph and the
    rank of the excluded edges, the validation of a condition of the graph
    completes: every nested validation excludes more. *)
Lemma validateConditions_answers (fuel : nat) :
  forall schema conditions initialPath excluded,
    In conditions (graphConditions subgraphs) ->
    p_graph initialPath = subgraphs ->
    size + rank excluded < fuel ->
    validateConditions advanceSim fuel schema conditions initialPath excluded <> None.
Proof.
  induction fuel as [|fuel IH]; intros schema conditions initialPath excluded Hc Hg Hfuel;
    [lia|].
  cbn [validateConditions].
  assert (Hsize : selectionSetSize conditions <= size).
  { rewrite Forall_forall in conditions_size. now apply conditions_size. }
  destruct (@conditionLoop_completes advanceSim (validateConditions advanceSim fuel)
              schema excluded fuel (initialConditionStack conditions initialPath))
    as (r & Hr); [| |congruence].
  - rewrite initialConditionStack_weight. lia.
  - intros state Hp.
    assert (Hover : OverGraph subgraphs state).
    { apply (@Popped_preserves advanceSim (validateConditions advanceSim fuel)
                                schema excluded (OverGraph subgraphs))
        with (stack := initialConditionStack conditions initialPath);
        [|exact Hp|].
      - intros st newStates. apply validateCurrentSelection_OverGraph.
      - unfold initialConditionStack. rewrite pushAll_rev, app_nil_r.
        apply Forall_rev, Forall_map, Forall_forall. intros s _.
        unfold OverGraph. simpl. constructor; [|constructor].
        split; [discriminate | constructor; [exact Hg | constructor]]. }
    unfold advanceCurrentSelection. apply flatMapOpt_answers. intros paths Hpaths.
    unfold OverGraph in Hover. rewrite Forall_forall in Hover.
    pose proof (Hover paths Hpaths) as Hset.
    apply sim_answers; [exact Hset|].
    intros c v ex Hin Hrank.
    destruct Hset as [Hne Hall]. destruct paths as [|path0 paths0]; [contradiction|].
    simpl. apply IH; [exact Hin | exact (Forall_inv Hall) | lia].
Qed.

End ConditionsComplete.

(** ** The loop of the traversal completes *)

Section Termination.

Variable advance :
  RootPath Transition -> Transition -> NamedType -> ConditionResolver ->
  option (list (RootPath Transition)).
Variable advanceSim :
  option Schema -> list OpGraphPath -> OperationElement -> ConditionResolver ->
  ExcludedEdges -> option (list (list OpGraphPath)).
Variable fuel : nat.
Variable schema : option Schema.
Variable supergraph subgraphs : Graph.

Hypothesis supergraph_not_free : noFreeEdge supergraph.
Hypothesis advance_extends : AdvanceExtends advance subgraphs.
Hypothesis advance_completes :
  forall p t targetType,
    p_graph p = subgraphs ->
    advance p t targetType
            (fun conditions vertex excluded =>
               validateConditions advanceSim fuel schema conditions
                                  (pathCreate (p_graph p) vertex) excluded)
    <> None.

Local Abbreviation step := (validateTransition advance advanceSim fuel).
Local Abbreviation handle := (handleEdges advance advanceSim fuel schema).
Local Abbreviation loop := (validate advance advanceSim fuel schema).

Lemma validateTransition_answers (n : nat) (state : ValidationState) (e : Edge) :
  Ranked subgraphs n state -> step state schema e <> None.
Proof.
  intros HR. unfold validateTransition.
  destruct (e_conditions e); [discriminate|].
  destruct (advanceSubgraphPaths advance advanceSim fuel state schema e) as [ps|] eqn:E.
  - rewrite length_eqb_0. destruct ps; [|discriminate].
    destruct (validationError _ _); discriminate.
  - exfalso. revert E. apply flatMapOpt_answers. intros p Hp.
    apply advance_completes. unfold Ranked in HR. rewrite Forall_forall in HR.
    now destruct (HR p Hp).
Qed.

Lemma handleEdges_answers (state : ValidationState) (edges : list Edge) :
  (forall e, step state schema e <> None) ->
  forall stack, handle state edges stack <> None.
Proof.
  intros Hans. induction edges as [|e es IH]; intros stack; simpl; [discriminate|].
  destruct (step state schema e) as [[s|x]|] eqn:E; simpl.
  - destruct (negb _ && negb _); apply IH.
  - discriminate.
  - exfalso. exact (Hans e E).
Qed.

(** A successor that has not cycled is ranked strictly below its
    predecessor. *)
Lemma Ranked_successor (n : nat) (state state' : ValidationState) (e : Edge) :
  Ranked subgraphs n state ->
  e_transition e <> FreeTransition ->
  step state schema e = Some (Ok state') ->
  hasCycled state' = false ->
  exists n', n = S n' /\ Ranked subgraphs n' state'.
Proof.
  intros HR Hfree Hs Hcy. apply validateTransition_Ok_inv in Hs.
  destruct Hs as (_ & _ & Hadv & Hne & _).
  assert (Hall : forall q, In q (subgraphPaths state') ->
                   p_graph q = subgraphs
                   /\ exists l, Marked (List.length (g_vertices subgraphs)) q l
                                /\ S (List.length (g_vertices subgraphs))
                                   <= List.length l + n
                                /\ List.length l <= List.length (g_vertices subgraphs)).
  { intros q Hq.
    destruct (advanceSubgraphPaths_origin _ _ _ _ _ _ Hadv q Hq) as (p & qs & Hp & Hqs & Hin).
    unfold Ranked in HR. rewrite Forall_forall in HR.
    destruct (HR p Hp) as (Hg & l & HM & Hle).
    destruct (advance_extends q Hg Hfree Hqs Hin) as (Hext & Hlt).
    assert (Hq' : hasJustCycled q = false).
    { unfold hasCycled in Hcy.
      destruct (hasJustCycled q) eqn:E; [|reflexivity].
      assert (existsb (fun p => hasJustCycled p) (subgraphPaths state') = true)
        by (apply existsb_exists; eauto).
      congruence. }
    destruct (Marked_extend Hext Hq' Hlt HM) as (HM' & Hbound).
    split; [destruct Hext as (-> & _); exact Hg|].
    exists (v_index (pathTail q) :: l). simpl. repeat split; try apply HM'; lia. }
  destruct (subgraphPaths state') as [|q0 qs0] eqn:Eq; [contradiction|].
  destruct n as [|n'].
  - exfalso. destruct (Hall q0 (or_introl eq_refl)) as (_ & l & _ & H1 & H2). lia.
  - exists n'. split; [reflexivity|].
    unfold Ranked. rewrite Eq. apply Forall_forall. intros q Hq.
    destruct (Hall q Hq) as (Hg & l & HM & H1 & _).
    split; [exact Hg|]. exists l. split; [exact HM | lia].
Qed.

(** The successors a state over the supergraph pushes are over the
    supergraph and ranked strictly below it. *)
Lemma pushed_RankedObject (n : nat) (state : ValidationState)
      (pushed : list ValidationState) :
  p_graph (supergraphPath state) = supergraph ->
  Ranked subgraphs n state ->
  Forall (fun s => exists e,
              In e (nextEdges (supergraphPath state))
              /\ step state schema e = Some (Ok s)
              /\ isTerminal (supergraphPath s) = false
              /\ hasCycled s = false) pushed ->
  pushed = []
  \/ exists n', n = S n'
                /\ Forall (RankedObject supergraph subgraphs n') (map Built pushed).
Proof.
  intros Hg HR HF.
  assert (Hone : forall s, In s pushed ->
                   exists n', n = S n' /\ RankedObject supergraph subgraphs n' (Built s)).
  { rewrite Forall_forall in HF. intros s Hs.
    destruct (HF s Hs) as (e & He & Hstep & _ & Hcy).
    assert (Hfree : e_transition e <> FreeTransition).
    { apply isFreeEdge_false. unfold nextEdges in He. rewrite Hg in He.
      apply outEdges_graphEdges in He.
      unfold noFreeEdge in supergraph_not_free.
      rewrite Forall_forall in supergraph_not_free. now apply supergraph_not_free. }
    destruct (@Ranked_successor n state s e HR Hfree Hstep Hcy) as (n' & -> & HR').
    exists n'. split; [reflexivity|]. split; [|exact HR'].
    apply validateTransition_Ok_inv in Hstep. destruct Hstep as (_ & -> & _).
    exact Hg. }
  destruct pushed as [|s0 pushed0]; [left; reflexivity|]. right.
  destruct (Hone s0 (or_introl eq_refl)) as (n' & -> & _).
  exists n'. split; [reflexivity|].
  apply Forall_map. apply Forall_forall. intros s Hs.
  destruct (Hone s Hs) as (n'' & Heq & H). injection Heq as <-. exact H.
Qed.

Lemma validate_terminates (n : nat) :
  forall stack,
    Forall (RankedObject supergraph subgraphs n) stack ->
    exists k r, loop k stack = Some r.
Proof.
  induction n as [n IHn] using lt_wf_ind.
  induction stack as [|o stack IHs]; intros HR.
  - exists 0, (Ok tt). reflexivity.
  - inversion HR as [|? ? Hstate Hstack]; subst.
    destruct (IHs Hstack) as (k2 & r2 & Hk2).
    destruct o as [state|];
      [|exists 1, (Throw (TypeError undefinedProperty)); reflexivity].
    destruct Hstate as (Hg & Hstate).
    destruct (handleState advance advanceSim fuel schema (Built state) [])
      as [[top|x]|] eqn:E.
    + assert (Htop : exists k1 r1, loop k1 top = Some r1).
      { unfold handleState in E.
        pose proof (handleEdges_pushed _ _ _ _ _ _ _ E) as (pushed & Heq & HF).
        rewrite app_nil_r in Heq. subst top.
        destruct (@pushed_RankedObject n state pushed Hg Hstate HF)
          as [->|(n' & -> & HR')].
        - exists 0, (Ok tt). reflexivity.
        - apply (IHn n'); [lia | exact HR']. }
      destruct Htop as (k1 & r1 & Hk1).
      assert (Hall : exists k r, loop k (top ++ stack) = Some r).
      { destruct r1 as [u|x].
        - exists (k1 + k2), r2. eapply validate_app; eauto.
        - exists k1, (Throw x). now apply validate_app. }
      destruct Hall as (k & r & Hk). exists (S k), r.
      rewrite validate_cons, E. exact Hk.
    + exists 1, (Throw x). rewrite validate_cons, E. reflexivity.
    + exfalso. revert E. unfold handleState. apply handleEdges_answers.
      intros e. eapply validateTransition_answers; eauto.
Qed.

End Termination.

Section TerminationOfComposition.

Variable fedRootName : SchemaRootKind -> string.
Variable advance :
  RootPath Transition -> Transition -> NamedType -> ConditionResolver ->
  option (list (RootPath Transition)).
Variable advanceSim :
  option Schema -> list OpGraphPath -> OperationElement -> ConditionResolver ->
  ExcludedEdges -> option (list (list OpGraphPath)).

(** The initial states are over the supergraph and mark no vertex yet. *)
Lemma initial_RankedObject (supergraph subgraphs : Graph) (kind : SchemaRootKind)
      (state : ValidationState) :
  initial fedRootName supergraph kind subgraphs = Ok (Built state) ->
  RankedObject supergraph subgraphs (List.length (g_vertices subgraphs)) (Built state).
Proof.
  intros H. apply initial_inv in H.
  destruct H as (sroot & root & _ & _ & _ & -> & _).
  split; [reflexivity|].
  unfold Ranked, initialState. simpl. apply Forall_forall. intros p Hp.
  apply in_map_iff in Hp. destruct Hp as (e & <- & _).
  split; [reflexivity|]. exists []. split; [|simpl; lia].
  repeat split; [constructor | intros i [] | constructor].
Qed.

Lemma conditionsBound_covers (g : Graph) :
  Forall (fun conditions => selectionSetSize conditions <= conditionsBound g)
         (graphConditions g).
Proof.
  unfold conditionsBound.
  assert (H : Forall (fun k => k <= list_max (map selectionSetSize (graphConditions g)))
                     (map selectionSetSize (graphConditions g)))
    by (apply list_max_le; lia).
  rewrite Forall_map in H. exact H.
Qed.


End TerminationOfComposition.

(** ** The excluding path-advancing functions meet the contract *)

Lemma in_combine_seq {A : Type} (l : list A) :
  forall s n a,
    In (n, a) (combine (seq s (List.length l)) l) ->
    s <= n /\ nth_error l (n - s) = Some a.
Proof.
  induction l as [|x l IH]; intros s n a H; [destruct H|].
  simpl in H. destruct H as [H|H].
  - injection H as <- <-. rewrite Nat.sub_diag. split; [lia | reflexivity].
  - apply IH in H. destruct H as [Hle Hnth]. split; [lia|].
    replace (n - s) with (S (n - S s)) by lia. exact Hnth.
Qed.

Lemma numbered_edge {T : Type} (g : Graph) (p : GraphPath T) (n : nat) (e : Edge) :
  p_graph p = g ->
  In (n, e) (Excluding.numbered p) ->
  In e (outEdges g (pathTail p))
  /\ In (v_index (pathTail p), n) (Excluding.edgeIds g).
Proof.
  intros Hg H. unfold Excluding.numbered in H. apply in_combine_seq in H.
  destruct H as [_ Hnth]. rewrite Nat.sub_0_r in Hnth.
  unfold nextEdges in Hnth. rewrite Hg in Hnth.
  assert (He : In e (outEdges g (pathTail p))) by (eapply nth_error_In; eauto).
  split; [exact He|].
  assert (Hn : n < List.length (outEdges g (pathTail p)))
    by (apply nth_error_Some; congruence).
  unfold outEdges in *. unfold Excluding.edgeIds. apply in_flat_map.
  exists (v_index (pathTail p)). split.
  - apply in_seq. split; [lia|]. simpl.
    destruct (Nat.lt_ge_cases (v_index (pathTail p)) (List.length (g_adjacencies g)))
      as [Hlt|Hge]; [exact Hlt|].
    rewrite nth_overflow in He by exact Hge. destruct He.
  - apply in_map. apply in_seq. lia.
Qed.

Lemma conditions_of_edge (g : Graph) (e : Edge) (conditions : SelectionSet) :
  In e (graphEdges g) -> e_conditions e = Some conditions ->
  In conditions (graphConditions g).
Proof.
  intros He Hc. unfold graphConditions. apply in_flat_map.
  exists e. split; [exact He|]. rewrite Hc. left. reflexivity.
Qed.

Lemma filter_length_mono {A : Type} (f f' : A -> bool) (l : list A) :
  (forall a, f' a = true -> f a = true) ->
  List.length (filter f' l) <= List.length (filter f l).
Proof.
  intros Himp. induction l as [|a l IH]; simpl; [lia|].
  destruct (f' a) eqn:E'; [rewrite (Himp a E')|destruct (f a)]; simpl; lia.
Qed.

Lemma filter_length_lt {A : Type} (f f' : A -> bool) (l : list A) (x : A) :
  (forall a, f' a = true -> f a = true) ->
  In x l -> f x = true -> f' x = false ->
  List.length (filter f' l) < List.length (filter f l).
Proof.
  intros Himp Hin Hf Hf'. induction l as [|a l IH]; [destruct Hin|].
  simpl. destruct Hin as [->|Hin].
  - rewrite Hf, Hf'. simpl. pose proof (filter_length_mono f f' l Himp). lia.
  - specialize (IH Hin).
    destruct (f' a) eqn:E'; [rewrite (Himp a E')|destruct (f a)]; simpl; lia.
Qed.

Lemma sameEdge_refl (id : nat * nat) : Excluding.sameEdge id id = true.
Proof. unfold Excluding.sameEdge. now rewrite !Nat.eqb_refl. Qed.

(** Excluding one more edge of the graph lowers the rank. *)
Lemma rank_cons (g : Graph) (excluded : ExcludedEdges) (id : nat * nat) :
  In id (Excluding.edgeIds g) ->
  Excluding.isExcluded excluded id = false ->
  Excluding.rank g (id :: excluded) < Excluding.rank g excluded.
Proof.
  intros Hin Hex. unfold Excluding.rank.
  apply filter_length_lt with (x := id); [|exact Hin| |].
  - intros a. unfold Excluding.isExcluded. simpl.
    destruct (Excluding.sameEdge a id); [discriminate | auto].
  - now rewrite Hex.
  - unfold Excluding.isExcluded. simpl. now rewrite sameEdge_refl.
Qed.

Lemma rank_bound (g : Graph) (excluded : ExcludedEdges) :
  Excluding.rank g excluded <= List.length (Excluding.edgeIds g).
Proof. unfold Excluding.rank. apply List.filter_length_le. Qed.

Lemma excluding_keepAllowed_answers (resolver : ConditionResolver)
      (excluded : ExcludedEdges) (v : Vertex) (edges : list (nat * Edge)) :
  (forall ne conditions,
      In ne edges ->
      e_conditions (snd ne) = Some conditions ->
      Excluding.isExcluded excluded (v_index v, fst ne) = false ->
      resolver conditions v ((v_index v, fst ne) :: excluded) <> None) ->
  Excluding.keepAllowed resolver excluded v edges <> None.
Proof.
  induction edges as [|ne edges IH]; intros H; simpl; [discriminate|].
  assert (Hne : Excluding.edgeAllowed resolver excluded v ne <> None).
  { unfold Excluding.edgeAllowed.
    destruct (e_conditions (snd ne)) as [conditions|] eqn:Ec; [|discriminate].
    destruct (Excluding.isExcluded excluded (v_index v, fst ne)) eqn:Ex;
      [discriminate|].
    specialize (H ne conditions (or_introl eq_refl) Ec Ex).
    destruct (resolver conditions v ((v_index v, fst ne) :: excluded)) as [[|]|];
      [discriminate | discriminate | contradiction]. }
  destruct (Excluding.edgeAllowed resolver excluded v ne); [|contradiction].
  destruct (Excluding.keepAllowed resolver excluded v edges) eqn:E; [discriminate|].
  exfalso. apply IH; [|reflexivity]. intros ne' c Hin. apply H. now right.
Qed.

Lemma excluding_keepAllowed_incl (resolver : ConditionResolver)
      (excluded : ExcludedEdges) (v : Vertex) (edges : list (nat * Edge)) :
  forall kept,
    Excluding.keepAllowed resolver excluded v edges = Some kept ->
    incl kept (map snd edges).
Proof.
  induction edges as [|ne edges IH]; simpl; intros kept H.
  - injection H as <-. apply incl_refl.
  - destruct (Excluding.edgeAllowed resolver excluded v ne) as [b|]; [|discriminate].
    destruct (Excluding.keepAllowed resolver excluded v edges) as [kept'|];
      [|discriminate].
    injection H as <-. specialize (IH _ eq_refl).
    destruct b; [apply incl_cons; [left; reflexivity | apply incl_tl; exact IH]
                | apply incl_tl; exact IH].
Qed.

Lemma sameTransition_not_free (t t' : Transition) :
  Example.sameTransition t t' = true -> t <> FreeTransition -> t' <> FreeTransition.
Proof. destruct t, t'; simpl; intros H Hne; try discriminate; congruence. Qed.

Lemma tailsInGraph_edge (g : Graph) (v : Vertex) (e : Edge) :
  Excluding.tailsInGraph g = true -> In e (outEdges g v) ->
  v_index (e_tail e) < List.length (g_vertices g).
Proof.
  unfold Excluding.tailsInGraph, outEdges. intros Hwf He.
  rewrite forallb_forall in Hwf.
  destruct (nth_in_or_default (v_index v) (g_adjacencies g) []) as [Hin|Heq].
  - specialize (Hwf _ Hin). rewrite forallb_forall in Hwf.
    apply Nat.ltb_lt. now apply Hwf.
  - rewrite Heq in He. destruct He.
Qed.

Lemma excluding_advance_extends (g : Graph) :
  Excluding.tailsInGraph g = true ->
  AdvanceExtends Excluding.advancePathWithTransition g.
Proof.
  intros Hwf p t targetType resolver qs q Hg Hfree Hadv Hq.
  unfold Excluding.advancePathWithTransition in Hadv.
  destruct (Excluding.keepAllowed _ _ _ _) as [kept|] eqn:E; [|discriminate].
  injection Hadv as <-. apply in_map_iff in Hq. destruct Hq as (e & <- & He).
  apply excluding_keepAllowed_incl in E. apply E, in_map_iff in He.
  destruct He as ([n e'] & Heq & He). simpl in Heq. subst e'.
  apply filter_In in He. destruct He as [He Htowards]. simpl in Htowards.
  destruct (@numbered_edge _ _ p n e Hg He) as [Hout _].
  split.
  - repeat split. exists [(e, t)]. split; [discriminate|]. split; [|reflexivity].
    constructor; [|constructor]. simpl. apply isFreeEdge_false.
    unfold Example.towards in Htowards. apply andb_true_iff in Htowards.
    destruct Htowards as [Hsame _]. exact (@sameTransition_not_free _ _ Hsame Hfree).
  - rewrite pathTail_add. exact (@tailsInGraph_edge _ _ _ Hwf Hout).
Qed.

Lemma excluding_advance_answers (g : Graph) :
  AdvanceAnswers Excluding.advancePathWithTransition g.
Proof.
  intros p t targetType resolver Hg Hres.
  unfold Excluding.advancePathWithTransition.
  destruct (Excluding.keepAllowed _ _ _ _) eqn:E; [discriminate|].
  exfalso. revert E. apply excluding_keepAllowed_answers.
  intros [n e] conditions Hin Hc _. simpl in *. apply Hres.
  apply filter_In in Hin. destruct Hin as [Hin _].
  destruct (@numbered_edge _ _ p n e Hg Hin) as [Hout _].
  exact (@conditions_of_edge _ _ _ (@outEdges_graphEdges _ _ _ Hout) Hc).
Qed.

Lemma excluding_advanceEach_answers (g : Graph) (element : OperationElement)
      (resolver : ConditionResolver) (excluded : ExcludedEdges)
      (paths : list OpGraphPath) :
  Forall (fun p => p_graph p = g) paths ->
  (forall conditions vertex excluded',
      In conditions (graphConditions g) ->
      Excluding.rank g excluded' < Excluding.rank g excluded ->
      resolver conditions vertex excluded' <> None) ->
  Excluding.advanceEach element resolver excluded paths <> None.
Proof.
  intros Hall Hres. induction Hall as [|p paths Hg _ IH]; simpl; [discriminate|].
  assert (Hkeep : Excluding.keepAllowed resolver excluded (pathTail p)
                    (filter (fun ne => Example.elementMatches element (snd ne))
                            (Excluding.numbered p)) <> None).
  { apply excluding_keepAllowed_answers.
    intros [n e] conditions Hin Hc Hex. simpl in *.
    apply filter_In in Hin. destruct Hin as [Hin _].
    destruct (@numbered_edge _ _ p n e Hg Hin) as [Hout Hid].
    apply Hres.
    - exact (@conditions_of_edge _ _ _ (@outEdges_graphEdges _ _ _ Hout) Hc).
    - now apply rank_cons. }
  destruct (Excluding.keepAllowed _ _ _ _) as [[|e kept]|]; [| |contradiction];
    destruct (Excluding.advanceEach element resolver excluded paths) as [[rest|]|];
    try discriminate; contradiction.
Qed.

Lemma excluding_sim_answers (g : Graph) :
  AdvanceSimAnswers Excluding.advanceSimultaneousPathsWithOperation
                    (Excluding.rank g) g.
Proof.
  intros schema paths element resolver excluded [_ Hall] Hres.
  unfold Excluding.advanceSimultaneousPathsWithOperation.
  pose proof (@excluding_advanceEach_answers g element resolver excluded paths Hall Hres) as H.
  destruct (Excluding.advanceEach element resolver excluded paths) as [[advanced|]|];
    [discriminate | discriminate | contradiction].
Qed.

Lemma excluding_advanceEach_keeps (g : Graph) (element : OperationElement)
      (resolver : ConditionResolver) (excluded : ExcludedEdges) :
  forall paths advanced,
    Excluding.advanceEach element resolver excluded paths = Some (Some advanced) ->
    PathSetOf g paths -> PathSetOf g advanced.
Proof.
  assert (H : forall paths advanced,
             Excluding.advanceEach element resolver excluded paths
             = Some (Some advanced) ->
             List.length advanced = List.length paths
             /\ (Forall (fun p => p_graph p = g) paths ->
                 Forall (fun p => p_graph p = g) advanced)).
  { induction paths as [|p paths IH]; simpl; intros advanced H.
    - injection H as <-. auto.
    - destruct (Excluding.keepAllowed _ _ _ _) as [[|e kept]|];
        destruct (Excluding.advanceEach element resolver excluded paths)
          as [[rest|]|]; try discriminate.
      injection H as <-. destruct (IH rest eq_refl) as [Hlen Hgraph].
      split; [simpl; now rewrite Hlen|].
      intros Hall. constructor; [exact (Forall_inv Hall)|].
      exact (Hgraph (Forall_inv_tail Hall)). }
  intros paths advanced Hadv [Hne Hall]. destruct (H _ _ Hadv) as [Hlen Hgraph].
  split; [|auto]. destruct advanced; [|discriminate].
  destruct paths; [contradiction | discriminate].
Qed.

Lemma excluding_sim_keeps (g : Graph) :
  AdvanceSimKeeps Excluding.advanceSimultaneousPathsWithOperation g.
Proof.
  intros schema paths element resolver excluded newPaths paths' Hset Hadv Hin.
  unfold Excluding.advanceSimultaneousPathsWithOperation in Hadv.
  destruct (Excluding.advanceEach element resolver excluded paths)
    as [[advanced|]|] eqn:E; try discriminate; injection Hadv as <-;
    [|destruct Hin].
  destruct Hin as [<-|[]]. exact (@excluding_advanceEach_keeps g element resolver excluded paths advanced E Hset).
Qed.

(** ** The statement at the example federation with conditions *)

Lemma noFreeEdge_supergraph : noFreeEdge Example.supergraph.
Proof. repeat constructor. Qed.


(** ** A free edge on a cycle: the traversal does not complete *)

Lemma turns_graph {T : Type} (p : GraphPath T) (t : T) (e : Edge) (k : nat) :
  p_graph (FreeLoop.turns p t e k) = p_graph p.
Proof. induction k as [|k IH]; [reflexivity | exact IH]. Qed.

Lemma turns_tail {T : Type} (p : GraphPath T) (t : T) (e : Edge) (k : nat) :
  pathTail p = e_tail e -> pathTail (FreeLoop.turns p t e k) = e_tail e.
Proof. intros H. destruct k as [|k]; [exact H | apply pathTail_add]. Qed.

Lemma visitedSince_free_step {T : Type} (steps : list (Edge * T)) (e : Edge) (t : T) :
  isFreeEdge e = true ->
  forall visited, visitedSince visited (steps ++ [(e, t)]) = [e_tail e].
Proof.
  intros He. induction steps as [|[e0 t0] steps IH]; intros visited.
  - cbn [app visitedSince]. now rewrite He.
  - cbn [app visitedSince]. apply IH.
Qed.

(** A path that has just taken a free edge has not just cycled. *)
Lemma hasJustCycled_free_step {T : Type} (p : GraphPath T) (t : T) (e : Edge) :
  isFreeEdge e = true -> hasJustCycled (pathAdd p t e) = false.
Proof.
  intros He. unfold hasJustCycled, sinceReset, pathAdd. cbn [p_root p_steps].
  now rewrite visitedSince_free_step.
Qed.

Section FreeLoopDiverges.

Variable fuel : nat.

Local Abbreviation schema := (firstSource FreeLoop.supergraph).
Local Abbreviation step :=
  (validateTransition Excluding.advancePathWithTransition
                      Excluding.advanceSimultaneousPathsWithOperation fuel).
Local Abbreviation loop :=
  (validate Excluding.advancePathWithTransition
            Excluding.advanceSimultaneousPathsWithOperation fuel schema).

Lemma freeLoop_nextEdges_supergraph (k : nat) :
  nextEdges (supergraphPath (FreeLoop.stateAfter k)) = [FreeLoop.sLoop].
Proof.
  unfold nextEdges, FreeLoop.stateAfter. cbn [supergraphPath].
  rewrite turns_graph, turns_tail; reflexivity.
Qed.

Lemma freeLoop_advance (resolver : ConditionResolver) (q : RootPath Transition) :
  p_graph q = FreeLoop.subgraphs ->
  pathTail q = Example.aQuery ->
  Excluding.advancePathWithTransition q FreeTransition Example.tQuery resolver
  = Some [pathAdd q FreeTransition FreeLoop.aLoop].
Proof.
  intros Hg Ht. unfold Excluding.advancePathWithTransition, Excluding.numbered.
  assert (Hnext : nextEdges q = [FreeLoop.aLoop])
    by (unfold nextEdges; rewrite Hg, Ht; reflexivity).
  rewrite Hnext. reflexivity.
Qed.

Lemma freeLoop_step (k : nat) :
  step (FreeLoop.stateAfter k) schema FreeLoop.sLoop
  = Some (Ok (FreeLoop.stateAfter (S k))).
Proof.
  unfold validateTransition, advanceSubgraphPaths.
  change (e_conditions FreeLoop.sLoop) with (@None SelectionSet).
  change (e_transition FreeLoop.sLoop) with FreeTransition.
  change (v_type (e_tail FreeLoop.sLoop)) with Example.tQuery.
  cbn [FreeLoop.stateAfter subgraphPaths supergraphPath flatMapOpt].
  rewrite freeLoop_advance;
    [|rewrite turns_graph; reflexivity | apply turns_tail; reflexivity].
  cbn [app List.length Nat.eqb].
  rewrite newValidationState_Ok; [reflexivity|].
  unfold stateInvariant. cbn [subgraphPaths supergraphPath].
  constructor; [|constructor]. now rewrite !pathTail_add.
Qed.

Lemma freeLoop_handle (k : nat) (stack : list StateObject) :
  handleState Excluding.advancePathWithTransition
              Excluding.advanceSimultaneousPathsWithOperation fuel schema
              (Built (FreeLoop.stateAfter k)) stack
  = Some (Ok (Built (FreeLoop.stateAfter (S k)) :: stack)).
Proof.
  unfold handleState. rewrite freeLoop_nextEdges_supergraph.
  cbn [handleEdges]. rewrite freeLoop_step. cbn [bindM].
  assert (Hterminal : isTerminal (supergraphPath (FreeLoop.stateAfter (S k))) = false)
    by (unfold isTerminal; now rewrite freeLoop_nextEdges_supergraph).
  assert (Hcycled : hasCycled (FreeLoop.stateAfter (S k)) = false).
  { unfold hasCycled, FreeLoop.stateAfter. cbn [subgraphPaths existsb FreeLoop.turns].
    now rewrite hasJustCycled_free_step. }
  rewrite Hterminal, Hcycled. reflexivity.
Qed.

Lemma freeLoop_validate (n : nat) :
  forall k stack, loop n (Built (FreeLoop.stateAfter k) :: stack) = None.
Proof.
  induction n as [|n IH]; intros k stack; [reflexivity|].
  cbn [validate]. rewrite freeLoop_handle. cbn [bindM]. apply IH.
Qed.

End FreeLoopDiverges.

